(** * notstd::Vector — a shallow embedding of [vector.h]

    The header defines two class templates: [RawMemory<T>], which owns a block
    of uninitialised slots, and [Vector<T>], which keeps the first [size_]
    slots of its block alive.  The embedding keeps both, together with the
    standard algorithms the header calls ([std::uninitialized_copy_n],
    [std::destroy_n], [std::move_backward], ...).

    - A [size_t] is a [Z] in [0, 2^64); the arithmetic the header does on
      sizes is wrapped with [wrap], the byte count [n * sizeof(T)] of an
      allocation included.
    - A block is a list of slots; a slot is [None] while it is raw memory and
      [Some x] while an object of value [x] lives in it.  A pointer into a
      block is the offset of the slot, an iterator of a vector is an offset
      into the vector's current block.
    - A call returns, lets an exception escape, stops at a failed [assert]
      (the header is read as a debug build), or has undefined behaviour:
      reading, assigning to or destroying a slot that holds no object, and
      any access outside the block.  When an exception escapes, the state
      it leaves behind is part of the outcome.
    - Storage that is released while objects are still alive in it leaks
      them; every method reports the objects it leaked. *)

From Stdlib Require Import ZArith Lia.
From stdpp Require Import base option list.

Local Open Scope Z_scope.

Module notstd.

(** ** Sizes *)

Definition SIZE_MAX : Z := 2 ^ 64 - 1.
Definition PTRDIFF_MAX : Z := 2 ^ 63 - 1.

(** Unsigned 64-bit arithmetic: the value of a [size_t] expression. *)
Definition wrap (z : Z) : Z := z mod 2 ^ 64.

(** ** Outcomes of a call *)

Inductive result (E R : Type) : Type :=
  | Returns (r : R)          (* normal completion *)
  | Raises (e : E)           (* an exception leaves the call; [e] is what is left behind *)
  | AssertionFailed          (* an [assert] stopped the program *)
  | Undefined.               (* the language gives the call no meaning *)

Arguments Returns {E R} r.
Arguments Raises {E R} e.
Arguments AssertionFailed {E R}.
Arguments Undefined {E R}.

#[global] Instance result_ret {E} : MRet (result E) := λ _ r, Returns r.

#[global] Instance result_bind {E} : MBind (result E) := λ _ _ k m,
  match m with
  | Returns r => k r
  | Raises e => Raises e
  | AssertionFailed => AssertionFailed
  | Undefined => Undefined
  end.

(** [try { m } catch (...) { h; throw; }]: the handler runs on the state the
    exception left behind and decides what the caller sees. *)
Definition unwind {E E' R} (m : result E R) (h : E → result E' R) : result E' R :=
  match m with
  | Returns r => Returns r
  | Raises e => h e
  | AssertionFailed => AssertionFailed
  | Undefined => Undefined
  end.

(** [assert(c)] *)
Definition assert {E} (c : bool) : result E unit :=
  if c then Returns () else AssertionFailed.

(** [always PE PR m]: if [m] returns, [PR] holds of what it returns; if an
    exception leaves [m], [PE] holds of the state left behind. *)

Definition always {E R} (PE : E → Prop) (PR : R → Prop) (m : result E R) : Prop :=
  match m with
  | Returns r => PR r
  | Raises e => PE e
  | AssertionFailed | Undefined => True
  end.

(** ** The element type

    What the header needs to know about [T]: its size in bytes, whether
    constructing an object from the arguments of [Emplace] succeeds, which
    objects make the copy and move operations raise, what a move leaves in
    its source, and the two type traits that [UninitializedMoveOrCopy]
    tests. *)

Class Element (T Args : Type) : Type := {
  sizeof_T : Z;                             (* sizeof(T) *)
  construct : Args → option T;              (* T(args...) ; [None]: it raises *)
  value_initialize : option T;              (* T() *)
  copy_throws : T → bool;                   (* T(const T&) raises on this source *)
  move_throws : T → bool;                   (* T(T&&) raises on this source *)
  copy_assign_throws : T → bool;            (* operator=(const T&) raises on this source *)
  move_assign_throws : T → bool;            (* operator=(T&&) raises on this source *)
  moved_from : T → T;                       (* the source after it was moved from *)
  is_nothrow_move_constructible : bool;
  is_copy_constructible : bool;
  sizeof_T_spec : 1 ≤ sizeof_T ≤ SIZE_MAX;
  nothrow_move_constructible_spec :
    is_nothrow_move_constructible = true → ∀ x, move_throws x = false
}.

(** ** The heap

    [operator new(bytes)] either satisfies the request or raises
    [std::bad_alloc]; [can_allocate bytes] says which.  No object is larger
    than [PTRDIFF_MAX] bytes, so no larger request is satisfied. *)

Class Heap : Type := {
  can_allocate : Z → bool;
  can_allocate_bound : ∀ bytes, can_allocate bytes = true → bytes ≤ PTRDIFF_MAX
}.

Section Model.
Context {T Args : Type} {elem : Element T Args} {heap : Heap}.

Local Abbreviation block := (list (option T)).

(** *** Objects in a block *)

(** [p] points at a slot of [b]. *)
Definition valid (b : block) (p : Z) : bool :=
  (0 <=? p) && (p <? Z.of_nat (length b)).

(** The object that lives at [b + p]. *)
Definition deref (b : block) (p : Z) : option T :=
  if valid b p then mjoin (b !! Z.to_nat p) else None.

Definition store (b : block) (p : Z) (o : option T) : block :=
  <[Z.to_nat p := o]> b.

(** [new (b + p) T(...)], where the constructor call evaluates to [init]. *)
Definition construct_at (b : block) (p : Z) (init : option T) : result block block :=
  if valid b p then
    match init with
    | Some x => Returns (store b p (Some x))
    | None => Raises b
    end
  else Undefined.

(** [(b + p)->~T()] *)
Definition destroy_at {E} (b : block) (p : Z) : result E block :=
  match deref b p with
  | Some _ => Returns (store b p None)
  | None => Undefined
  end.

Definition copy_construct (x : T) : option T :=
  if copy_throws x then None else Some x.

(** [new (b + d) T(std::move(b[s]))] *)
Definition move_construct_at (b : block) (s d : Z) : result block block :=
  match deref b s with
  | None => Undefined
  | Some x =>
    if valid b d then
      if move_throws x then Raises b
      else Returns (store (store b s (Some (moved_from x))) d (Some x))
    else Undefined
  end.

(** [b[d] = std::move(b[s])] *)
Definition move_assign_at (b : block) (s d : Z) : result block block :=
  match deref b s, deref b d with
  | Some x, Some _ =>
    if move_assign_throws x then Raises b
    else Returns (store (store b s (Some (moved_from x))) d (Some x))
  | _, _ => Undefined
  end.

(** [b[d] = std::move(tmp)] for a local object [tmp]. *)
Definition move_assign_from (b : block) (d : Z) (tmp : T) : result block block :=
  match deref b d with
  | Some _ =>
    if move_assign_throws tmp then Raises b else Returns (store b d (Some tmp))
  | None => Undefined
  end.

(** *** The standard algorithms the header calls *)

Fixpoint destroy_loop {E} (b : block) (first : Z) (n : nat) : result E block :=
  match n with
  | O => Returns b
  | S n' => b' ← destroy_at b first; destroy_loop b' (first + 1) n'
  end.

(** [std::destroy_n(b + first, n)] *)
Definition destroy_n {E} (b : block) (first n : Z) : result E block :=
  destroy_loop b first (Z.to_nat n).

Fixpoint copy_construct_loop (s : block) (first : Z) (d : block) (cur : Z) (n : nat)
  : result (block * Z) block :=
  match n with
  | O => Returns d
  | S n' =>
    match deref s first with
    | None => Undefined
    | Some x =>
      d' ← unwind (construct_at d cur (copy_construct x)) (λ d', Raises (d', cur));
      copy_construct_loop s (first + 1) d' (cur + 1) n'
    end
  end.

(** [std::uninitialized_copy_n(s + first, n, d + d_first)]: when a copy
    raises, the objects built so far are destroyed. *)
Definition uninitialized_copy_n (s : block) (first n : Z) (d : block) (d_first : Z)
  : result block block :=
  unwind (copy_construct_loop s first d d_first (Z.to_nat n))
         (λ '(d', cur), d'' ← destroy_n d' d_first (cur - d_first); Raises d'').

Fixpoint move_construct_loop (s : block) (first : Z) (d : block) (cur : Z) (n : nat)
  : result (block * block * Z) (block * block) :=
  match n with
  | O => Returns (s, d)
  | S n' =>
    match deref s first with
    | None => Undefined
    | Some x =>
      if valid d cur then
        if move_throws x then Raises (s, d, cur)
        else move_construct_loop (store s first (Some (moved_from x))) (first + 1)
                                 (store d cur (Some x)) (cur + 1) n'
      else Undefined
    end
  end.

(** [std::uninitialized_move_n(s + first, n, d + d_first)], between two
    blocks. *)
Definition uninitialized_move_n (s : block) (first n : Z) (d : block) (d_first : Z)
  : result (block * block) (block * block) :=
  unwind (move_construct_loop s first d d_first (Z.to_nat n))
         (λ '(s', d', cur), d'' ← destroy_n d' d_first (cur - d_first); Raises (s', d'')).

Fixpoint value_construct_loop (d : block) (cur : Z) (n : nat) : result (block * Z) block :=
  match n with
  | O => Returns d
  | S n' =>
    d' ← unwind (construct_at d cur value_initialize) (λ d', Raises (d', cur));
    value_construct_loop d' (cur + 1) n'
  end.

(** [std::uninitialized_value_construct_n(d + first, n)] *)
Definition uninitialized_value_construct_n (d : block) (first n : Z) : result block block :=
  unwind (value_construct_loop d first (Z.to_nat n))
         (λ '(d', cur), d'' ← destroy_n d' first (cur - first); Raises d'').

Fixpoint copy_loop (s : block) (first : Z) (d : block) (d_first : Z) (n : nat)
  : result block block :=
  match n with
  | O => Returns d
  | S n' =>
    match deref s first, deref d d_first with
    | Some x, Some _ =>
      if copy_assign_throws x then Raises d
      else copy_loop s (first + 1) (store d d_first (Some x)) (d_first + 1) n'
    | _, _ => Undefined
    end
  end.

(** [std::copy(s + first, s + last, d + d_first)], between two blocks. *)
Definition copy (s : block) (first last : Z) (d : block) (d_first : Z) : result block block :=
  copy_loop s first d d_first (Z.to_nat (last - first)).

Fixpoint move_loop (b : block) (first d_first : Z) (n : nat) : result block block :=
  match n with
  | O => Returns b
  | S n' => b' ← move_assign_at b first d_first; move_loop b' (first + 1) (d_first + 1) n'
  end.

(** [std::move(b + first, b + last, b + d_first)], inside one block. *)
Definition move (b : block) (first last d_first : Z) : result block block :=
  move_loop b first d_first (Z.to_nat (last - first)).

Fixpoint move_backward_loop (b : block) (last d_last : Z) (n : nat) : result block block :=
  match n with
  | O => Returns b
  | S n' =>
    b' ← move_assign_at b (last - 1) (d_last - 1);
    move_backward_loop b' (last - 1) (d_last - 1) n'
  end.

(** [std::move_backward(b + first, b + last, b + d_last)], inside one block. *)
Definition move_backward (b : block) (first last d_last : Z) : result block block :=
  move_backward_loop b last d_last (Z.to_nat (last - first)).

(** *** RawMemory<T> *)

Record RawMemory : Type := { buffer_ : block; capacity_ : Z }.

(** [RawMemory() = default] *)
Definition RawMemory_default : RawMemory := {| buffer_ := []; capacity_ := 0 |}.

(** [operator new(bytes)]: a block of raw memory with room for
    [bytes / sizeof(T)] objects; [None] is [std::bad_alloc]. *)
Definition operator_new (bytes : Z) : option block :=
  if can_allocate bytes then Some (replicate (Z.to_nat (bytes / sizeof_T)) None)
  else None.

(** [Allocate(n)]: no allocation for [n = 0]; the product [n * sizeof(T)] is
    computed in [size_t]. *)
Definition Allocate (n : Z) : option block :=
  if n =? 0 then Some [] else operator_new (wrap (n * sizeof_T)).

(** [explicit RawMemory(size_t capacity)] *)
Definition RawMemory_sized (capacity : Z) : result unit RawMemory :=
  match Allocate capacity with
  | Some b => Returns {| buffer_ := b; capacity_ := capacity |}
  | None => Raises ()
  end.

(** [Deallocate(buf)], as the destructor calls it: no destructor of an
    element runs, so the objects still alive in the block are leaked. *)
Definition Deallocate (buf : block) : list T := omap id buf.

(** [RawMemory(RawMemory&& other) noexcept]: the new object, and [other]
    afterwards. *)
Definition RawMemory_move (other : RawMemory) : RawMemory * RawMemory :=
  ({| buffer_ := buffer_ other; capacity_ := capacity_ other |},
   {| buffer_ := []; capacity_ := 0 |}).

(** [void Swap(RawMemory& other) noexcept]: the two objects afterwards. *)
Definition RawMemory_Swap (this other : RawMemory) : RawMemory * RawMemory :=
  ({| buffer_ := buffer_ other; capacity_ := capacity_ other |},
   {| buffer_ := buffer_ this; capacity_ := capacity_ this |}).

(** [T& operator[](size_t index)]: the slot the reference denotes. *)
Definition RawMemory_index {E} (m : RawMemory) (index : Z) : result E Z :=
  _ ← assert (index <? capacity_ m); Returns index.

(** *** Vector<T> *)

Record Vector : Type := { data_ : RawMemory; size_ : Z }.

Definition Size (this : Vector) : Z := size_ this.
Definition Capacity (this : Vector) : Z := capacity_ (data_ this).

(** The block that [begin()] points into. *)
Definition slots (this : Vector) : block := buffer_ (data_ this).

(** The vector after its block was written to. *)
Definition with_slots (this : Vector) (b : block) : Vector :=
  {| data_ := {| buffer_ := b; capacity_ := Capacity this |}; size_ := size_ this |}.

(** What a method leaves: the vector, and the objects leaked by the call. *)
Definition state : Type := Vector * list T.

(** [Vector() = default] *)
Definition Vector_default : Vector := {| data_ := RawMemory_default; size_ := 0 |}.

(** [explicit Vector(size_t size)] *)
Definition Vector_sized (size : Z) : result (list T) Vector :=
  data ← unwind (RawMemory_sized size) (λ _, Raises []);
  b ← unwind (uninitialized_value_construct_n (buffer_ data) 0 size)
             (λ b, Raises (Deallocate b));
  Returns {| data_ := {| buffer_ := b; capacity_ := size |}; size_ := size |}.

(** [Vector(const Vector& other)] *)
Definition Vector_copy (other : Vector) : result (list T) Vector :=
  data ← unwind (RawMemory_sized (size_ other)) (λ _, Raises []);
  b ← unwind (uninitialized_copy_n (slots other) 0 (size_ other) (buffer_ data) 0)
             (λ b, Raises (Deallocate b));
  Returns {| data_ := {| buffer_ := b; capacity_ := size_ other |}; size_ := size_ other |}.

(** [Vector(Vector&& other) noexcept]: the new vector and what is left of
    [other]. *)
Definition Vector_move (other : Vector) : Vector * Vector :=
  let '(data, other_data) := RawMemory_move (data_ other) in
  ({| data_ := data; size_ := size_ other |}, {| data_ := other_data; size_ := 0 |}).

(** [~Vector()]: the live elements are destroyed, then the block is
    released. *)
Definition Vector_destroy {E} (this : Vector) : result E (list T) :=
  b ← destroy_n (slots this) 0 (size_ this);
  Returns (Deallocate b).

(** [UninitializedMoveOrCopy(from, size, to)] from block [s] into block [d];
    a move changes the source block as well. *)
Definition UninitializedMoveOrCopy (s : block) (from size : Z) (d : block) (to : Z)
  : result (block * block) (block * block) :=
  if is_nothrow_move_constructible || negb is_copy_constructible then
    uninitialized_move_n s from size d to
  else
    d' ← unwind (uninitialized_copy_n s from size d to) (λ d', Raises (s, d'));
    Returns (s, d').

(** [T& EmplaceBack(Args&&... args)]: returns the slot of the new element. *)
Definition EmplaceBack (this : Vector) (args : Args) : result state (state * Z) :=
  if size_ this <? Capacity this then
    b ← unwind (construct_at (slots this) (size_ this) (construct args))
               (λ _, Raises (this, []));
    let this' := {| data_ := {| buffer_ := b; capacity_ := Capacity this |};
                    size_ := wrap (size_ this + 1) |} in
    r ← RawMemory_index (data_ this') (wrap (size_ this' - 1));
    Returns (this', [], r)
  else
    let new_capacity := if size_ this =? 0 then 1 else wrap (size_ this * 2) in
    new_data ← unwind (RawMemory_sized new_capacity) (λ _, Raises (this, []));
    nb ← unwind (construct_at (buffer_ new_data) (size_ this) (construct args))
                (λ nb, Raises (this, Deallocate nb));
    '(ob, nb) ← unwind (UninitializedMoveOrCopy (slots this) 0 (size_ this) nb 0)
                       (λ '(ob, nb), Raises (with_slots this ob, Deallocate nb));
    ob ← destroy_n ob 0 (size_ this);
    let this' := {| data_ := {| buffer_ := nb; capacity_ := new_capacity |};
                    size_ := wrap (size_ this + 1) |} in
    r ← RawMemory_index (data_ this') (wrap (size_ this' - 1));
    Returns (this', Deallocate ob, r).

(** [void PushBack(V&& value)] *)
Definition PushBack (this : Vector) (value : Args) : result state (state * unit) :=
  '(this', _) ← EmplaceBack this value; Returns (this', ()).

(** [iterator Emplace(const_iterator pos, Args&&... args)] *)
Definition Emplace (this : Vector) (pos : Z) (args : Args) : result state (state * Z) :=
  _ ← assert ((0 <=? pos) && (pos <=? size_ this));
  let before := wrap (pos - 0) in
  let after := wrap (size_ this - pos - 1) in
  if pos =? size_ this then
    '(this', _) ← EmplaceBack this args;
    Returns (this', before)
  else if size_ this <? Capacity this then
    match construct args with
    | None => Raises (this, [])
    | Some tmp =>
      b ← unwind (move_construct_at (slots this) (size_ this - 1) (size_ this))
                 (λ b, Raises (with_slots this b, []));
      b ← unwind (move_backward b pos (size_ this - 1) (size_ this))
                 (λ b, Raises (with_slots this b, []));
      i ← RawMemory_index (data_ this) before;
      b ← unwind (move_assign_from b i tmp) (λ b, Raises (with_slots this b, []));
      Returns ({| data_ := {| buffer_ := b; capacity_ := Capacity this |};
                  size_ := wrap (size_ this + 1) |}, [], before)
    end
  else
    let new_capacity := if size_ this =? 0 then 1 else wrap (size_ this * 2) in
    new_data ← unwind (RawMemory_sized new_capacity) (λ _, Raises (this, []));
    nb ← unwind (construct_at (buffer_ new_data) before (construct args))
                (λ nb, Raises (this, Deallocate nb));
    '(ob, nb) ← unwind (UninitializedMoveOrCopy (slots this) 0 before nb 0)
                       (λ '(ob, nb), nb' ← destroy_at nb (size_ this);
                                     Raises (with_slots this ob, Deallocate nb'));
    '(ob, nb) ← unwind (UninitializedMoveOrCopy ob pos (wrap (after + 1)) nb (wrap (before + 1)))
                       (λ '(ob, nb), nb' ← destroy_n nb 0 before;
                                     Raises (with_slots this ob, Deallocate nb'));
    ob ← destroy_n ob 0 (size_ this);
    Returns ({| data_ := {| buffer_ := nb; capacity_ := new_capacity |};
                size_ := wrap (size_ this + 1) |}, Deallocate ob, before).

(** [iterator Insert(const_iterator pos, V&& value)] *)
Definition Insert (this : Vector) (pos : Z) (value : Args) : result state (state * Z) :=
  Emplace this pos value.

(** [void PopBack() noexcept] *)
Definition PopBack {E} (this : Vector) : result E (state * unit) :=
  b ← destroy_n (slots this) (0 + wrap (size_ this - 1)) 1;
  Returns ({| data_ := {| buffer_ := b; capacity_ := Capacity this |};
              size_ := wrap (size_ this - 1) |}, [], ()).

(** [iterator Erase(const_iterator pos)] *)
Definition Erase (this : Vector) (pos : Z) : result state (state * Z) :=
  _ ← assert ((0 <=? pos) && (pos <? size_ this));
  b ← unwind (move (slots this) (pos + 1) (size_ this) pos)
             (λ b, Raises (with_slots this b, []));
  b ← destroy_at b (size_ this - 1);
  Returns ({| data_ := {| buffer_ := b; capacity_ := Capacity this |};
              size_ := wrap (size_ this - 1) |}, [], pos).

(** [void Swap(Vector& other) noexcept]: the two vectors afterwards. *)
Definition Swap (this other : Vector) : Vector * Vector :=
  let '(data, other_data) := RawMemory_Swap (data_ this) (data_ other) in
  ({| data_ := data; size_ := size_ other |}, {| data_ := other_data; size_ := size_ this |}).

(** The right-hand side of an assignment is the vector itself or another
    one. *)
Inductive operand : Type :=
  | Itself
  | Another (rhs : Vector).

(** [Vector& operator=(const Vector& rhs)] *)
Definition copy_assign (this : Vector) (rhs : operand) : result state (state * unit) :=
  match rhs with
  | Itself => Returns (this, [], ())
  | Another rhs =>
    if Capacity this <? size_ rhs then
      rhs_copy ← unwind (Vector_copy rhs) (λ leak, Raises (this, leak));
      let '(this', rhs_copy') := Swap this rhs_copy in
      leak ← Vector_destroy rhs_copy';
      Returns (this', leak, ())
    else if size_ rhs <? size_ this then
      b ← unwind (copy (slots rhs) 0 (0 + size_ rhs) (slots this) 0)
                 (λ b, Raises (with_slots this b, []));
      b ← destroy_n b (0 + size_ rhs) (wrap (size_ this - size_ rhs));
      Returns ({| data_ := {| buffer_ := b; capacity_ := Capacity this |};
                  size_ := size_ rhs |}, [], ())
    else
      b ← unwind (copy (slots rhs) 0 (0 + size_ this) (slots this) 0)
                 (λ b, Raises (with_slots this b, []));
      b ← unwind (uninitialized_copy_n (slots rhs) (0 + size_ this)
                    (wrap (size_ rhs - size_ this)) b (size_ this))
                 (λ b, Raises (with_slots this b, []));
      Returns ({| data_ := {| buffer_ := b; capacity_ := Capacity this |};
                  size_ := size_ rhs |}, [], ())
  end.

(** [Vector& operator=(Vector&& rhs) noexcept]: the two vectors afterwards. *)
Definition move_assign (this : Vector) (rhs : operand) : Vector * option Vector :=
  match rhs with
  | Itself => (this, None)
  | Another rhs =>
    let '(this', rhs') := Swap this rhs in
    (this', Some {| data_ := data_ rhs'; size_ := 0 |})
  end.

(** [void Reserve(size_t new_capacity)] *)
Definition Reserve (this : Vector) (new_capacity : Z) : result state (state * unit) :=
  if new_capacity <=? Capacity this then Returns (this, [], ())
  else
    new_data ← unwind (RawMemory_sized new_capacity) (λ _, Raises (this, []));
    '(ob, nb) ← unwind (UninitializedMoveOrCopy (slots this) 0 (size_ this) (buffer_ new_data) 0)
                       (λ '(ob, nb), Raises (with_slots this ob, Deallocate nb));
    ob ← destroy_n ob 0 (size_ this);
    Returns ({| data_ := {| buffer_ := nb; capacity_ := new_capacity |};
                size_ := size_ this |}, Deallocate ob, ()).

(** [void Resize(size_t new_size)] *)
Definition Resize (this : Vector) (new_size : Z) : result state (state * unit) :=
  if new_size =? size_ this then Returns (this, [], ())
  else if new_size <? size_ this then
    b ← destroy_n (slots this) (0 + new_size) (wrap (size_ this - new_size));
    Returns ({| data_ := {| buffer_ := b; capacity_ := Capacity this |};
                size_ := new_size |}, [], ())
  else
    '(this', leak, _) ← Reserve this new_size;
    b ← unwind (uninitialized_value_construct_n (slots this') (size_ this')
                  (wrap (new_size - size_ this')))
               (λ b, Raises (with_slots this' b, leak));
    Returns ({| data_ := {| buffer_ := b; capacity_ := Capacity this' |};
                size_ := new_size |}, leak, ()).

(** [T& operator[](size_t index) noexcept]: the slot the reference denotes. *)
Definition index {E} (this : Vector) (i : Z) : result E Z :=
  _ ← assert (i <? size_ this); RawMemory_index (data_ this) i.

(** [T* GetAddress() noexcept]: the first slot of the block. *)
Definition GetAddress (m : RawMemory) : Z := 0.

(** [iterator begin() noexcept] and [iterator end() noexcept]; the const
    overloads, [cbegin()] and [cend()] compute the same. *)
Definition begin (this : Vector) : Z := GetAddress (data_ this).
Definition end_ (this : Vector) : Z := GetAddress (data_ this) + size_ this.

(** What [*it] reads for every [it] from [first] up to [last]. *)
Definition read_range (this : Vector) (first last : Z) : list (option T) :=
  deref (slots this) <$> seqZ first (last - first).

End Model.

Arguments RawMemory T : clear implicits.
Arguments Vector T : clear implicits.
Arguments state T : clear implicits.
Arguments operand T : clear implicits.

(** * Vocabulary of the statements *)

Section Specification.
Context {T Args : Type} {elem : Element T Args} {heap : Heap}.

(** [UninitializedMoveOrCopy] moves when the move cannot raise or there is no
    copy; otherwise it copies. *)
Definition relocates_by_move : bool :=
  is_nothrow_move_constructible || negb is_copy_constructible.

(** No element of [xs] makes the relocation raise. *)
Definition relocatable (xs : list T) : Prop :=
  Forall (λ x, (if relocates_by_move then move_throws x else copy_throws x) = false) xs.

(** What the relocation leaves in the source slots. *)
Definition relocated (xs : list T) : list T :=
  if relocates_by_move then moved_from <$> xs else xs.

(** The block holds at most [capacity_] slots and is no larger than an
    object can be; the [size_] slots in use are slots of the block. *)
Record bounded (v : Vector T) : Prop := {
  bounded_block : Z.of_nat (length (slots v)) ≤ Capacity v;
  bounded_capacity : Capacity v ≤ SIZE_MAX;
  bounded_size : 0 ≤ size_ v ≤ Z.of_nat (length (slots v));
  bounded_bytes : Z.of_nat (length (slots v)) * sizeof_T ≤ PTRDIFF_MAX
}.

(** [v] holds the values [l]: the block has exactly [capacity_] slots, and
    slots [0, size) are alive and hold [l] in order. *)
Definition models (v : Vector T) (l : list T) : Prop :=
  bounded v ∧
  Z.of_nat (length (slots v)) = Capacity v ∧
  size_ v = Z.of_nat (length l) ∧
  take (length l) (slots v) = Some <$> l.

(** Slots [0, n) of [b] hold objects. *)
Definition alive_below (n : nat) (b : list (option T)) : Prop :=
  ∀ i, (i < n)%nat → ∃ x, b !! i = Some (Some x).

(** Slots [d0, cur) of [d] hold objects: what a construction loop that
    started at [d0] has built when it is at [cur]. *)
Definition built (d0 cur : Z) (d : list (option T)) : Prop :=
  d0 ≤ cur ∧ ∀ p, d0 ≤ p < cur → ∃ x, deref d p = Some x.

(** [v] is well formed: it holds some list of values. *)
Definition well_formed (v : Vector T) : Prop := ∃ l, models v l.

(** The capacity a full vector grows to. *)
Definition grown (capacity : Z) : Z := Z.max 1 (2 * capacity).

(** ** When a call returns

    The conditions under which no step of a method raises: the constructor
    of the new element succeeds, [operator new] satisfies the request, and
    the element operations the method performs on the values [l] it holds do
    not raise. *)

(** [EmplaceBack]: the constructor succeeds; a full vector also needs the
    new block and the relocation of its elements. *)
Definition append_quiet (v : Vector T) (l : list T) (args : Args) : Prop :=
  is_Some (construct args) ∧
  (size_ v = Capacity v →
     can_allocate (grown (Capacity v) * sizeof_T) = true ∧ relocatable l).

(** [Emplace] at [p]: as for [EmplaceBack]; in place, moreover, the move
    construction of the last element, the move assignments of the elements
    from [p] on but the last, and the move assignment of the new value. *)
Definition insert_quiet (v : Vector T) (l : list T) (p : Z) (args : Args) : Prop :=
  append_quiet v l args ∧
  (p < size_ v < Capacity v →
     (∀ z, last l = Some z → move_throws z = false) ∧
     Forall (λ y, move_assign_throws y = false) (removelast (drop (Z.to_nat p) l)) ∧
     (∀ x, construct args = Some x → move_assign_throws x = false)).

(** [Erase] at [p]: the move assignments of the elements after [p]. *)
Definition erase_quiet (l : list T) (p : Z) : Prop :=
  Forall (λ y, move_assign_throws y = false) (drop (S (Z.to_nat p)) l).

(** [Reserve(n)] beyond the capacity: the new block and the relocation. *)
Definition reserve_quiet (v : Vector T) (l : list T) (n : Z) : Prop :=
  Capacity v < n → can_allocate (n * sizeof_T) = true ∧ relocatable l.

(** Copy assignment from [rhs], which holds [r]: either the block and the
    copy constructions of a fresh copy, or the copy assignments onto the
    elements there are and the copy constructions of the further ones. *)
Definition copy_assign_quiet (v rhs : Vector T) (l r : list T) : Prop :=
  (Capacity v < size_ rhs →
     can_allocate (size_ rhs * sizeof_T) = true ∧ Forall (λ x, copy_throws x = false) r) ∧
  (size_ rhs ≤ Capacity v →
     Forall (λ x, copy_assign_throws x = false) (take (length l) r) ∧
     Forall (λ x, copy_throws x = false) (drop (length l) r)).

(** A value of type [size_t]. *)
Definition is_size_t (n : Z) : Prop := 0 ≤ n ≤ SIZE_MAX.

(** ** Sequences of calls *)

(** The mutating methods that take no other vector. *)
Inductive call : Type :=
  | CallEmplaceBack (args : Args)
  | CallPushBack (value : Args)
  | CallEmplace (pos : Z) (args : Args)
  | CallInsert (pos : Z) (value : Args)
  | CallPopBack
  | CallErase (pos : Z)
  | CallReserve (new_capacity : Z)
  | CallResize (new_size : Z).

Definition discard {A} (m : result (state T) (state T * A)) : result (state T) (state T) :=
  r ← m; Returns r.1.

Definition run (c : call) (this : Vector T) : result (state T) (state T) :=
  match c with
  | CallEmplaceBack args => discard (EmplaceBack this args)
  | CallPushBack value => discard (PushBack this value)
  | CallEmplace pos args => discard (Emplace this pos args)
  | CallInsert pos value => discard (Insert this pos value)
  | CallPopBack => discard (PopBack this)
  | CallErase pos => discard (Erase this pos)
  | CallReserve new_capacity => discard (Reserve this new_capacity)
  | CallResize new_size => discard (Resize this new_size)
  end.

(** The [size_t] arguments of a call are [size_t] values. *)
Definition well_typed (c : call) : Prop :=
  match c with
  | CallReserve n | CallResize n => is_size_t n
  | _ => True
  end.

(** The number of slots a call asks for takes a [size_t] number of bytes. *)
Definition in_range (c : call) : Prop :=
  match c with
  | CallReserve n | CallResize n => 0 ≤ n ∧ n * sizeof_T ≤ SIZE_MAX
  | _ => True
  end.

(** The vectors a program can hold: built by a constructor, or left by a
    method called on such a vector, whether the call returned or raised, or
    by an assignment [v[i] = x] through the reference that [operator[]]
    returns.  [ok] says which calls the program makes. *)
Inductive reachable_by (ok : call → Prop) : Vector T → Prop :=
  | reachable_default : reachable_by ok Vector_default
  | reachable_sized n v :
      is_size_t n → Vector_sized n = Returns v → reachable_by ok v
  | reachable_copy other v :
      reachable_by ok other → Vector_copy other = Returns v → reachable_by ok v
  | reachable_move_new other :
      reachable_by ok other → reachable_by ok (Vector_move other).1
  | reachable_move_old other :
      reachable_by ok other → reachable_by ok (Vector_move other).2
  | reachable_returns c v v' leak :
      reachable_by ok v → ok c → run c v = Returns (v', leak) → reachable_by ok v'
  | reachable_raises c v v' leak :
      reachable_by ok v → ok c → run c v = Raises (v', leak) → reachable_by ok v'
  | reachable_copy_assign_self v v' leak :
      reachable_by ok v → copy_assign v Itself = Returns (v', leak, ()) → reachable_by ok v'
  | reachable_copy_assign_returns v rhs v' leak :
      reachable_by ok v → reachable_by ok rhs →
      copy_assign v (Another rhs) = Returns (v', leak, ()) → reachable_by ok v'
  | reachable_copy_assign_raises v rhs v' leak :
      reachable_by ok v → reachable_by ok rhs →
      copy_assign v (Another rhs) = Raises (v', leak) → reachable_by ok v'
  | reachable_move_assign_this v rhs :
      reachable_by ok v → reachable_by ok rhs → reachable_by ok (move_assign v (Another rhs)).1
  | reachable_move_assign_rhs v rhs rhs' :
      reachable_by ok v → reachable_by ok rhs →
      (move_assign v (Another rhs)).2 = Some rhs' → reachable_by ok rhs'
  | reachable_assign v i r x :
      reachable_by ok v → index (E:=unit) v i = Returns r →
      reachable_by ok (with_slots v (store (slots v) r (Some x)))
  | reachable_swap_this v other :
      reachable_by ok v → reachable_by ok other → reachable_by ok (Swap v other).1
  | reachable_swap_other v other :
      reachable_by ok v → reachable_by ok other → reachable_by ok (Swap v other).2.

Definition reachable : Vector T → Prop := reachable_by well_typed.

(** [appends this argss]: append the elements built from [argss] one after
    the other; the vectors after each append, or [None] when an append does
    not return. *)
Fixpoint appends (this : Vector T) (argss : list Args) : option (list (Vector T)) :=
  match argss with
  | [] => Some []
  | args :: argss' =>
    match EmplaceBack this args with
    | Returns (this', _, _) => (this' ::.) <$> appends this' argss'
    | _ => None
    end
  end.

(** Run calls one after the other, as long as they return. *)
Fixpoint run_all (cs : list call) (this : Vector T) : result (state T) (Vector T) :=
  match cs with
  | [] => Returns this
  | c :: cs' => s ← run c this; run_all cs' s.1
  end.

End Specification.

(** * A concrete element type and a concrete heap

    Integers whose constructor raises on a negative argument and whose copy
    constructor raises on the value 13; a move leaves 0 behind and is not
    [noexcept], so relocation copies; an object takes 4 bytes.  The heap
    satisfies requests of up to 256 bytes. *)

Definition fragile : Element Z Z := {|
  sizeof_T := 4;
  construct a := if a <? 0 then None else Some a;
  value_initialize := Some 0;
  copy_throws x := x =? 13;
  move_throws x := false;
  copy_assign_throws x := false;
  move_assign_throws x := false;
  moved_from x := 0;
  is_nothrow_move_constructible := false;
  is_copy_constructible := true;
  sizeof_T_spec := ltac:(cbv; split; discriminate);
  nothrow_move_constructible_spec := λ _ _, eq_refl
|}.

(** Integers of 8 bytes without a default value ([T()] raises), whose move
    constructor is [noexcept], so relocation moves, and whose assignments
    raise on the value 7. *)
Definition brittle : Element Z Z := {|
  sizeof_T := 8;
  construct a := Some a;
  value_initialize := None;
  copy_throws x := false;
  move_throws x := false;
  copy_assign_throws x := x =? 7;
  move_assign_throws x := x =? 7;
  moved_from x := 0;
  is_nothrow_move_constructible := true;
  is_copy_constructible := true;
  sizeof_T_spec := ltac:(cbv; split; discriminate);
  nothrow_move_constructible_spec := λ _ _, eq_refl
|}.

Definition small_heap : Heap := {|
  can_allocate bytes := bytes <=? 256;
  can_allocate_bound bytes H :=
    Z.le_trans bytes 256 PTRDIFF_MAX (proj1 (Z.leb_le bytes 256) H) ltac:(cbv; discriminate)
|}.

(** [make b n]: the vector whose block is [b] and whose size is [n]. *)
Definition make {T : Type} (b : list (option T)) (size : Z) : Vector T :=
  {| data_ := {| buffer_ := b; capacity_ := Z.of_nat (length b) |}; size_ := size |}.

(** * Proof tools *)

(** Bring a list expression to right-nested form. *)
Ltac flatten_app := repeat progress (rewrite <-?app_assoc; cbn [app fmap list_fmap]).

Ltac solve_models :=
  repeat split; try (vm_compute; congruence); try (vm_compute; reflexivity).

Ltac solve_Forall :=
  repeat (constructor; [vm_compute; reflexivity|]); constructor.

(** * Facts about blocks *)

Section Blocks.
Context {T Args : Type} {elem : Element T Args}.

Local Abbreviation block := (list (option T)).

Lemma valid_middle (pre post : block) (o : option T) (p : Z) :
  p = Z.of_nat (length pre) → valid (pre ++ o :: post) p = true.
Proof.
  intros ->. unfold valid. rewrite length_app. simpl.
  apply andb_true_intro; split; [apply Z.leb_le | apply Z.ltb_lt]; lia.
Qed.

Lemma deref_middle (pre post : block) (o : option T) (p : Z) :
  p = Z.of_nat (length pre) → deref (pre ++ o :: post) p = o.
Proof.
  intros Hp. unfold deref. rewrite valid_middle by done.
  subst p. rewrite Nat2Z.id, list_lookup_middle by done. by destruct o.
Qed.

Lemma store_middle (pre post : block) (o o' : option T) (p : Z) :
  p = Z.of_nat (length pre) → store (pre ++ o :: post) p o' = pre ++ o' :: post.
Proof.
  intros ->. unfold store. rewrite Nat2Z.id.
  replace (length pre) with (length pre + 0)%nat at 1 by lia.
  by rewrite insert_app_r.
Qed.

Lemma length_store (b : block) (p : Z) (o : option T) : length (store b p o) = length b.
Proof. apply length_insert. Qed.

Lemma valid_store (b : block) (p q : Z) (o : option T) : valid (store b p o) q = valid b q.
Proof. unfold valid. by rewrite length_store. Qed.

Lemma valid_lt (b : block) (p : Z) : valid b p = true ↔ 0 ≤ p < Z.of_nat (length b).
Proof. unfold valid. rewrite andb_true_iff, Z.leb_le, Z.ltb_lt. done. Qed.

Lemma deref_Some_valid (b : block) (p : Z) (x : T) : deref b p = Some x → valid b p = true.
Proof. unfold deref. by destruct (valid b p). Qed.

(** *** The loops on live ranges

    Each lemma runs one algorithm on a block written as
    [pre ++ range ++ post] and gives the block it returns when no element
    operation raises. *)

Lemma destroy_loop_live {E} (pre post : block) (xs : list T) (p : Z) :
  p = Z.of_nat (length pre) →
  destroy_loop (E:=E) (pre ++ (Some <$> xs) ++ post) p (length xs)
  = Returns (pre ++ replicate (length xs) None ++ post).
Proof.
  revert pre p. induction xs as [|x xs IH]; intros pre p Hp; simpl; [done|].
  unfold destroy_at. rewrite deref_middle by done. simpl.
  rewrite store_middle by done.
  rewrite (cons_middle None pre), app_assoc, IH.
  - by rewrite <-app_assoc.
  - rewrite length_app. simpl. lia.
Qed.

Lemma destroy_n_live {E} (pre post : block) (xs : list T) (p n : Z) :
  p = Z.of_nat (length pre) → n = Z.of_nat (length xs) →
  destroy_n (E:=E) (pre ++ (Some <$> xs) ++ post) p n
  = Returns (pre ++ replicate (length xs) None ++ post).
Proof.
  intros Hp ->. unfold destroy_n. rewrite Nat2Z.id. by apply destroy_loop_live.
Qed.

Lemma copy_construct_loop_live (s1 s2 d1 d2 mid : block) (xs : list T) (first cur : Z) :
  first = Z.of_nat (length s1) → cur = Z.of_nat (length d1) →
  length mid = length xs →
  Forall (λ x, copy_throws x = false) xs →
  copy_construct_loop (s1 ++ (Some <$> xs) ++ s2) first (d1 ++ mid ++ d2) cur (length xs)
  = Returns (d1 ++ (Some <$> xs) ++ d2).
Proof.
  revert s1 d1 mid first cur.
  induction xs as [|x xs IH]; intros s1 d1 mid first cur Hf Hc Hlen Hq.
  - destruct mid; [done | discriminate].
  - destruct mid as [|o mid]; [discriminate|]. simpl in Hlen.
    inversion Hq as [|? ? Hx Hxs]; subst.
    simpl. rewrite deref_middle by done.
    unfold construct_at, copy_construct. rewrite valid_middle, Hx by done. simpl.
    rewrite store_middle by done.
    rewrite (cons_middle (Some x) s1), (cons_middle (Some x) d1), !app_assoc.
    rewrite <-!(app_assoc _ _ s2), <-!(app_assoc _ mid d2).
    rewrite IH; [by rewrite <-!app_assoc | | | lia | done];
      rewrite length_app; simpl; lia.
Qed.

Lemma uninitialized_copy_n_live (s1 s2 d1 d2 mid : block) (xs : list T) (first n cur : Z) :
  first = Z.of_nat (length s1) → cur = Z.of_nat (length d1) →
  n = Z.of_nat (length xs) → length mid = length xs →
  Forall (λ x, copy_throws x = false) xs →
  uninitialized_copy_n (s1 ++ (Some <$> xs) ++ s2) first n (d1 ++ mid ++ d2) cur
  = Returns (d1 ++ (Some <$> xs) ++ d2).
Proof.
  intros Hf Hc -> Hlen Hq. unfold uninitialized_copy_n. rewrite Nat2Z.id.
  by rewrite copy_construct_loop_live.
Qed.

Lemma move_construct_loop_live (s1 s2 d1 d2 mid : block) (xs : list T) (first cur : Z) :
  first = Z.of_nat (length s1) → cur = Z.of_nat (length d1) →
  length mid = length xs →
  Forall (λ x, move_throws x = false) xs →
  move_construct_loop (s1 ++ (Some <$> xs) ++ s2) first (d1 ++ mid ++ d2) cur (length xs)
  = Returns (s1 ++ (Some <$> (moved_from <$> xs)) ++ s2, d1 ++ (Some <$> xs) ++ d2).
Proof.
  revert s1 d1 mid first cur.
  induction xs as [|x xs IH]; intros s1 d1 mid first cur Hf Hc Hlen Hq.
  - destruct mid; [done | discriminate].
  - destruct mid as [|o mid]; [discriminate|]. simpl in Hlen.
    inversion Hq as [|? ? Hx Hxs]; subst.
    simpl. rewrite deref_middle, valid_middle, Hx by done.
    rewrite !store_middle by done.
    rewrite (cons_middle (Some (moved_from x)) s1), (cons_middle (Some x) d1), !app_assoc.
    rewrite <-!(app_assoc _ _ s2), <-!(app_assoc _ mid d2).
    rewrite IH; [by rewrite <-!app_assoc | | | lia | done];
      rewrite length_app; simpl; lia.
Qed.

Lemma uninitialized_move_n_live (s1 s2 d1 d2 mid : block) (xs : list T) (first n cur : Z) :
  first = Z.of_nat (length s1) → cur = Z.of_nat (length d1) →
  n = Z.of_nat (length xs) → length mid = length xs →
  Forall (λ x, move_throws x = false) xs →
  uninitialized_move_n (s1 ++ (Some <$> xs) ++ s2) first n (d1 ++ mid ++ d2) cur
  = Returns (s1 ++ (Some <$> (moved_from <$> xs)) ++ s2, d1 ++ (Some <$> xs) ++ d2).
Proof.
  intros Hf Hc -> Hlen Hq. unfold uninitialized_move_n. rewrite Nat2Z.id.
  by rewrite move_construct_loop_live.
Qed.

Lemma copy_loop_live (s1 s2 d1 d2 : block) (xs ys : list T) (first d_first : Z) :
  first = Z.of_nat (length s1) → d_first = Z.of_nat (length d1) →
  length ys = length xs →
  Forall (λ x, copy_assign_throws x = false) xs →
  copy_loop (s1 ++ (Some <$> xs) ++ s2) first (d1 ++ (Some <$> ys) ++ d2) d_first (length xs)
  = Returns (d1 ++ (Some <$> xs) ++ d2).
Proof.
  revert s1 d1 ys first d_first.
  induction xs as [|x xs IH]; intros s1 d1 ys first d_first Hf Hd Hlen Hq.
  - destruct ys; [done | discriminate].
  - destruct ys as [|y ys]; [discriminate|]. simpl in Hlen.
    inversion Hq as [|? ? Hx Hxs]; subst.
    simpl. rewrite !deref_middle, Hx by done.
    rewrite store_middle by done.
    rewrite (cons_middle (Some x) s1), (cons_middle (Some x) d1), !app_assoc.
    rewrite <-(app_assoc (s1 ++ [Some x])), <-(app_assoc (d1 ++ [Some x])).
    change (list_fmap T (option T) Some) with (fmap (M:=list) (@Some T)).
    rewrite IH; [by rewrite <-!app_assoc | | | lia | done];
      rewrite length_app; simpl; lia.
Qed.

Lemma copy_live (s2 d1 d2 : block) (xs ys : list T) (last : Z) :
  last = Z.of_nat (length xs) → length ys = length xs →
  Forall (λ x, copy_assign_throws x = false) xs →
  copy ((Some <$> xs) ++ s2) 0 last ((Some <$> ys) ++ d2) 0
  = Returns ((Some <$> xs) ++ d2).
Proof.
  intros -> Hlen Hq. unfold copy. rewrite Z.sub_0_r, Nat2Z.id.
  by apply (copy_loop_live [] s2 [] d2).
Qed.

Lemma deref_second (pre post : block) (o o' : option T) (p : Z) :
  p = Z.of_nat (length pre) + 1 → deref (pre ++ o :: o' :: post) p = o'.
Proof.
  intros Hp. rewrite (cons_middle o pre), app_assoc.
  apply deref_middle. rewrite length_app. simpl. lia.
Qed.

Lemma store_second (pre post : block) (o o' o'' : option T) (p : Z) :
  p = Z.of_nat (length pre) + 1 →
  store (pre ++ o :: o' :: post) p o'' = pre ++ o :: o'' :: post.
Proof.
  intros Hp. rewrite (cons_middle o pre), app_assoc, store_middle.
  - by rewrite <-app_assoc.
  - rewrite length_app. simpl. lia.
Qed.

(** [b[p] = std::move(b[p + 1])] *)
Lemma move_assign_at_left (pre post : block) (x y : T) (s d : Z) :
  d = Z.of_nat (length pre) → s = d + 1 → move_assign_throws x = false →
  move_assign_at (pre ++ Some y :: Some x :: post) s d
  = Returns (pre ++ Some x :: Some (moved_from x) :: post).
Proof.
  intros Hd Hs Hx. unfold move_assign_at.
  rewrite (deref_second _ _ _ _ s), (deref_middle _ _ _ d), Hx by lia.
  by rewrite (store_second _ _ _ _ _ s), store_middle by lia.
Qed.

(** [b[p + 1] = std::move(b[p])] *)
Lemma move_assign_at_right (pre post : block) (x y : T) (s d : Z) :
  s = Z.of_nat (length pre) → d = s + 1 → move_assign_throws x = false →
  move_assign_at (pre ++ Some x :: Some y :: post) s d
  = Returns (pre ++ Some (moved_from x) :: Some x :: post).
Proof.
  intros Hs Hd Hx. unfold move_assign_at.
  rewrite (deref_second _ _ _ _ d), (deref_middle _ _ _ s), Hx by lia.
  by rewrite (store_middle _ _ _ _ s), store_second by lia.
Qed.

Lemma move_loop_live (pre post : block) (y : T) (xs : list T) (first d_first : Z) :
  d_first = Z.of_nat (length pre) → first = d_first + 1 →
  Forall (λ x, move_assign_throws x = false) xs →
  ∃ y', move_loop (pre ++ Some y :: (Some <$> xs) ++ post) first d_first (length xs)
        = Returns (pre ++ (Some <$> xs) ++ Some y' :: post).
Proof.
  revert pre y first d_first.
  induction xs as [|x xs IH]; intros pre y first d_first Hd Hf Hq.
  - by exists y.
  - inversion Hq as [|? ? Hx Hxs]; subst.
    rewrite fmap_cons. cbn [move_loop length app].
    rewrite move_assign_at_left by done.
    rewrite (cons_middle (Some x) pre), app_assoc.
    destruct (IH (pre ++ [Some x]) (moved_from x)
                 (Z.of_nat (length pre) + 1 + 1) (Z.of_nat (length pre) + 1)) as [y' Hy'];
      [rewrite length_app; simpl; lia | done | done |].
    exists y'. cbn [mbind result_bind]. rewrite Hy'. by rewrite <-app_assoc.
Qed.

Lemma move_backward_loop_live (pre post : block) (y : T) (xs : list T) (last d_last : Z) :
  last = Z.of_nat (length pre + length xs) → d_last = last + 1 →
  Forall (λ x, move_assign_throws x = false) xs →
  ∃ y', move_backward_loop (pre ++ (Some <$> xs) ++ Some y :: post) last d_last (length xs)
        = Returns (pre ++ Some y' :: (Some <$> xs) ++ post).
Proof.
  revert post y last d_last.
  induction xs as [|x xs IH] using rev_ind; intros post y last d_last Hl Hd Hq.
  - by exists y.
  - apply Forall_app in Hq as [Hxs Hx%Forall_inv].
    rewrite length_app, Nat.add_comm. cbn [move_backward_loop length Nat.add].
    rewrite fmap_app, fmap_cons, <-!app_assoc. cbn [fmap list_fmap app].
    rewrite (app_assoc pre).
    rewrite move_assign_at_right;
      [ | rewrite Hl, !length_app, length_fmap; simpl; lia | lia | done].
    rewrite <-app_assoc.
    destruct (IH (Some x :: post) (moved_from x) (last - 1) (d_last - 1)) as [y' Hy'];
      [rewrite Hl, length_app; simpl; lia | lia | done |].
    exists y'. cbn [mbind result_bind]. by rewrite Hy'.
Qed.

Lemma length_relocated (xs : list T) : length (relocated xs) = length xs.
Proof. unfold relocated. destruct relocates_by_move; [apply length_fmap | done]. Qed.

Lemma relocatable_app (xs ys : list T) :
  relocatable (xs ++ ys) ↔ relocatable xs ∧ relocatable ys.
Proof. apply Forall_app. Qed.

Lemma UninitializedMoveOrCopy_live
    (s1 s2 d1 d2 mid : block) (xs : list T) (from size to : Z) :
  from = Z.of_nat (length s1) → to = Z.of_nat (length d1) →
  size = Z.of_nat (length xs) → length mid = length xs →
  relocatable xs →
  UninitializedMoveOrCopy (s1 ++ (Some <$> xs) ++ s2) from size (d1 ++ mid ++ d2) to
  = Returns (s1 ++ (Some <$> relocated xs) ++ s2, d1 ++ (Some <$> xs) ++ d2).
Proof.
  intros Hf Ht Hs Hlen Hq.
  unfold UninitializedMoveOrCopy, relocatable, relocated, relocates_by_move in *.
  destruct (is_nothrow_move_constructible || negb is_copy_constructible).
  - by apply uninitialized_move_n_live.
  - by rewrite uninitialized_copy_n_live.
Qed.

Lemma UninitializedMoveOrCopy_front (s2 d2 mid : block) (xs : list T) (size : Z) :
  size = Z.of_nat (length xs) → length mid = length xs → relocatable xs →
  UninitializedMoveOrCopy ((Some <$> xs) ++ s2) 0 size (mid ++ d2) 0
  = Returns ((Some <$> relocated xs) ++ s2, (Some <$> xs) ++ d2).
Proof. intros. by apply (UninitializedMoveOrCopy_live [] s2 [] d2). Qed.

Lemma destroy_n_front {E} (post : block) (xs : list T) (n : Z) :
  n = Z.of_nat (length xs) →
  destroy_n (E:=E) ((Some <$> xs) ++ post) 0 n = Returns (replicate (length xs) None ++ post).
Proof. intros. by apply (destroy_n_live [] post). Qed.

Lemma uninitialized_copy_n_front (s2 d2 mid : block) (xs : list T) (n : Z) :
  n = Z.of_nat (length xs) → length mid = length xs →
  Forall (λ x, copy_throws x = false) xs →
  uninitialized_copy_n ((Some <$> xs) ++ s2) 0 n (mid ++ d2) 0 = Returns ((Some <$> xs) ++ d2).
Proof. intros. by apply (uninitialized_copy_n_live [] s2 [] d2). Qed.

(** *** What a loop that returned tells about the elements

    A loop returns only if no element operation raised. *)

Lemma bind_Returns {E R R'} (m : result E R) (k : R → result E R') (r : R') :
  m ≫= k = Returns r → ∃ a, m = Returns a ∧ k a = Returns r.
Proof. destruct m; cbn; [eauto | discriminate..]. Qed.

Lemma unwind_Returns {E E' R} (m : result E R) (h : E → result E' R) (r : R) :
  (∀ e, h e ≠ Returns r) → unwind m h = Returns r → m = Returns r.
Proof.
  intros Hh. destruct m; cbn; [by intros [= ->] | by intros ?%Hh | discriminate..].
Qed.

Lemma bind_Raises_ne {E R R'} (m : result E R) (f : R → E) (r : R') :
  m ≫= (λ a, Raises (f a)) ≠ Returns r.
Proof. destruct m; cbn; discriminate. Qed.

Lemma construct_at_Returns (b b' : block) (p : Z) (init : option T) :
  construct_at b p init = Returns b' → ∃ x, init = Some x ∧ b' = store b p (Some x).
Proof.
  unfold construct_at. destruct (valid b p); [|done].
  destruct init; [|done]. intros [= <-]. eauto.
Qed.

Lemma copy_construct_loop_quiet (s1 s2 d d' : block) (xs : list T) (first cur : Z) :
  first = Z.of_nat (length s1) →
  copy_construct_loop (s1 ++ (Some <$> xs) ++ s2) first d cur (length xs) = Returns d' →
  Forall (λ x, copy_throws x = false) xs.
Proof.
  revert s1 d first cur. induction xs as [|x xs IH]; intros s1 d first cur Hf Hrun.
  - constructor.
  - rewrite fmap_cons in Hrun. cbn [length copy_construct_loop app] in Hrun.
    rewrite deref_middle in Hrun by done.
    apply bind_Returns in Hrun as (d1 & Hd1 & Hrun).
    apply unwind_Returns in Hd1; [|done].
    apply construct_at_Returns in Hd1 as (y & Hy & _).
    unfold copy_construct in Hy. destruct (copy_throws x) eqn:Hx; [done|].
    constructor; [done|].
    rewrite (cons_middle (Some x) s1), app_assoc in Hrun.
    eapply IH; [|exact Hrun]. rewrite length_app. simpl. lia.
Qed.

Lemma uninitialized_copy_n_quiet (s1 s2 d d' : block) (xs : list T) (first n cur : Z) :
  first = Z.of_nat (length s1) → n = Z.of_nat (length xs) →
  uninitialized_copy_n (s1 ++ (Some <$> xs) ++ s2) first n d cur = Returns d' →
  Forall (λ x, copy_throws x = false) xs.
Proof.
  intros Hf -> Hrun. unfold uninitialized_copy_n in Hrun. rewrite Nat2Z.id in Hrun.
  apply unwind_Returns in Hrun; [by eapply copy_construct_loop_quiet|].
  intros [e cur']. apply bind_Raises_ne.
Qed.

Lemma move_construct_loop_quiet (s1 s2 d : block) (r : block * block)
    (xs : list T) (first cur : Z) :
  first = Z.of_nat (length s1) →
  move_construct_loop (s1 ++ (Some <$> xs) ++ s2) first d cur (length xs) = Returns r →
  Forall (λ x, move_throws x = false) xs.
Proof.
  revert s1 d first cur. induction xs as [|x xs IH]; intros s1 d first cur Hf Hrun.
  - constructor.
  - rewrite fmap_cons in Hrun. cbn [length move_construct_loop app] in Hrun.
    rewrite deref_middle in Hrun by done.
    destruct (valid d cur); [|done].
    destruct (move_throws x) eqn:Hx; [done|].
    constructor; [done|].
    rewrite store_middle in Hrun by done.
    rewrite (cons_middle (Some (moved_from x)) s1), app_assoc in Hrun.
    eapply IH; [|exact Hrun]. rewrite length_app. simpl. lia.
Qed.

Lemma uninitialized_move_n_quiet (s1 s2 d : block) (r : block * block)
    (xs : list T) (first n cur : Z) :
  first = Z.of_nat (length s1) → n = Z.of_nat (length xs) →
  uninitialized_move_n (s1 ++ (Some <$> xs) ++ s2) first n d cur = Returns r →
  Forall (λ x, move_throws x = false) xs.
Proof.
  intros Hf -> Hrun. unfold uninitialized_move_n in Hrun. rewrite Nat2Z.id in Hrun.
  apply unwind_Returns in Hrun; [by eapply move_construct_loop_quiet|].
  intros [[e1 e2] cur']. apply bind_Raises_ne.
Qed.

Lemma UninitializedMoveOrCopy_quiet (s1 s2 d : block) (r : block * block)
    (xs : list T) (from size to : Z) :
  from = Z.of_nat (length s1) → size = Z.of_nat (length xs) →
  UninitializedMoveOrCopy (s1 ++ (Some <$> xs) ++ s2) from size d to = Returns r →
  relocatable xs.
Proof.
  intros Hf Hs Hrun.
  unfold UninitializedMoveOrCopy, relocatable, relocates_by_move in *.
  destruct (is_nothrow_move_constructible || negb is_copy_constructible).
  - by eapply uninitialized_move_n_quiet.
  - apply bind_Returns in Hrun as (d' & Hd' & _).
    apply unwind_Returns in Hd'; [|done].
    by eapply uninitialized_copy_n_quiet.
Qed.

Lemma UninitializedMoveOrCopy_front_quiet (s2 d : block) (r : block * block)
    (xs : list T) (size : Z) :
  size = Z.of_nat (length xs) →
  UninitializedMoveOrCopy ((Some <$> xs) ++ s2) 0 size d 0 = Returns r →
  relocatable xs.
Proof. intros. by eapply (UninitializedMoveOrCopy_quiet [] s2). Qed.

Lemma copy_loop_quiet (s1 s2 d d' : block) (xs : list T) (first d_first : Z) :
  first = Z.of_nat (length s1) →
  copy_loop (s1 ++ (Some <$> xs) ++ s2) first d d_first (length xs) = Returns d' →
  Forall (λ x, copy_assign_throws x = false) xs.
Proof.
  revert s1 d first d_first. induction xs as [|x xs IH]; intros s1 d first d_first Hf Hrun.
  - constructor.
  - rewrite fmap_cons in Hrun. cbn [length copy_loop app] in Hrun.
    rewrite deref_middle in Hrun by done.
    destruct (deref d d_first); [|done].
    destruct (copy_assign_throws x) eqn:Hx; [done|].
    constructor; [done|].
    rewrite (cons_middle (Some x) s1), app_assoc in Hrun.
    eapply IH; [|exact Hrun]. rewrite length_app. simpl. lia.
Qed.

Lemma copy_quiet (s2 d d' : block) (xs : list T) (last : Z) :
  last = Z.of_nat (length xs) →
  copy ((Some <$> xs) ++ s2) 0 last d 0 = Returns d' →
  Forall (λ x, copy_assign_throws x = false) xs.
Proof.
  intros -> Hrun. unfold copy in Hrun. rewrite Z.sub_0_r, Nat2Z.id in Hrun.
  by eapply (copy_loop_quiet [] s2).
Qed.

Lemma move_assign_at_Returns (b b' : block) (s d : Z) (x : T) :
  deref b s = Some x → move_assign_at b s d = Returns b' → move_assign_throws x = false.
Proof.
  intros Hs. unfold move_assign_at. rewrite Hs.
  destruct (deref b d); [|done]. by destruct (move_assign_throws x).
Qed.

Lemma move_loop_quiet (pre post b' : block) (y : T) (xs : list T) (first d_first : Z) :
  d_first = Z.of_nat (length pre) → first = d_first + 1 →
  move_loop (pre ++ Some y :: (Some <$> xs) ++ post) first d_first (length xs) = Returns b' →
  Forall (λ x, move_assign_throws x = false) xs.
Proof.
  revert pre y first d_first.
  induction xs as [|x xs IH]; intros pre y first d_first Hd Hf Hrun.
  - constructor.
  - rewrite fmap_cons in Hrun. cbn [length move_loop app] in Hrun.
    apply bind_Returns in Hrun as (b1 & Hb1 & Hrun).
    assert (Hx : move_assign_throws x = false).
    { eapply move_assign_at_Returns; [|exact Hb1]. apply deref_second. lia. }
    rewrite move_assign_at_left in Hb1 by done. injection Hb1 as <-.
    constructor; [done|].
    rewrite (cons_middle (Some x) pre), app_assoc in Hrun.
    eapply (IH (pre ++ [Some x]) (moved_from x)); [| |exact Hrun];
      [rewrite length_app; simpl|]; lia.
Qed.

Lemma move_backward_loop_quiet
    (pre post b' : block) (y : T) (xs : list T) (last d_last : Z) :
  last = Z.of_nat (length pre + length xs) → d_last = last + 1 →
  move_backward_loop (pre ++ (Some <$> xs) ++ Some y :: post) last d_last (length xs)
  = Returns b' →
  Forall (λ x, move_assign_throws x = false) xs.
Proof.
  revert post y last d_last.
  induction xs as [|x xs IH] using rev_ind; intros post y last d_last Hl Hd Hrun.
  - constructor.
  - rewrite length_app, Nat.add_comm in Hrun. cbn [move_backward_loop length Nat.add] in Hrun.
    rewrite fmap_app, fmap_cons, <-!app_assoc in Hrun. cbn [fmap list_fmap app] in Hrun.
    rewrite (app_assoc pre) in Hrun.
    assert (Hlast : last - 1 = Z.of_nat (length (pre ++ (Some <$> xs))))
      by (rewrite Hl, !length_app, length_fmap; simpl; lia).
    apply bind_Returns in Hrun as (b1 & Hb1 & Hrun).
    assert (Hx : move_assign_throws x = false).
    { eapply move_assign_at_Returns; [|exact Hb1]. by apply deref_middle. }
    rewrite move_assign_at_right in Hb1 by (done || lia). injection Hb1 as <-.
    rewrite <-app_assoc in Hrun.
    apply Forall_app. split; [|by constructor].
    eapply (IH (Some x :: post) (moved_from x)); [| |exact Hrun];
      [rewrite Hl, length_app; simpl|]; lia.
Qed.

End Blocks.

(** * The container invariant *)

Section Container.
Context {T Args : Type} {elem : Element T Args} {heap : Heap}.

Local Abbreviation block := (list (option T)).

Lemma wrap_small (z : Z) : 0 ≤ z < 2 ^ 64 → wrap z = z.
Proof. apply Z.mod_small. Qed.

Lemma PTRDIFF_MAX_eq : PTRDIFF_MAX = 9223372036854775807.
Proof. reflexivity. Qed.

Lemma two64_eq : 2 ^ 64 = 18446744073709551616.
Proof. reflexivity. Qed.

Lemma SIZE_MAX_eq : SIZE_MAX = 18446744073709551615.
Proof. reflexivity. Qed.

Lemma slots_bound (c : Z) :
  0 ≤ c → c * sizeof_T ≤ PTRDIFF_MAX → c ≤ PTRDIFF_MAX.
Proof. pose proof sizeof_T_spec. nia. Qed.

Lemma models_inv (v : Vector T) (l : list T) :
  models v l →
  Z.of_nat (length (slots v)) = Capacity v ∧
  0 ≤ size_ v ≤ Capacity v ∧
  Capacity v ≤ PTRDIFF_MAX ∧
  size_ v = Z.of_nat (length l) ∧
  Capacity v * sizeof_T ≤ PTRDIFF_MAX.
Proof.
  intros ([Hlen Hcap Hsz Hbytes] & Hfull & Hs & _). rewrite Hfull in *.
  split; [done|]. split; [lia|]. split; [apply slots_bound; lia|]. done.
Qed.

Lemma models_slots (v : Vector T) (l : list T) :
  models v l →
  ∃ rest, slots v = (Some <$> l) ++ rest ∧
          Z.of_nat (length l) + Z.of_nat (length rest) = Capacity v.
Proof.
  intros (Hb & Hfull & Hs & Ht). exists (drop (length l) (slots v)). split.
  - by rewrite <-Ht, take_drop.
  - rewrite length_drop. destruct Hb as [_ _ Hsz _]. lia.
Qed.

Lemma models_intro (b rest : block) (l : list T) (cap sz : Z) :
  b = (Some <$> l) ++ rest →
  Z.of_nat (length l) + Z.of_nat (length rest) = cap →
  sz = Z.of_nat (length l) →
  cap * sizeof_T ≤ PTRDIFF_MAX →
  models {| data_ := {| buffer_ := b; capacity_ := cap |}; size_ := sz |} l.
Proof.
  intros -> Hcap -> Hmax.
  assert (Hlen : Z.of_nat (length ((Some <$> l) ++ rest)) = cap)
    by (rewrite length_app, length_fmap; lia).
  pose proof (slots_bound cap ltac:(lia) Hmax) as Hc.
  rewrite PTRDIFF_MAX_eq in Hc. pose proof SIZE_MAX_eq.
  split; [split|split; [|split]]; unfold slots, Capacity; simpl.
  - lia.
  - lia.
  - rewrite Hlen. lia.
  - by rewrite Hlen.
  - done.
  - done.
  - apply take_app_length'. by rewrite length_fmap.
Qed.

Lemma replicate_split {A} (n k : nat) (x : A) :
  (k < n)%nat → replicate n x = replicate k x ++ x :: replicate (n - k - 1) x.
Proof.
  intros Hk. replace n with (k + S (n - k - 1))%nat at 1 by lia.
  by rewrite replicate_add.
Qed.

Lemma Deallocate_raw (n : nat) : Deallocate (T:=T) (replicate n None) = [].
Proof. unfold Deallocate. induction n; [done | simpl; done]. Qed.

Lemma Allocate_ok (n : Z) :
  0 < n → n * sizeof_T ≤ SIZE_MAX → can_allocate (n * sizeof_T) = true →
  Allocate n = Some (replicate (Z.to_nat n) (None : option T)).
Proof.
  intros Hn Hfit Hc. pose proof sizeof_T_spec as Hs.
  rewrite SIZE_MAX_eq in Hfit. pose proof two64_eq.
  unfold Allocate, operator_new. destruct (Z.eqb_spec n 0); [lia|].
  rewrite wrap_small by nia. rewrite Hc, Z.div_mul by lia. done.
Qed.

(** Twice the bytes of a block that exists are still a [size_t]. *)
Lemma grown_fits (c : Z) :
  0 ≤ c → c * sizeof_T ≤ PTRDIFF_MAX → grown c * sizeof_T ≤ SIZE_MAX.
Proof.
  intros Hc Hb. pose proof sizeof_T_spec as Hs.
  rewrite PTRDIFF_MAX_eq in Hb. rewrite SIZE_MAX_eq in *. unfold grown.
  destruct (Z.max_spec 1 (2 * c)) as [[_ ->]|[_ ->]]; nia.
Qed.

Lemma new_capacity_grown (size : Z) :
  0 ≤ size ≤ PTRDIFF_MAX →
  (if size =? 0 then 1 else wrap (size * 2)) = grown size.
Proof.
  intros Hs. unfold grown. rewrite PTRDIFF_MAX_eq in Hs.
  destruct (Z.eqb_spec size 0) as [->|Hne]; [done|].
  rewrite wrap_small by (rewrite two64_eq; lia). lia.
Qed.

Lemma EmplaceBack_spec (v : Vector T) (l : list T) (args : Args) (x : T) :
  models v l → construct args = Some x →
  (size_ v = Capacity v → can_allocate (grown (Capacity v) * sizeof_T) = true ∧ relocatable l) →
  ∃ v' leak,
    EmplaceBack v args = Returns (v', leak, Z.of_nat (length l)) ∧
    models v' (l ++ [x]) ∧
    Capacity v' = (if size_ v <? Capacity v then Capacity v else grown (Capacity v)).
Proof.
  intros Hm Hx Hgrow.
  destruct (models_slots v l Hm) as (rest & Hslots & Hcap).
  destruct (models_inv _ _ Hm) as (Hlen & Hsz & Hmax & Hsize & Hbytes).
  pose proof PTRDIFF_MAX_eq as HM. pose proof two64_eq as H64.
  unfold EmplaceBack.
  destruct (Z.ltb_spec (size_ v) (Capacity v)) as [Hlt|Hge].
  - destruct rest as [|o rest]; [simpl in Hcap; lia|].
    rewrite Hslots, Hx. unfold construct_at.
    rewrite valid_middle, store_middle by (by rewrite length_fmap).
    cbn [unwind mbind result_bind].
    unfold RawMemory_index. cbn [capacity_ data_ size_].
    rewrite !wrap_small by (rewrite ?wrap_small; lia).
    replace (size_ v + 1 - 1) with (size_ v) by lia.
    destruct (Z.ltb_spec (size_ v) (Capacity v)); [|lia].
    cbn. rewrite <-Hsize. eexists _, _. split; [done|]. split; [|done].
    eapply (models_intro _ rest).
    + by rewrite fmap_app, <-app_assoc.
    + rewrite length_app. simpl in *. lia.
    + rewrite length_app. simpl. lia.
    + lia.
  - assert (Hfull : size_ v = Capacity v) by lia.
    destruct (Hgrow Hfull) as [Halloc Hrel].
    destruct rest; [|simpl in Hcap; lia].
    rewrite new_capacity_grown by lia. rewrite <-Hfull in Halloc |- *.
    assert (Hg : size_ v < grown (size_ v)) by (unfold grown; lia).
    assert (Hgmax : grown (size_ v) * sizeof_T ≤ PTRDIFF_MAX) by by apply can_allocate_bound.
    assert (Hgfit : grown (size_ v) * sizeof_T ≤ SIZE_MAX) by (apply grown_fits; [lia | by rewrite Hfull]).
    unfold RawMemory_sized. rewrite Allocate_ok by (done || lia).
    cbn [unwind mbind result_bind buffer_].
    rewrite (replicate_split _ (length l)) by lia.
    rewrite Hx. unfold construct_at.
    rewrite valid_middle, store_middle by (rewrite length_replicate; lia).
    cbn [unwind mbind result_bind].
    rewrite Hslots.
    rewrite UninitializedMoveOrCopy_front by (by rewrite ?length_replicate).
    cbn [unwind mbind result_bind].
    rewrite destroy_n_front by (by rewrite length_relocated).
    cbn [mbind result_bind].
    unfold RawMemory_index. cbn [capacity_ data_ size_].
    rewrite !wrap_small by (rewrite ?wrap_small; lia).
    replace (size_ v + 1 - 1) with (size_ v) by lia.
    destruct (Z.ltb_spec (size_ v) (grown (size_ v))); [|lia].
    cbn. rewrite <-Hsize. eexists _, _. split; [done|]. split; [|done].
    eapply (models_intro _ (replicate (Z.to_nat (grown (size_ v)) - length l - 1) None)).
    + by rewrite fmap_app, <-app_assoc.
    + rewrite length_app, length_replicate. simpl. lia.
    + rewrite length_app. simpl. lia.
    + done.
Qed.

Lemma RawMemory_sized_Returns (n : Z) (m : RawMemory T) :
  0 < n → n * sizeof_T ≤ SIZE_MAX → RawMemory_sized n = Returns m →
  can_allocate (n * sizeof_T) = true ∧
  m = {| buffer_ := replicate (Z.to_nat n) None; capacity_ := n |}.
Proof.
  intros Hn Hfit. pose proof sizeof_T_spec as Hs.
  rewrite SIZE_MAX_eq in Hfit. pose proof two64_eq.
  unfold RawMemory_sized, Allocate, operator_new.
  destruct (Z.eqb_spec n 0); [lia|].
  rewrite wrap_small by nia. rewrite Z.div_mul by lia.
  destruct (can_allocate (n * sizeof_T)); [|done]. by intros [= <-].
Qed.

Lemma move_construct_at_Returns (b b' : block) (s d : Z) (x : T) :
  deref b s = Some x → move_construct_at b s d = Returns b' → move_throws x = false.
Proof.
  intros Hs. unfold move_construct_at. rewrite Hs.
  destruct (valid b d); [|done]. by destruct (move_throws x).
Qed.

Lemma move_assign_from_Returns (b b' : block) (d : Z) (tmp : T) :
  move_assign_from b d tmp = Returns b' → move_assign_throws tmp = false.
Proof.
  unfold move_assign_from. destruct (deref b d); [|done].
  by destruct (move_assign_throws tmp).
Qed.

(** [EmplaceBack] returns only if nothing raised. *)
Lemma EmplaceBack_quiet (v : Vector T) (l : list T) (args : Args) (r : state T * Z) :
  models v l → EmplaceBack v args = Returns r → append_quiet v l args.
Proof.
  intros Hm Hrun.
  destruct (models_slots v l Hm) as (rest & Hslots & Hcap).
  destruct (models_inv _ _ Hm) as (Hlen & Hsz & Hmax & Hsize & Hbytes).
  pose proof PTRDIFF_MAX_eq as HM. pose proof two64_eq as H64.
  unfold EmplaceBack in Hrun.
  destruct (Z.ltb_spec (size_ v) (Capacity v)) as [Hlt|Hge].
  - apply bind_Returns in Hrun as (b & Hb & _).
    apply unwind_Returns in Hb; [|done].
    apply construct_at_Returns in Hb as (x & Hx & _).
    split; [by exists x | intros; lia].
  - assert (Hfull : size_ v = Capacity v) by lia.
    assert (Hgfit : grown (size_ v) * sizeof_T ≤ SIZE_MAX)
      by (apply grown_fits; [lia | by rewrite Hfull]).
    assert (Hg : size_ v < grown (size_ v)) by (unfold grown; lia).
    rewrite new_capacity_grown in Hrun by lia.
    apply bind_Returns in Hrun as (m & Hm1 & Hrun).
    apply unwind_Returns in Hm1; [|done].
    apply RawMemory_sized_Returns in Hm1 as [Halloc ->]; [|lia|done].
    apply bind_Returns in Hrun as (nb & Hnb & Hrun).
    apply unwind_Returns in Hnb; [|done].
    apply construct_at_Returns in Hnb as (x & Hx & _).
    apply bind_Returns in Hrun as ([ob nb'] & Humc & _).
    apply unwind_Returns in Humc; [|by intros []].
    rewrite Hslots in Humc.
    apply UninitializedMoveOrCopy_front_quiet in Humc; [|done].
    split; [by exists x|]. intros _. by rewrite <-Hfull.
Qed.

Lemma models_deref (v : Vector T) (l : list T) (i : nat) (x : T) :
  models v l → l !! i = Some x → deref (slots v) (Z.of_nat i) = Some x.
Proof.
  intros Hm Hi. destruct (models_slots v l Hm) as (rest & -> & _).
  apply list_elem_of_split_length in Hi as (l1 & l2 & -> & ->).
  rewrite fmap_app, fmap_cons, <-app_assoc. simpl.
  apply deref_middle. by rewrite length_fmap.
Qed.

Lemma models_size (v : Vector T) (l : list T) : models v l → size_ v = Z.of_nat (length l).
Proof. by intros (_ & _ & ? & _). Qed.

Lemma models_bounded (v : Vector T) (l : list T) : models v l → bounded v.
Proof. by intros (? & _). Qed.

Lemma Erase_spec (v : Vector T) (l1 l2 : list T) (y : T) (p : Z) :
  models v (l1 ++ y :: l2) → p = Z.of_nat (length l1) →
  Forall (λ x, move_assign_throws x = false) l2 →
  ∃ v', Erase v p = Returns (v', [], p) ∧
        models v' (l1 ++ l2) ∧
        Capacity v' = Capacity v ∧
        slots v' !! (length l1 + length l2)%nat = Some None.
Proof.
  intros Hm Hp Hq.
  destruct (models_slots _ _ Hm) as (rest & Hslots & Hcap).
  destruct (models_inv _ _ Hm) as (Hlen & Hsz & Hmax & Hsize & Hbytes).
  pose proof PTRDIFF_MAX_eq as HM. pose proof two64_eq as H64.
  rewrite length_app in Hsize, Hcap. simpl in Hsize, Hcap.
  unfold Erase.
  destruct (Z.leb_spec 0 p); [|lia]. destruct (Z.ltb_spec p (size_ v)); [|lia].
  cbn [assert andb mbind result_bind].
  rewrite Hslots, fmap_app, fmap_cons, <-app_assoc. cbn [app].
  unfold move. replace (Z.to_nat (size_ v - (p + 1))) with (length l2) by lia.
  destruct (move_loop_live (Some <$> l1) rest y l2 (p + 1) p) as [y' Hy'];
    [by rewrite length_fmap | done | done |].
  rewrite Hy'. cbn [unwind mbind result_bind].
  rewrite app_assoc. unfold destroy_at.
  rewrite deref_middle, store_middle by (rewrite length_app, !length_fmap; lia).
  rewrite wrap_small by lia.
  eexists. split; [done|]. split; [|split; [done|]].
  - eapply (models_intro _ (None :: rest)).
    + by rewrite fmap_app.
    + rewrite length_app. simpl. lia.
    + rewrite length_app. lia.
    + lia.
  - unfold slots. simpl.
    rewrite list_lookup_middle; [done|]. by rewrite length_app, !length_fmap.
Qed.

Lemma Emplace_at_end (v : Vector T) (l : list T) (args : Args) (x : T) (p : Z) :
  models v l → p = size_ v → construct args = Some x →
  (size_ v = Capacity v → can_allocate (grown (Capacity v) * sizeof_T) = true ∧ relocatable l) →
  ∃ v' leak, Emplace v p args = Returns (v', leak, p) ∧ models v' (l ++ [x]) ∧
             Capacity v' = (if size_ v <? Capacity v then Capacity v else grown (Capacity v)).
Proof.
  intros Hm -> Hx Hgrow.
  destruct (EmplaceBack_spec v l args x Hm Hx Hgrow) as (v' & leak & Hrun & Hm' & Hcap').
  destruct (models_inv _ _ Hm) as (Hlen & Hsz & Hmax & Hsize & Hbytes).
  pose proof PTRDIFF_MAX_eq as HM. pose proof two64_eq as H64.
  unfold Emplace.
  destruct (Z.leb_spec 0 (size_ v)); [|lia].
  rewrite Z.leb_refl, Z.eqb_refl. cbn [assert andb mbind result_bind].
  rewrite Hrun. cbn [mbind result_bind].
  rewrite Z.sub_0_r, wrap_small by lia. by exists v', leak.
Qed.

Lemma Emplace_in_place (v : Vector T) (l1 l2 : list T) (z : T) (args : Args) (x : T) (p : Z) :
  models v (l1 ++ l2 ++ [z]) → p = Z.of_nat (length l1) →
  size_ v < Capacity v →
  construct args = Some x →
  move_throws z = false →
  Forall (λ y, move_assign_throws y = false) (x :: l2) →
  ∃ v', Emplace v p args = Returns (v', [], p) ∧
        models v' (l1 ++ x :: l2 ++ [z]) ∧
        Capacity v' = Capacity v.
Proof.
  intros Hm Hp Hroom Hx Hz Hq.
  apply Forall_cons in Hq as [Hqx Hq].
  destruct (models_slots _ _ Hm) as (rest & Hslots & Hcap).
  destruct (models_inv _ _ Hm) as (Hlen & Hsz & Hmax & Hsize & Hbytes).
  pose proof PTRDIFF_MAX_eq as HM. pose proof two64_eq as H64.
  rewrite !length_app in Hsize, Hcap. simpl in Hsize, Hcap.
  destruct rest as [|o rest]; [simpl in Hcap; lia|]. simpl in Hcap.
  unfold Emplace.
  destruct (Z.leb_spec 0 p); [|lia]. destruct (Z.leb_spec p (size_ v)); [|lia].
  destruct (Z.eqb_spec p (size_ v)); [lia|].
  destruct (Z.ltb_spec (size_ v) (Capacity v)); [|lia].
  cbn [assert andb mbind result_bind]. rewrite Hx.
  rewrite Hslots, !fmap_app, <-!app_assoc. cbn [fmap list_fmap app].
  (* the last element moves into the free slot *)
  rewrite (app_assoc (Some <$> l1)).
  unfold move_construct_at.
  rewrite (deref_middle _ _ _ (size_ v - 1)) by (rewrite length_app, !length_fmap; lia).
  replace (valid _ (size_ v)) with true
    by (symmetry; apply valid_lt; rewrite !length_app, !length_fmap; simpl; lia).
  rewrite Hz.
  rewrite (store_middle _ _ _ _ (size_ v - 1)) by (rewrite length_app, !length_fmap; lia).
  rewrite (store_second _ _ _ _ _ (size_ v)) by (rewrite length_app, !length_fmap; lia).
  cbn [unwind mbind result_bind].
  (* the elements from [p] on move one slot to the right *)
  rewrite <-app_assoc. unfold move_backward.
  replace (Z.to_nat (size_ v - 1 - p)) with (length l2) by lia.
  destruct (move_backward_loop_live (Some <$> l1) (Some z :: rest) (moved_from z) l2
              (size_ v - 1) (size_ v)) as [y' Hy'];
    [rewrite length_fmap; lia | lia | done |].
  rewrite Hy'. cbn [unwind mbind result_bind].
  unfold RawMemory_index. rewrite Z.sub_0_r, !wrap_small by lia.
  change (capacity_ (data_ v)) with (Capacity v).
  destruct (Z.ltb_spec p (Capacity v)); [|lia].
  cbn [assert mbind result_bind].
  unfold move_assign_from.
  rewrite deref_middle, Hqx, store_middle by (by rewrite length_fmap).
  cbn [unwind mbind result_bind].
  eexists. split; [done|]. split; [|done].
  eapply (models_intro _ rest).
  - rewrite fmap_app, fmap_cons, fmap_app. by flatten_app.
  - rewrite !length_app. simpl. rewrite length_app. simpl. lia.
  - rewrite !length_app. simpl. rewrite length_app. simpl. lia.
  - lia.
Qed.

Lemma Emplace_growth (v : Vector T) (l1 l2 : list T) (args : Args) (x : T) (p : Z) :
  models v (l1 ++ l2) → p = Z.of_nat (length l1) → l2 ≠ [] →
  size_ v = Capacity v →
  construct args = Some x →
  can_allocate (grown (Capacity v) * sizeof_T) = true →
  relocatable (l1 ++ l2) →
  ∃ v' leak, Emplace v p args = Returns (v', leak, p) ∧
             models v' (l1 ++ x :: l2) ∧
             Capacity v' = grown (Capacity v).
Proof.
  intros Hm Hp Hne Hfull Hx Halloc [Hrel1 Hrel2]%relocatable_app.
  destruct (models_slots _ _ Hm) as (rest & Hslots & Hcap).
  destruct (models_inv _ _ Hm) as (Hlen & Hsz & Hmax & Hsize & Hbytes).
  pose proof PTRDIFF_MAX_eq as HM. pose proof two64_eq as H64.
  rewrite !length_app in Hsize, Hcap.
  assert (0 < length l2)%nat by (destruct l2; [done | simpl; lia]).
  destruct rest; [|simpl in Hcap; lia].
  rewrite <-Hfull in Halloc |- *.
  assert (Hg : size_ v < grown (size_ v)) by (unfold grown; lia).
  assert (Hgmax : grown (size_ v) * sizeof_T ≤ PTRDIFF_MAX) by by apply can_allocate_bound.
  assert (Hgfit : grown (size_ v) * sizeof_T ≤ SIZE_MAX)
    by (apply grown_fits; [lia | by rewrite Hfull]).
  unfold Emplace.
  destruct (Z.leb_spec 0 p); [|lia]. destruct (Z.leb_spec p (size_ v)); [|lia].
  destruct (Z.eqb_spec p (size_ v)); [lia|].
  destruct (Z.ltb_spec (size_ v) (Capacity v)); [lia|].
  cbn [assert andb mbind result_bind].
  rewrite new_capacity_grown by lia.
  unfold RawMemory_sized. rewrite Allocate_ok by (done || lia).
  cbn [unwind mbind result_bind buffer_].
  rewrite Z.sub_0_r, !(wrap_small p) by lia.
  rewrite (replicate_split _ (length l1)) by lia.
  rewrite Hx. unfold construct_at.
  rewrite valid_middle, store_middle by (rewrite length_replicate; lia).
  cbn [unwind mbind result_bind].
  (* the prefix *)
  rewrite Hslots, fmap_app, <-app_assoc.
  rewrite UninitializedMoveOrCopy_front by (by rewrite ?length_replicate).
  cbn [unwind mbind result_bind].
  (* the suffix *)
  rewrite (wrap_small (size_ v - p - 1)) by lia.
  rewrite (wrap_small (size_ v - p - 1 + 1)), (wrap_small (p + 1)) by lia.
  set (N := (Z.to_nat (grown (size_ v)) - length l1 - 1)%nat).
  replace ((Some <$> l1) ++ Some x :: replicate N None)
    with (((Some <$> l1) ++ [Some x]) ++
          replicate (length l2) None ++ replicate (N - length l2) None);
    [ | rewrite <-replicate_add; flatten_app; do 3 f_equal; lia ].
  rewrite (UninitializedMoveOrCopy_live (Some <$> relocated l1) [] ((Some <$> l1) ++ [Some x]));
    [ | rewrite length_fmap, length_relocated; lia
      | rewrite length_app, length_fmap; simpl; lia
      | lia
      | by rewrite length_replicate
      | done ].
  cbn [unwind mbind result_bind].
  rewrite (app_assoc (Some <$> relocated l1)), <-fmap_app.
  rewrite destroy_n_front
    by (rewrite length_app, !length_relocated; lia).
  cbn [mbind result_bind].
  rewrite wrap_small by lia.
  eexists _, _. split; [done|]. split; [|done].
  eapply models_intro.
  - rewrite fmap_app, fmap_cons. by flatten_app.
  - rewrite !length_app, !length_replicate. simpl. lia.
  - rewrite !length_app. simpl. lia.
  - done.
Qed.

Lemma Reserve_noop (v : Vector T) (n : Z) :
  n ≤ Capacity v → Reserve v n = Returns (v, [], ()).
Proof. intros Hn. unfold Reserve. by destruct (Z.leb_spec n (Capacity v)); [|lia]. Qed.

Lemma Reserve_grows (v : Vector T) (l : list T) (n : Z) :
  models v l → Capacity v < n →
  n * sizeof_T ≤ SIZE_MAX → can_allocate (n * sizeof_T) = true → relocatable l →
  ∃ v' leak, Reserve v n = Returns (v', leak, ()) ∧ models v' l ∧ Capacity v' = n.
Proof.
  intros Hm Hn Hfit Halloc Hrel.
  destruct (models_slots _ _ Hm) as (rest & Hslots & Hcap).
  destruct (models_inv _ _ Hm) as (Hlen & Hsz & Hmax & Hsize & Hbytes).
  assert (Hnmax : n * sizeof_T ≤ PTRDIFF_MAX) by by apply can_allocate_bound.
  unfold Reserve. destruct (Z.leb_spec n (Capacity v)); [lia|].
  unfold RawMemory_sized. rewrite Allocate_ok by (done || lia).
  cbn [unwind mbind result_bind buffer_].
  replace (Z.to_nat n) with (length l + (Z.to_nat n - length l))%nat by lia.
  rewrite replicate_add, Hslots.
  rewrite UninitializedMoveOrCopy_front by (by rewrite ?length_replicate).
  cbn [unwind mbind result_bind].
  rewrite destroy_n_front by (by rewrite length_relocated).
  cbn [mbind result_bind].
  eexists _, _. split; [done|]. split; [|done].
  eapply models_intro; [done | | done | done].
  rewrite length_replicate. lia.
Qed.

Lemma copy_assign_replaces (v rhs : Vector T) (l r : list T) :
  models v l → models rhs r → Capacity v < size_ rhs →
  can_allocate (size_ rhs * sizeof_T) = true →
  Forall (λ x, copy_throws x = false) r →
  ∃ v' leak, copy_assign v (Another rhs) = Returns (v', leak, ()) ∧
             models v' r ∧ Capacity v' = size_ rhs.
Proof.
  intros Hm Hmr Hbig Halloc Hq.
  destruct (models_slots _ _ Hm) as (rest & Hslots & Hcap).
  destruct (models_slots _ _ Hmr) as (rrest & Hrslots & Hrcap).
  destruct (models_inv _ _ Hm) as (Hlen & Hsz & Hmax & Hsize & Hbytes).
  destruct (models_inv _ _ Hmr) as (Hrlen & Hrsz & Hrmax & Hrsize & Hrbytes).
  assert (Hnmax : size_ rhs * sizeof_T ≤ PTRDIFF_MAX) by by apply can_allocate_bound.
  assert (Hfit : size_ rhs * sizeof_T ≤ SIZE_MAX)
    by (rewrite PTRDIFF_MAX_eq in Hnmax; rewrite SIZE_MAX_eq; lia).
  unfold copy_assign. destruct (Z.ltb_spec (Capacity v) (size_ rhs)); [|lia].
  unfold Vector_copy, RawMemory_sized. rewrite Allocate_ok by (done || lia).
  cbn [unwind mbind result_bind buffer_].
  rewrite Hrslots.
  replace (Z.to_nat (size_ rhs)) with (length r) by lia.
  rewrite <-(app_nil_r (replicate (length r) None)).
  rewrite uninitialized_copy_n_front by (done || by rewrite length_replicate).
  cbn [unwind mbind result_bind Swap RawMemory_Swap app].
  unfold Vector_destroy.
  change (slots {| data_ := _; size_ := size_ v |}) with (slots v).
  cbn [size_]. rewrite Hslots.
  rewrite destroy_n_front by done.
  cbn [mbind result_bind data_ buffer_ capacity_].
  eexists _, _. split; [done|]. split; [|done].
  eapply (models_intro _ []); [done | simpl; lia | done | lia].
Qed.

Lemma copy_assign_shrinks (v rhs : Vector T) (l1 l2 r : list T) :
  models v (l1 ++ l2) → models rhs r → length l1 = length r → l2 ≠ [] →
  Forall (λ x, copy_assign_throws x = false) r →
  ∃ v', copy_assign v (Another rhs) = Returns (v', [], ()) ∧
        models v' r ∧ Capacity v' = Capacity v ∧
        slots v' = (Some <$> r) ++ replicate (length l2) None ++ drop (length l1 + length l2) (slots v).
Proof.
  intros Hm Hmr Hl1 Hne Hq.
  destruct (models_slots _ _ Hm) as (rest & Hslots & Hcap).
  destruct (models_slots _ _ Hmr) as (rrest & Hrslots & Hrcap).
  destruct (models_inv _ _ Hm) as (Hlen & Hsz & Hmax & Hsize & Hbytes).
  destruct (models_inv _ _ Hmr) as (Hrlen & Hrsz & Hrmax & Hrsize & Hrbytes).
  pose proof PTRDIFF_MAX_eq as HM. pose proof two64_eq as H64.
  rewrite length_app in Hsize, Hcap.
  assert (0 < length l2)%nat by (destruct l2; [done | simpl; lia]).
  unfold copy_assign.
  destruct (Z.ltb_spec (Capacity v) (size_ rhs)); [lia|].
  destruct (Z.ltb_spec (size_ rhs) (size_ v)); [|lia].
  rewrite Hrslots, Hslots, fmap_app, <-app_assoc, !Z.add_0_l.
  rewrite copy_live by (done || lia).
  cbn [unwind mbind result_bind].
  rewrite wrap_small by lia.
  rewrite destroy_n_live by (rewrite ?length_fmap; lia).
  cbn [mbind result_bind].
  eexists. split; [done|]. split; [|split; [done|]].
  - eapply models_intro; [done | | done | lia].
    rewrite length_app, length_replicate. lia.
  - unfold slots at 1. cbn [buffer_ data_]. do 2 f_equal.
    rewrite app_assoc, <-fmap_app, drop_app_length'; [done|].
    by rewrite length_fmap, length_app.
Qed.

Lemma copy_assign_extends (v rhs : Vector T) (l r1 r2 : list T) :
  models v l → models rhs (r1 ++ r2) → length r1 = length l →
  Z.of_nat (length (r1 ++ r2)) ≤ Capacity v →
  Forall (λ x, copy_assign_throws x = false) r1 →
  Forall (λ x, copy_throws x = false) r2 →
  ∃ v', copy_assign v (Another rhs) = Returns (v', [], ()) ∧
        models v' (r1 ++ r2) ∧ Capacity v' = Capacity v.
Proof.
  intros Hm Hmr Hr1 Hfit Hq1 Hq2.
  destruct (models_slots _ _ Hm) as (rest & Hslots & Hcap).
  destruct (models_slots _ _ Hmr) as (rrest & Hrslots & Hrcap).
  destruct (models_inv _ _ Hm) as (Hlen & Hsz & Hmax & Hsize & Hbytes).
  destruct (models_inv _ _ Hmr) as (Hrlen & Hrsz & Hrmax & Hrsize & Hrbytes).
  pose proof PTRDIFF_MAX_eq as HM. pose proof two64_eq as H64.
  rewrite length_app in Hrsize, Hrcap, Hfit.
  unfold copy_assign.
  destruct (Z.ltb_spec (Capacity v) (size_ rhs)); [lia|].
  destruct (Z.ltb_spec (size_ rhs) (size_ v)); [lia|].
  rewrite Hrslots, Hslots, fmap_app, <-app_assoc, !Z.add_0_l.
  rewrite copy_live by (done || lia).
  cbn [unwind mbind result_bind].
  rewrite wrap_small by lia.
  rewrite <-(take_drop (length r2) rest).
  rewrite uninitialized_copy_n_live;
    [ | rewrite length_fmap; lia | rewrite length_fmap; lia | lia
      | rewrite length_take; lia | done ].
  cbn [unwind mbind result_bind].
  eexists. split; [done|]. split; [|done].
  eapply models_intro; [by rewrite fmap_app, <-app_assoc | | by rewrite length_app | lia].
  rewrite length_app, length_drop. lia.
Qed.

(** *** What a call that returned tells

    Each method returns only if none of its steps raised. *)

Lemma Erase_returns (v : Vector T) (l1 l2 : list T) (y : T) (p : Z) (r : state T * Z) :
  models v (l1 ++ y :: l2) → p = Z.of_nat (length l1) →
  Erase v p = Returns r →
  Forall (λ x, move_assign_throws x = false) l2.
Proof.
  intros Hm Hp Hrun.
  destruct (models_slots _ _ Hm) as (rest & Hslots & Hcap).
  destruct (models_inv _ _ Hm) as (Hlen & Hsz & Hmax & Hsize & Hbytes).
  rewrite length_app in Hsize, Hcap. simpl in Hsize, Hcap.
  unfold Erase in Hrun.
  destruct (Z.leb_spec 0 p); [|lia]. destruct (Z.ltb_spec p (size_ v)); [|lia].
  cbn [assert andb mbind result_bind] in Hrun.
  apply bind_Returns in Hrun as (b & Hb & _).
  apply unwind_Returns in Hb; [|done].
  rewrite Hslots, fmap_app, fmap_cons, <-app_assoc in Hb. cbn [app] in Hb.
  unfold move in Hb. replace (Z.to_nat (size_ v - (p + 1))) with (length l2) in Hb by lia.
  eapply move_loop_quiet; [| |exact Hb]; [by rewrite length_fmap | done].
Qed.

Lemma Emplace_in_place_returns
    (v : Vector T) (l1 l2 : list T) (z : T) (args : Args) (p : Z) (r : state T * Z) :
  models v (l1 ++ l2 ++ [z]) → p = Z.of_nat (length l1) →
  size_ v < Capacity v →
  Emplace v p args = Returns r →
  ∃ x, construct args = Some x ∧ move_throws z = false ∧
       Forall (λ y, move_assign_throws y = false) l2 ∧ move_assign_throws x = false.
Proof.
  intros Hm Hp Hroom Hrun.
  destruct (models_slots _ _ Hm) as (rest & Hslots & Hcap).
  destruct (models_inv _ _ Hm) as (Hlen & Hsz & Hmax & Hsize & Hbytes).
  pose proof PTRDIFF_MAX_eq as HM. pose proof two64_eq as H64.
  rewrite !length_app in Hsize, Hcap. simpl in Hsize, Hcap.
  destruct rest as [|o rest]; [simpl in Hcap; lia|]. simpl in Hcap.
  unfold Emplace in Hrun.
  destruct (Z.leb_spec 0 p); [|lia]. destruct (Z.leb_spec p (size_ v)); [|lia].
  destruct (Z.eqb_spec p (size_ v)); [lia|].
  destruct (Z.ltb_spec (size_ v) (Capacity v)); [|lia].
  cbn [assert andb mbind result_bind] in Hrun.
  destruct (construct args) as [x|]; [|done].
  exists x. split; [done|].
  rewrite Hslots, !fmap_app, <-!app_assoc in Hrun. cbn [fmap list_fmap app] in Hrun.
  rewrite (app_assoc (Some <$> l1)) in Hrun.
  apply bind_Returns in Hrun as (b1 & Hb1 & Hrun).
  apply unwind_Returns in Hb1; [|done].
  assert (Hz : move_throws z = false).
  { eapply move_construct_at_Returns; [|exact Hb1].
    apply deref_middle. rewrite length_app, !length_fmap. lia. }
  split; [done|].
  unfold move_construct_at in Hb1.
  rewrite (deref_middle _ _ _ (size_ v - 1)) in Hb1 by (rewrite length_app, !length_fmap; lia).
  replace (valid _ (size_ v)) with true in Hb1
    by (symmetry; apply valid_lt; rewrite !length_app, !length_fmap; simpl; lia).
  rewrite Hz in Hb1.
  rewrite (store_middle _ _ _ _ (size_ v - 1)) in Hb1 by (rewrite length_app, !length_fmap; lia).
  rewrite (store_second _ _ _ _ _ (size_ v)) in Hb1 by (rewrite length_app, !length_fmap; lia).
  injection Hb1 as <-.
  rewrite <-app_assoc in Hrun.
  apply bind_Returns in Hrun as (b2 & Hb2 & Hrun).
  apply unwind_Returns in Hb2; [|done].
  unfold move_backward in Hb2.
  replace (Z.to_nat (size_ v - 1 - p)) with (length l2) in Hb2 by lia.
  split.
  { eapply move_backward_loop_quiet; [| |exact Hb2]; [rewrite length_fmap; lia | lia]. }
  apply bind_Returns in Hrun as (i & _ & Hrun).
  apply bind_Returns in Hrun as (b3 & Hb3 & _).
  apply unwind_Returns in Hb3; [|done].
  by apply move_assign_from_Returns in Hb3.
Qed.

Lemma Emplace_growth_returns
    (v : Vector T) (l1 l2 : list T) (args : Args) (p : Z) (r : state T * Z) :
  models v (l1 ++ l2) → p = Z.of_nat (length l1) → l2 ≠ [] →
  size_ v = Capacity v →
  Emplace v p args = Returns r →
  is_Some (construct args) ∧
  can_allocate (grown (Capacity v) * sizeof_T) = true ∧ relocatable (l1 ++ l2).
Proof.
  intros Hm Hp Hne Hfull Hrun.
  destruct (models_slots _ _ Hm) as (rest & Hslots & Hcap).
  destruct (models_inv _ _ Hm) as (Hlen & Hsz & Hmax & Hsize & Hbytes).
  pose proof PTRDIFF_MAX_eq as HM. pose proof two64_eq as H64.
  rewrite !length_app in Hsize, Hcap.
  assert (0 < length l2)%nat by (destruct l2; [done | simpl; lia]).
  destruct rest; [|simpl in Hcap; lia].
  rewrite <-Hfull.
  assert (Hg : size_ v < grown (size_ v)) by (unfold grown; lia).
  assert (Hgfit : grown (size_ v) * sizeof_T ≤ SIZE_MAX)
    by (apply grown_fits; [lia | by rewrite Hfull]).
  unfold Emplace in Hrun.
  destruct (Z.leb_spec 0 p); [|lia]. destruct (Z.leb_spec p (size_ v)); [|lia].
  destruct (Z.eqb_spec p (size_ v)); [lia|].
  destruct (Z.ltb_spec (size_ v) (Capacity v)); [lia|].
  cbn [assert andb mbind result_bind] in Hrun.
  rewrite new_capacity_grown in Hrun by lia.
  apply bind_Returns in Hrun as (m & Hm1 & Hrun).
  apply unwind_Returns in Hm1; [|done].
  apply RawMemory_sized_Returns in Hm1 as [Halloc ->]; [|lia|done].
  cbn [buffer_] in Hrun.
  rewrite Z.sub_0_r, !(wrap_small p) in Hrun by lia.
  rewrite (wrap_small (size_ v - p - 1)) in Hrun by lia.
  rewrite (wrap_small (size_ v - p - 1 + 1)), (wrap_small (p + 1)) in Hrun by lia.
  apply bind_Returns in Hrun as (nb & Hnb & Hrun).
  apply unwind_Returns in Hnb; [|done].
  apply construct_at_Returns in Hnb as (x & Hx & ->).
  split; [by exists x|]. split; [done|].
  rewrite (replicate_split _ (length l1)) in Hrun by lia.
  rewrite store_middle in Hrun by (rewrite length_replicate; lia).
  rewrite Hslots, fmap_app, <-app_assoc in Hrun.
  apply bind_Returns in Hrun as ([ob1 nb1] & Hpre & Hrun).
  apply unwind_Returns in Hpre; [|intros []; apply bind_Raises_ne].
  assert (Hrel1 : relocatable l1) by (by eapply UninitializedMoveOrCopy_front_quiet).
  rewrite UninitializedMoveOrCopy_front in Hpre by (by rewrite ?length_replicate).
  injection Hpre as <- <-.
  apply bind_Returns in Hrun as ([ob2 nb2] & Hsuf & _).
  apply unwind_Returns in Hsuf; [|intros []; apply bind_Raises_ne].
  apply relocatable_app. split; [done|].
  eapply (UninitializedMoveOrCopy_quiet (Some <$> relocated l1) []); [| |exact Hsuf].
  - rewrite length_fmap, length_relocated. lia.
  - lia.
Qed.

Lemma Reserve_returns (v : Vector T) (l : list T) (n : Z) (r : state T * unit) :
  models v l → Capacity v < n → n * sizeof_T ≤ SIZE_MAX →
  Reserve v n = Returns r →
  can_allocate (n * sizeof_T) = true ∧ relocatable l.
Proof.
  intros Hm Hn Hfit Hrun.
  destruct (models_slots _ _ Hm) as (rest & Hslots & Hcap).
  destruct (models_inv _ _ Hm) as (Hlen & Hsz & Hmax & Hsize & Hbytes).
  unfold Reserve in Hrun. destruct (Z.leb_spec n (Capacity v)); [lia|].
  apply bind_Returns in Hrun as (m & Hm1 & Hrun).
  apply unwind_Returns in Hm1; [|done].
  apply RawMemory_sized_Returns in Hm1 as [Halloc ->]; [|lia|done].
  split; [done|].
  apply bind_Returns in Hrun as ([ob nb] & Humc & _).
  apply unwind_Returns in Humc; [|by intros []].
  rewrite Hslots in Humc.
  by apply UninitializedMoveOrCopy_front_quiet in Humc.
Qed.

Lemma copy_assign_returns (v rhs : Vector T) (l r : list T) (res : state T * unit) :
  models v l → models rhs r →
  copy_assign v (Another rhs) = Returns res →
  copy_assign_quiet v rhs l r.
Proof.
  intros Hm Hmr Hrun.
  destruct (models_slots _ _ Hm) as (rest & Hslots & Hcap).
  destruct (models_slots _ _ Hmr) as (rrest & Hrslots & Hrcap).
  destruct (models_inv _ _ Hm) as (Hlen & Hsz & Hmax & Hsize & Hbytes).
  destruct (models_inv _ _ Hmr) as (Hrlen & Hrsz & Hrmax & Hrsize & Hrbytes).
  pose proof PTRDIFF_MAX_eq as HM. pose proof two64_eq as H64.
  pose proof SIZE_MAX_eq as HS. pose proof sizeof_T_spec as Hsizeof.
  unfold copy_assign in Hrun.
  destruct (Z.ltb_spec (Capacity v) (size_ rhs)) as [Hbig|Hfit].
  - split; [intros _|intros; lia].
    apply bind_Returns in Hrun as (c & Hc & _).
    apply unwind_Returns in Hc; [|done].
    unfold Vector_copy in Hc.
    apply bind_Returns in Hc as (m & Hm1 & Hc).
    apply unwind_Returns in Hm1; [|done].
    apply RawMemory_sized_Returns in Hm1 as [Halloc ->]; [|lia|nia].
    split; [done|].
    apply bind_Returns in Hc as (b & Hb & _).
    apply unwind_Returns in Hb; [|done].
    rewrite Hrslots in Hb.
    by eapply (uninitialized_copy_n_quiet [] rrest).
  - split; [intros; lia|intros _].
    destruct (Z.ltb_spec (size_ rhs) (size_ v)) as [Hsmall|Hlarge].
    + rewrite take_ge, drop_ge by lia. split; [|constructor].
      apply bind_Returns in Hrun as (b & Hb & _).
      apply unwind_Returns in Hb; [|done].
      rewrite Hrslots in Hb. by eapply copy_quiet; [|exact Hb]; lia.
    + apply bind_Returns in Hrun as (b & Hb & Hrun).
      apply unwind_Returns in Hb; [|done].
      apply bind_Returns in Hrun as (b' & Hb' & _).
      apply unwind_Returns in Hb'; [|done].
      rewrite <-(take_drop (length l) r), fmap_app, <-app_assoc in Hrslots.
      rewrite Hrslots in Hb, Hb'.
      assert (Htake : length (take (length l) r) = length l) by (rewrite length_take; lia).
      split.
      * eapply copy_quiet; [|exact Hb]. lia.
      * eapply uninitialized_copy_n_quiet; [| |exact Hb'].
        -- rewrite length_fmap. lia.
        -- rewrite wrap_small; rewrite ?length_drop; lia.
Qed.

(** [Emplace] returns only if nothing raised. *)
Lemma Emplace_quiet (v : Vector T) (l : list T) (p : Z) (args : Args) (r : state T * Z) :
  models v l → 0 ≤ p ≤ size_ v → Emplace v p args = Returns r → insert_quiet v l p args.
Proof.
  intros Hm Hp Hrun.
  pose proof (models_size _ _ Hm) as Hs.
  destruct (models_inv _ _ Hm) as (_ & Hsz & _).
  destruct (decide (p = size_ v)) as [->|Hne].
  - split; [|intros; lia].
    unfold Emplace in Hrun.
    destruct (Z.leb_spec 0 (size_ v)); [|lia].
    rewrite Z.leb_refl, Z.eqb_refl in Hrun.
    cbn [assert andb mbind result_bind] in Hrun.
    apply bind_Returns in Hrun as (a & Ha & _). by eapply EmplaceBack_quiet.
  - remember (take (Z.to_nat p) l) as l1. remember (drop (Z.to_nat p) l) as l2.
    assert (Hl : l = l1 ++ l2) by (subst; by rewrite take_drop).
    assert (Hlen1 : length l1 = Z.to_nat p) by (subst l1; rewrite length_take; lia).
    assert (Hl2 : l2 ≠ []).
    { intros E. rewrite Hl, E, length_app in Hs. simpl in Hs. lia. }
    destruct (decide (size_ v < Capacity v)) as [Hroom|Hfull].
    + destruct (exists_last Hl2) as (l2' & z & Hl2').
      destruct (Emplace_in_place_returns v l1 l2' z args p r)
        as (x & Hx & Hz & Hq & Hqx); [by rewrite <-Hl2', <-Hl | lia | done | done |].
      split; [split; [by exists x | intros; lia]|]. intros _.
      split; [|split].
      * intros z' Hz'. rewrite Hl, Hl2', app_assoc, last_snoc in Hz'. congruence.
      * by rewrite <-Heql2, Hl2', removelast_last.
      * intros x' Hx'. congruence.
    + assert (Hfull' : size_ v = Capacity v) by lia.
      destruct (Emplace_growth_returns v l1 l2 args p r) as (Hx & Halloc & Hrel);
        [by rewrite <-Hl | lia | done | done | done |].
      split; [split; [done|]|intros; lia]. intros _. by rewrite Hl.
Qed.

Lemma Erase_quiet (v : Vector T) (l : list T) (p : Z) (r : state T * Z) :
  models v l → 0 ≤ p < size_ v → Erase v p = Returns r → erase_quiet l p.
Proof.
  intros Hm Hp Hrun.
  pose proof (models_size _ _ Hm) as Hs.
  destruct (lookup_lt_is_Some_2 l (Z.to_nat p)) as [y Hy]; [lia|].
  pose proof (take_drop_middle _ _ _ Hy) as Hl.
  eapply (Erase_returns v (take (Z.to_nat p) l) _ y p); [by rewrite Hl | | done].
  rewrite length_take. lia.
Qed.

(** *** The methods when nothing raises *)

Lemma EmplaceBack_when_quiet (v : Vector T) (l : list T) (args : Args) :
  models v l → append_quiet v l args →
  ∃ x v' leak r,
    EmplaceBack v args = Returns (v', leak, r) ∧
    construct args = Some x ∧
    PushBack v args = Returns (v', leak, ()) ∧
    size_ v' = size_ v + 1 ∧
    models v' (l ++ [x]) ∧
    r = size_ v ∧ deref (slots v') r = Some x ∧
    (size_ v < Capacity v → Capacity v' = Capacity v) ∧
    (size_ v = Capacity v → Capacity v' = Z.max 1 (2 * Capacity v)).
Proof.
  intros Hm [[x Hx] Hgrow].
  destruct (EmplaceBack_spec v l args x Hm Hx Hgrow) as (v' & leak & Hrun & Hm' & Hcap).
  pose proof (models_size _ _ Hm) as Hs. pose proof (models_size _ _ Hm') as Hs'.
  exists x, v', leak, (Z.of_nat (length l)). split; [done|]. split; [done|].
  split; [unfold PushBack; by rewrite Hrun|].
  rewrite length_app in Hs'. simpl in Hs'.
  split; [lia|]. split; [done|]. split; [done|].
  split; [apply (models_deref v' (l ++ [x])); [done|]; by rewrite lookup_app_r, Nat.sub_diag|].
  split; intros Hc.
  - by destruct (Z.ltb_spec (size_ v) (Capacity v)); [|lia].
  - by destruct (Z.ltb_spec (size_ v) (Capacity v)); [lia|].
Qed.

Lemma Emplace_when_quiet (v : Vector T) (l : list T) (p : Z) (args : Args) :
  models v l → 0 ≤ p ≤ size_ v → insert_quiet v l p args →
  ∃ x v' leak r,
    Emplace v p args = Returns (v', leak, r) ∧
    construct args = Some x ∧
    Insert v p args = Returns (v', leak, r) ∧
    r = p ∧
    size_ v' = size_ v + 1 ∧
    models v' (take (Z.to_nat p) l ++ x :: drop (Z.to_nat p) l) ∧
    deref (slots v') r = Some x ∧
    (size_ v < Capacity v → Capacity v' = Capacity v) ∧
    (size_ v = Capacity v → Capacity v' = Z.max 1 (2 * Capacity v)).
Proof.
  intros Hm Hp [[[x Hx] Hgrow] Hshift].
  pose proof (models_size _ _ Hm) as Hs.
  destruct (models_inv _ _ Hm) as (_ & Hsz & _).
  assert (Hlen1 : length (take (Z.to_nat p) l) = Z.to_nat p)
    by (rewrite length_take; lia).
  assert (∃ v' leak, Emplace v p args = Returns (v', leak, p) ∧
            models v' (take (Z.to_nat p) l ++ x :: drop (Z.to_nat p) l) ∧
            (size_ v < Capacity v → Capacity v' = Capacity v) ∧
            (size_ v = Capacity v → Capacity v' = Z.max 1 (2 * Capacity v)))
    as (v' & leak & Hrun & Hm' & Hcap).
  { destruct (decide (p = size_ v)) as [Heq|Hne].
    - rewrite take_ge, drop_ge by lia.
      destruct (Emplace_at_end v l args x p Hm Heq Hx Hgrow) as (v' & leak & Hrun & Hm' & Hcap).
      exists v', leak. split; [done|]. split; [done|].
      destruct (Z.ltb_spec (size_ v) (Capacity v)); split; intros; done || lia.
    - remember (take (Z.to_nat p) l) as l1. remember (drop (Z.to_nat p) l) as l2.
      assert (Hl : l = l1 ++ l2) by (subst; by rewrite take_drop).
      assert (Hl2 : l2 ≠ []).
      { intros E. rewrite Hl, E, length_app in Hs. simpl in Hs. lia. }
      destruct (decide (size_ v < Capacity v)) as [Hroom|Hfull].
      + destruct (Hshift ltac:(lia)) as (Hz & Hq & Hqx).
        destruct (exists_last Hl2) as (l2' & z & Hl2').
        rewrite Hl2', removelast_last in Hq. rewrite Hl2' in Hl |- *.
        destruct (Emplace_in_place v l1 l2' z args x p) as (v' & Hrun & Hm' & Hcap);
          [by rewrite <-Hl | lia | done | done | | constructor; [by apply Hqx | done] |].
        { apply Hz. by rewrite Hl, app_assoc, last_snoc. }
        exists v', []. split; [done|]. split; [done|]. split; intros; [done | lia].
      + assert (Hfull' : size_ v = Capacity v) by lia.
        destruct (Hgrow Hfull') as [Halloc Hrel].
        destruct (Emplace_growth v l1 l2 args x p) as (v' & leak & Hrun & Hm' & Hcap);
          [by rewrite <-Hl | lia | done | done | done | done | by rewrite <-Hl |].
        exists v', leak. split; [done|]. split; [done|]. split; intros; [lia | done]. }
  pose proof (models_size _ _ Hm') as Hs'.
  rewrite length_app in Hs'. simpl in Hs'. rewrite length_drop in Hs'.
  exists x, v', leak, p. split; [done|]. split; [done|]. split; [done|]. split; [done|].
  split; [lia|]. split; [done|]. split; [|done].
  replace p with (Z.of_nat (Z.to_nat p)) at 1 by lia.
  eapply models_deref; [done|].
  by rewrite <-Hlen1 at 1; rewrite list_lookup_middle.
Qed.

Lemma Erase_when_quiet (v : Vector T) (l : list T) (p : Z) :
  models v l → 0 ≤ p < size_ v → erase_quiet l p →
  ∃ v',
    Erase v p = Returns (v', [], p) ∧
    models v' (take (Z.to_nat p) l ++ drop (S (Z.to_nat p)) l) ∧
    size_ v' = size_ v - 1 ∧
    Capacity v' = Capacity v ∧
    slots v' !! Z.to_nat (size_ v - 1) = Some None.
Proof.
  intros Hm Hp Hq.
  pose proof (models_size _ _ Hm) as Hs.
  destruct (lookup_lt_is_Some_2 l (Z.to_nat p)) as [y Hy]; [lia|].
  pose proof (take_drop_middle _ _ _ Hy) as Hl.
  assert (Hlen1 : length (take (Z.to_nat p) l) = Z.to_nat p)
    by (rewrite length_take; lia).
  destruct (Erase_spec v (take (Z.to_nat p) l) (drop (S (Z.to_nat p)) l) y p)
    as (v' & Hrun & Hm' & Hcap & Hlast); [by rewrite Hl | lia | done |].
  pose proof (models_size _ _ Hm') as Hs'.
  rewrite length_app, length_drop in Hs'.
  exists v'. split; [done|]. split; [done|]. split; [lia|]. split; [done|].
  rewrite <-Hlast. f_equal. rewrite length_drop. lia.
Qed.

Lemma Reserve_when_quiet (v : Vector T) (l : list T) (n : Z) :
  models v l → n * sizeof_T ≤ SIZE_MAX → reserve_quiet v l n →
  ∃ v' leak,
    Reserve v n = Returns (v', leak, ()) ∧
    (n ≤ Capacity v → v' = v ∧ leak = []) ∧
    (Capacity v < n → Capacity v' = n) ∧
    Capacity v ≤ Capacity v' ∧
    size_ v' = size_ v ∧
    models v' l.
Proof.
  intros Hm Hfit Hgrow.
  destruct (decide (n ≤ Capacity v)) as [Hle|Hgt].
  - exists v, []. rewrite Reserve_noop by done.
    split; [done|]. split; [done|]. split; [lia|]. split; [lia|]. done.
  - destruct Hgrow as (Halloc & Hrel); [lia|].
    destruct (Reserve_grows v l n) as (v' & leak & Hrun & Hm' & Hcap);
      [done | lia | done | done | done |].
    exists v', leak. split; [done|]. split; [lia|]. split; [done|].
    split; [lia|]. split; [|done].
    by rewrite (models_size _ _ Hm), (models_size _ _ Hm').
Qed.

Lemma copy_assign_when_quiet (v rhs : Vector T) (l r : list T) :
  models v l → models rhs r → copy_assign_quiet v rhs l r →
  ∃ v' leak,
    copy_assign v (Another rhs) = Returns (v', leak, ()) ∧
    models v' r ∧
    size_ v' = size_ rhs ∧
    (Capacity v < size_ rhs → Capacity v' = size_ rhs) ∧
    (size_ rhs ≤ Capacity v → Capacity v' = Capacity v ∧ leak = []) ∧
    (size_ rhs < size_ v → size_ rhs ≤ Capacity v →
       ∀ i, (length r ≤ i < length l)%nat → slots v' !! i = Some None).
Proof.
  intros Hm Hmr [Hfresh Hreuse].
  pose proof (models_size _ _ Hm) as Hs. pose proof (models_size _ _ Hmr) as Hrs.
  destruct (models_inv _ _ Hm) as (_ & Hsz & _).
  assert (∃ v' leak, copy_assign v (Another rhs) = Returns (v', leak, ()) ∧
            models v' r ∧
            (Capacity v < size_ rhs → Capacity v' = size_ rhs) ∧
            (size_ rhs ≤ Capacity v → Capacity v' = Capacity v ∧ leak = []) ∧
            (size_ rhs < size_ v → size_ rhs ≤ Capacity v →
               ∀ i, (length r ≤ i < length l)%nat → slots v' !! i = Some None))
    as (v' & leak & Hrun & Hm' & H1 & H2 & H3).
  { destruct (decide (Capacity v < size_ rhs)) as [Hbig|Hfit].
    - destruct Hfresh as [Halloc Hq]; [done|].
      destruct (copy_assign_replaces v rhs l r) as (v' & leak & Hrun & Hm' & Hcap);
        [done..|].
      exists v', leak. split; [done|]. split; [done|]. split; [done|].
      split; intros; lia.
    - destruct Hreuse as [Hq1 Hq2]; [lia|].
      destruct (decide (size_ rhs < size_ v)) as [Hsmall|Hlarge].
      + rewrite take_ge in Hq1 by lia.
        assert (Hl : l = take (length r) l ++ drop (length r) l) by by rewrite take_drop.
        destruct (copy_assign_shrinks v rhs (take (length r) l) (drop (length r) l) r)
          as (v' & Hrun & Hm' & Hcap & Hslots);
          [by rewrite <-Hl | done | rewrite length_take; lia | | done |].
        { intros E. apply (f_equal length) in E. rewrite length_drop in E.
          simpl in E. lia. }
        exists v', []. split; [done|]. split; [done|]. split; [lia|].
        split; [done|]. intros _ _ i Hi.
        rewrite Hslots, length_drop.
        rewrite lookup_app_r by (rewrite length_fmap; lia).
        rewrite lookup_app_l by (rewrite length_fmap, length_replicate; lia).
        apply lookup_replicate_2. rewrite length_fmap. lia.
      + assert (Hr : r = take (length l) r ++ drop (length l) r) by by rewrite take_drop.
        destruct (copy_assign_extends v rhs l (take (length l) r) (drop (length l) r))
          as (v' & Hrun & Hm' & Hcap);
          [done | by rewrite <-Hr | rewrite length_take; lia
           | rewrite <-Hr; lia | done | done |].
        rewrite <-Hr in Hm'.
        exists v', []. split; [done|]. split; [done|]. split; [lia|].
        split; [done|]. intros; lia. }
  exists v', leak. split; [done|]. split; [done|].
  split; [by rewrite (models_size _ _ Hm')|]. done.
Qed.

(** [PopBack] on a vector that is not empty. *)
Lemma PopBack_spec {E : Type} (v : Vector T) (l : list T) (x : T) :
  models v (l ++ [x]) →
  ∃ v', PopBack (E:=E) v = Returns (v', [], ()) ∧
        models v' l ∧ size_ v' = size_ v - 1 ∧ Capacity v' = Capacity v ∧
        slots v' !! length l = Some None.
Proof.
  intros Hm.
  destruct (models_slots _ _ Hm) as (rest & Hslots & Hcap).
  destruct (models_inv _ _ Hm) as (Hlen & Hsz & Hmax & Hsize & Hbytes).
  pose proof PTRDIFF_MAX_eq as HM. pose proof two64_eq as H64.
  rewrite length_app in Hsize, Hcap. simpl in Hsize, Hcap.
  unfold PopBack, destroy_n. simpl. unfold destroy_at.
  rewrite wrap_small by lia.
  rewrite Hslots, fmap_app, <-app_assoc, !Z.add_0_l. simpl.
  rewrite deref_middle, store_middle by (rewrite length_fmap; lia).
  simpl. eexists. split; [done|]. split; [|split; [done|split; [done|]]].
  - eapply (models_intro _ (None :: rest)); [done | simpl; lia | lia | lia].
  - unfold slots. simpl. rewrite list_lookup_middle; [done|]. by rewrite length_fmap.
Qed.

End Container.

(** * Facts about outcomes *)

Lemma always_bind {E R R'} (PE : E → Prop) (PQ : R → Prop) (PR : R' → Prop)
    (m : result E R) (k : R → result E R') :
  always PE PQ m → (∀ r, PQ r → always PE PR (k r)) → always PE PR (m ≫= k).
Proof. destruct m; simpl; auto. Qed.

Lemma always_unwind {E E' R} (PE' : E → Prop) (PE : E' → Prop) (PR : R → Prop)
    (m : result E R) (h : E → result E' R) :
  always PE' PR m → (∀ e, PE' e → always PE PR (h e)) → always PE PR (unwind m h).
Proof. destruct m; simpl; auto. Qed.

Lemma always_mono {E R} (PE PE' : E → Prop) (PR PR' : R → Prop) (m : result E R) :
  always PE PR m → (∀ e, PE e → PE' e) → (∀ r, PR r → PR' r) → always PE' PR' m.
Proof. destruct m; simpl; auto. Qed.

Lemma always_Returns {E R} (PE : E → Prop) (PR : R → Prop) (m : result E R) (r : R) :
  always PE PR m → m = Returns r → PR r.
Proof. by intros H ->. Qed.

Lemma always_Raises {E R} (PE : E → Prop) (PR : R → Prop) (m : result E R) (e : E) :
  always PE PR m → m = Raises e → PE e.
Proof. by intros H ->. Qed.

Section Lengths.
Context {T Args : Type} {elem : Element T Args}.

Local Abbreviation block := (list (option T)).

(** No algorithm changes the number of slots of a block, and an algorithm
    that returns has only written to slots of the block. *)

Lemma construct_at_length (b : block) (p : Z) (init : option T) (n : nat) :
  length b = n →
  always (λ b', length b' = n)
         (λ b', length b' = n ∧ 0 ≤ p < Z.of_nat n)
         (construct_at b p init).
Proof.
  intros Hb. unfold construct_at. destruct (valid b p) eqn:Hv; [|done].
  apply valid_lt in Hv. rewrite Hb in Hv.
  destruct init; simpl; [by rewrite length_store | done].
Qed.

Lemma destroy_at_length {E} (PE : E → Prop) (b : block) (p : Z) (n : nat) :
  length b = n →
  always PE (λ b', length b' = n ∧ 0 ≤ p < Z.of_nat n) (destroy_at b p).
Proof.
  intros Hb. unfold destroy_at. destruct (deref b p) eqn:Hd; [|done]. simpl.
  rewrite length_store. split; [done|].
  apply deref_Some_valid, valid_lt in Hd. by rewrite <-Hb.
Qed.

Lemma destroy_loop_length {E} (PE : E → Prop) (b : block) (p : Z) (k n : nat) :
  length b = n → always PE (λ b', length b' = n) (destroy_loop b p k).
Proof.
  revert b p. induction k as [|k IH]; intros b p Hb; simpl; [done|].
  eapply always_bind; [by apply destroy_at_length|].
  intros b' [Hb' _]. by apply IH.
Qed.

Lemma destroy_n_length {E} (PE : E → Prop) (b : block) (p k : Z) (n : nat) :
  length b = n → always PE (λ b', length b' = n) (destroy_n b p k).
Proof. apply destroy_loop_length. Qed.

Lemma copy_construct_loop_length (s d : block) (first cur : Z) (k n : nat) :
  length d = n →
  always (λ e, length e.1 = n)
         (λ d', length d' = n ∧
                ((0 < k)%nat → 0 ≤ cur ∧ cur + Z.of_nat k ≤ Z.of_nat n))
         (copy_construct_loop s first d cur k).
Proof.
  revert d first cur. induction k as [|k IH]; intros d first cur Hd; simpl.
  - split; [done | lia].
  - destruct (deref s first); [|done].
    eapply always_bind.
    + eapply always_unwind; [by apply construct_at_length|]. by intros e He.
    + intros d' [Hd' Hcur]. eapply always_mono; [by apply IH | done |].
      intros d'' [Hd'' Hrest]. split; [done|]. intros _.
      destruct k; [lia|]. destruct Hrest; lia.
Qed.

Lemma uninitialized_copy_n_length (s d : block) (first k d_first : Z) (n : nat) :
  length d = n →
  always (λ d', length d' = n)
         (λ d', length d' = n ∧ (0 < k → 0 ≤ d_first ∧ d_first + k ≤ Z.of_nat n))
         (uninitialized_copy_n s first k d d_first).
Proof.
  intros Hd. unfold uninitialized_copy_n.
  eapply always_unwind.
  - eapply always_mono; [by apply copy_construct_loop_length | intros e He; exact He |].
    intros d' [Hd' Hv]. split; [done|]. intros Hk. destruct Hv; lia.
  - intros [d' cur] Hd'. simpl in Hd'.
    eapply always_bind; [by apply destroy_n_length|]. by intros d'' Hd''.
Qed.

Lemma move_construct_loop_length (s d : block) (first cur : Z) (k m n : nat) :
  length s = m → length d = n →
  always (λ e, length e.1.1 = m ∧ length e.1.2 = n)
         (λ r, length r.1 = m ∧ length r.2 = n ∧
               ((0 < k)%nat → 0 ≤ cur ∧ cur + Z.of_nat k ≤ Z.of_nat n))
         (move_construct_loop s first d cur k).
Proof.
  revert s d first cur. induction k as [|k IH]; intros s d first cur Hs Hd; simpl.
  - split; [done|]. split; [done | lia].
  - destruct (deref s first); [|done]. destruct (valid d cur) eqn:Hv; [|done].
    apply valid_lt in Hv. rewrite Hd in Hv.
    destruct (move_throws t); [done|].
    eapply always_mono; [apply IH; by rewrite length_store | done |].
    intros r (Hr1 & Hr2 & Hrest). split; [done|]. split; [done|]. intros _.
    destruct k; [lia|]. destruct Hrest; lia.
Qed.

Lemma uninitialized_move_n_length (s d : block) (first k d_first : Z) (m n : nat) :
  length s = m → length d = n →
  always (λ e, length e.1 = m ∧ length e.2 = n)
         (λ r, length r.1 = m ∧ length r.2 = n ∧
               (0 < k → 0 ≤ d_first ∧ d_first + k ≤ Z.of_nat n))
         (uninitialized_move_n s first k d d_first).
Proof.
  intros Hs Hd. unfold uninitialized_move_n.
  eapply always_unwind.
  - eapply always_mono; [by apply move_construct_loop_length | intros e He; exact He |].
    intros r (Hr1 & Hr2 & Hv). split; [done|]. split; [done|].
    intros Hk. destruct Hv; lia.
  - intros [[s' d'] cur] [Hs' Hd']. simpl in Hs', Hd'.
    eapply always_bind; [by apply destroy_n_length|]. by intros d'' Hd''.
Qed.

Lemma UninitializedMoveOrCopy_length (s d : block) (from size to : Z) (m n : nat) :
  length s = m → length d = n →
  always (λ e, length e.1 = m ∧ length e.2 = n)
         (λ r, length r.1 = m ∧ length r.2 = n ∧
               (0 < size → 0 ≤ to ∧ to + size ≤ Z.of_nat n))
         (UninitializedMoveOrCopy s from size d to).
Proof.
  intros Hs Hd. unfold UninitializedMoveOrCopy.
  destruct (is_nothrow_move_constructible || negb is_copy_constructible).
  - by apply uninitialized_move_n_length.
  - eapply always_bind.
    + eapply always_unwind; [by apply uninitialized_copy_n_length|]. by intros e He.
    + by intros d' [Hd' Hv].
Qed.

Lemma value_construct_loop_length (d : block) (cur : Z) (k n : nat) :
  length d = n →
  always (λ e, length e.1 = n)
         (λ d', length d' = n ∧
                ((0 < k)%nat → 0 ≤ cur ∧ cur + Z.of_nat k ≤ Z.of_nat n))
         (value_construct_loop d cur k).
Proof.
  revert d cur. induction k as [|k IH]; intros d cur Hd; simpl.
  - split; [done | lia].
  - eapply always_bind.
    + eapply always_unwind; [by apply construct_at_length|]. by intros e He.
    + intros d' [Hd' Hcur]. eapply always_mono; [by apply IH | done |].
      intros d'' [Hd'' Hrest]. split; [done|]. intros _.
      destruct k; [lia|]. destruct Hrest; lia.
Qed.

Lemma uninitialized_value_construct_n_length (d : block) (first k : Z) (n : nat) :
  length d = n →
  always (λ d', length d' = n)
         (λ d', length d' = n ∧ (0 < k → 0 ≤ first ∧ first + k ≤ Z.of_nat n))
         (uninitialized_value_construct_n d first k).
Proof.
  intros Hd. unfold uninitialized_value_construct_n.
  eapply always_unwind.
  - eapply always_mono; [by apply value_construct_loop_length | intros e He; exact He |].
    intros d' [Hd' Hv]. split; [done|]. intros Hk. destruct Hv; lia.
  - intros [d' cur] Hd'. simpl in Hd'.
    eapply always_bind; [by apply destroy_n_length|]. by intros d'' Hd''.
Qed.

Lemma copy_length (s d : block) (first last d_first : Z) (n : nat) :
  length d = n →
  always (λ d', length d' = n) (λ d', length d' = n) (copy s first last d d_first).
Proof.
  unfold copy. generalize (Z.to_nat (last - first)) as k.
  intros k. revert d first d_first.
  induction k as [|k IH]; intros d first d_first Hd; simpl; [done|].
  destruct (deref s first); [|done]. destruct (deref d d_first); [|done].
  destruct (copy_assign_throws t); [done|].
  apply IH. by rewrite length_store.
Qed.

Lemma move_assign_at_length (b : block) (s d : Z) (n : nat) :
  length b = n →
  always (λ b', length b' = n) (λ b', length b' = n) (move_assign_at b s d).
Proof.
  intros Hb. unfold move_assign_at.
  destruct (deref b s); [|done]. destruct (deref b d); [|done].
  destruct (move_assign_throws t); [done|]. simpl. by rewrite !length_store.
Qed.

Lemma move_length (b : block) (first last d_first : Z) (n : nat) :
  length b = n →
  always (λ b', length b' = n) (λ b', length b' = n) (move b first last d_first).
Proof.
  unfold move. generalize (Z.to_nat (last - first)) as k.
  intros k. revert b first d_first.
  induction k as [|k IH]; intros b first d_first Hb; simpl; [done|].
  eapply always_bind; [by apply move_assign_at_length|].
  intros b' Hb'. by apply IH.
Qed.

Lemma move_backward_length (b : block) (first last d_last : Z) (n : nat) :
  length b = n →
  always (λ b', length b' = n) (λ b', length b' = n) (move_backward b first last d_last).
Proof.
  unfold move_backward. generalize (Z.to_nat (last - first)) as k.
  intros k. revert b last d_last.
  induction k as [|k IH]; intros b last d_last Hb; simpl; [done|].
  eapply always_bind; [by apply move_assign_at_length|].
  intros b' Hb'. by apply IH.
Qed.

Lemma move_construct_at_length (b : block) (s d : Z) (n : nat) :
  length b = n →
  always (λ b', length b' = n)
         (λ b', length b' = n ∧ 0 ≤ d < Z.of_nat n)
         (move_construct_at b s d).
Proof.
  intros Hb. unfold move_construct_at.
  destruct (deref b s); [|done]. destruct (valid b d) eqn:Hv; [|done].
  apply valid_lt in Hv. rewrite Hb in Hv.
  destruct (move_throws t); [done|]. simpl. by rewrite !length_store.
Qed.

Lemma move_assign_from_length (b : block) (d : Z) (tmp : T) (n : nat) :
  length b = n →
  always (λ b', length b' = n) (λ b', length b' = n) (move_assign_from b d tmp).
Proof.
  intros Hb. unfold move_assign_from.
  destruct (deref b d); [|done].
  destruct (move_assign_throws tmp); [done|]. simpl. by rewrite length_store.
Qed.

End Lengths.

Lemma always_and {E R} (PE PE' : E → Prop) (PR PR' : R → Prop) (m : result E R) :
  always PE PR m → always PE' PR' m →
  always (λ e, PE e ∧ PE' e) (λ r, PR r ∧ PR' r) m.
Proof. destruct m; simpl; auto. Qed.

Lemma always_returns {E R} (PE : E → Prop) (PR : R → Prop) (m : result E R) :
  always PE (λ _, True) m → (∀ r, m = Returns r → PR r) → always PE PR m.
Proof. destruct m; simpl; auto. Qed.

Section Liveness.
Context {T Args : Type} {elem : Element T Args}.

Local Abbreviation block := (list (option T)).

(** The objects in slots [0, n) of a block stay alive through every
    algorithm that does not destroy them, whether it returns or raises. *)

Lemma alive_below_store (n : nat) (b : block) (p : Z) (x : T) :
  alive_below n b → alive_below n (store b p (Some x)).
Proof.
  intros Hb i Hi. destruct (Hb i Hi) as [y Hy]. unfold store.
  destruct (decide (i = Z.to_nat p)) as [->|Hne].
  - exists x. apply list_lookup_insert_eq. by eapply lookup_lt_Some.
  - exists y. by rewrite list_lookup_insert_ne.
Qed.

Lemma alive_below_store_above (n : nat) (b : block) (p : Z) (o : option T) :
  Z.of_nat n ≤ p → alive_below n b → alive_below n (store b p o).
Proof.
  intros Hp Hb i Hi. destruct (Hb i Hi) as [y Hy]. exists y.
  unfold store. by rewrite list_lookup_insert_ne by lia.
Qed.

Lemma alive_below_extend (n : nat) (b : block) (p : Z) (x : T) :
  valid b p = true → p = Z.of_nat n →
  alive_below n b → alive_below (S n) (store b p (Some x)).
Proof.
  intros Hv -> Hb i Hi. apply valid_lt in Hv.
  destruct (decide (i = n)) as [->|Hne].
  - exists x. unfold store. rewrite Nat2Z.id. apply list_lookup_insert_eq. lia.
  - apply (alive_below_store n b (Z.of_nat n) x Hb). lia.
Qed.

Lemma alive_below_le (n m : nat) (b : block) :
  (n ≤ m)%nat → alive_below m b → alive_below n b.
Proof. intros Hn Hb i Hi. apply Hb. lia. Qed.

Lemma alive_below_take (n : nat) (b : block) :
  alive_below n b → ∃ l : list T, length l = n ∧ take n b = Some <$> l.
Proof.
  induction n as [|n IH]; intros Hb.
  - exists []. by rewrite take_0.
  - destruct IH as (l & Hl & Ht); [by eapply alive_below_le; [|exact Hb]; lia|].
    destruct (Hb n) as [x Hx]; [lia|].
    exists (l ++ [x]). split; [rewrite length_app; simpl; lia|].
    by rewrite (take_S_r _ _ _ Hx), Ht, fmap_app.
Qed.

Lemma alive_below_fmap (l : list T) (rest : block) :
  alive_below (length l) ((Some <$> l) ++ rest).
Proof.
  intros i Hi. destruct (lookup_lt_is_Some_2 l i Hi) as [x Hx]. exists x.
  rewrite lookup_app_l by (by rewrite length_fmap).
  by rewrite list_lookup_fmap, Hx.
Qed.

Lemma construct_at_keeps (n : nat) (b : block) (p : Z) (init : option T) :
  alive_below n b → always (alive_below n) (alive_below n) (construct_at b p init).
Proof.
  intros Hb. unfold construct_at. destruct (valid b p); [|done].
  destruct init; simpl; [by apply alive_below_store | done].
Qed.

Lemma destroy_at_keeps {E} (PE : E → Prop) (n : nat) (b : block) (p : Z) :
  Z.of_nat n ≤ p → alive_below n b → always PE (alive_below n) (destroy_at b p).
Proof.
  intros Hp Hb. unfold destroy_at. destruct (deref b p); [|done]. simpl.
  by apply alive_below_store_above.
Qed.

Lemma destroy_loop_keeps {E} (PE : E → Prop) (n : nat) (b : block) (p : Z) (k : nat) :
  Z.of_nat n ≤ p → alive_below n b → always PE (alive_below n) (destroy_loop b p k).
Proof.
  revert b p. induction k as [|k IH]; intros b p Hp Hb; simpl; [done|].
  eapply always_bind; [by apply destroy_at_keeps|].
  intros b' Hb'. apply IH; [lia | done].
Qed.

Lemma destroy_n_keeps {E} (PE : E → Prop) (n : nat) (b : block) (p k : Z) :
  Z.of_nat n ≤ p → alive_below n b → always PE (alive_below n) (destroy_n b p k).
Proof. apply destroy_loop_keeps. Qed.

Lemma copy_construct_loop_keeps (n : nat) (s d : block) (first cur : Z) (k : nat) :
  alive_below n d →
  always (λ e, alive_below n e.1 ∧ cur ≤ e.2) (alive_below n)
         (copy_construct_loop s first d cur k).
Proof.
  revert d first cur. induction k as [|k IH]; intros d first cur Hd; simpl; [done|].
  destruct (deref s first); [|done].
  eapply always_bind.
  - eapply always_unwind; [by apply construct_at_keeps|]. intros e He. simpl. split; [done | lia].
  - intros d' Hd'. eapply always_mono; [by apply IH | | done].
    intros e [He Hcur]. split; [done | lia].
Qed.

Lemma uninitialized_copy_n_keeps (n : nat) (s d : block) (first k d_first : Z) :
  Z.of_nat n ≤ d_first → alive_below n d →
  always (alive_below n) (alive_below n) (uninitialized_copy_n s first k d d_first).
Proof.
  intros Hn Hd. unfold uninitialized_copy_n.
  eapply always_unwind; [by apply copy_construct_loop_keeps|].
  intros [d' cur] [Hd' _]. simpl in Hd'.
  eapply always_bind; [by apply destroy_n_keeps|]. by intros d'' Hd''.
Qed.

Lemma copy_construct_loop_fills (n : nat) (s d : block) (first cur : Z) (k : nat) :
  cur = Z.of_nat n → alive_below n d →
  always (λ _, True) (alive_below (n + k)) (copy_construct_loop s first d cur k).
Proof.
  revert n d first cur. induction k as [|k IH]; intros n d first cur Hc Hd; simpl.
  - by rewrite Nat.add_0_r.
  - destruct (deref s first) as [x|]; [|done].
    unfold construct_at. destruct (valid d cur) eqn:Hv; [|done].
    destruct (copy_construct x); simpl; [|done].
    replace (n + S k)%nat with (S n + k)%nat by lia.
    apply IH; [lia|]. by apply alive_below_extend.
Qed.

Lemma uninitialized_copy_n_fills (n : nat) (s d : block) (first k d_first : Z) :
  d_first = Z.of_nat n → alive_below n d →
  always (λ _, True) (alive_below (n + Z.to_nat k))
         (uninitialized_copy_n s first k d d_first).
Proof.
  intros Hn Hd. unfold uninitialized_copy_n.
  eapply always_unwind; [by apply copy_construct_loop_fills|].
  intros [d' cur] _.
  eapply always_bind; [by eapply (destroy_n_length (λ _, True))|]. by intros d'' Hd''.
Qed.

Lemma value_construct_loop_keeps (n : nat) (d : block) (cur : Z) (k : nat) :
  alive_below n d →
  always (λ e, alive_below n e.1) (alive_below n) (value_construct_loop d cur k).
Proof.
  revert d cur. induction k as [|k IH]; intros d cur Hd; simpl; [done|].
  eapply always_bind.
  - eapply always_unwind; [by apply construct_at_keeps|]. by intros e He.
  - intros d' Hd'. by apply IH.
Qed.

Lemma uninitialized_value_construct_n_keeps (n : nat) (d : block) (first k : Z) :
  Z.of_nat n ≤ first → alive_below n d →
  always (alive_below n) (alive_below n) (uninitialized_value_construct_n d first k).
Proof.
  intros Hn Hd. unfold uninitialized_value_construct_n.
  eapply always_unwind; [by apply value_construct_loop_keeps|].
  intros [d' cur] Hd'. simpl in Hd'.
  eapply always_bind; [by apply destroy_n_keeps|]. by intros d'' Hd''.
Qed.

Lemma value_construct_loop_fills (n : nat) (d : block) (cur : Z) (k : nat) :
  cur = Z.of_nat n → alive_below n d →
  always (λ _, True) (alive_below (n + k)) (value_construct_loop d cur k).
Proof.
  revert n d cur. induction k as [|k IH]; intros n d cur Hc Hd; simpl.
  - by rewrite Nat.add_0_r.
  - unfold construct_at. destruct (valid d cur) eqn:Hv; [|done].
    destruct value_initialize; simpl; [|done].
    replace (n + S k)%nat with (S n + k)%nat by lia.
    apply IH; [lia|]. by apply alive_below_extend.
Qed.

Lemma uninitialized_value_construct_n_fills (n : nat) (d : block) (first k : Z) :
  first = Z.of_nat n → alive_below n d →
  always (λ _, True) (alive_below (n + Z.to_nat k))
         (uninitialized_value_construct_n d first k).
Proof.
  intros Hn Hd. unfold uninitialized_value_construct_n.
  eapply always_unwind; [by apply value_construct_loop_fills|].
  intros [d' cur] _.
  eapply always_bind; [by eapply (destroy_n_length (λ _, True))|]. by intros d'' Hd''.
Qed.

Lemma move_construct_loop_keeps (n : nat) (s d : block) (first cur : Z) (k : nat) :
  alive_below n s →
  always (λ e, alive_below n e.1.1) (λ r, alive_below n r.1)
         (move_construct_loop s first d cur k).
Proof.
  revert s d first cur. induction k as [|k IH]; intros s d first cur Hs; simpl; [done|].
  destruct (deref s first); [|done]. destruct (valid d cur); [|done].
  destruct (move_throws t); [done|]. apply IH. by apply alive_below_store.
Qed.

Lemma uninitialized_move_n_keeps (n : nat) (s d : block) (first k d_first : Z) :
  alive_below n s →
  always (λ e, alive_below n e.1) (λ r, alive_below n r.1)
         (uninitialized_move_n s first k d d_first).
Proof.
  intros Hs. unfold uninitialized_move_n.
  eapply always_unwind; [by apply move_construct_loop_keeps|].
  intros [[s' d'] cur] Hs'. simpl in Hs'.
  eapply always_bind; [by eapply (destroy_n_length (λ e : block * block, alive_below n e.1))|].
  by intros d'' Hd''.
Qed.

(** The source block of a relocation. *)
Lemma UninitializedMoveOrCopy_keeps (n : nat) (s d : block) (from size to : Z) :
  alive_below n s →
  always (λ e, alive_below n e.1) (λ r, alive_below n r.1)
         (UninitializedMoveOrCopy s from size d to).
Proof.
  intros Hs. unfold UninitializedMoveOrCopy.
  destruct (is_nothrow_move_constructible || negb is_copy_constructible).
  - by apply uninitialized_move_n_keeps.
  - eapply always_bind.
    + eapply always_unwind; [by eapply uninitialized_copy_n_length|]. by intros e He.
    + by intros d' _.
Qed.

Lemma copy_keeps (n : nat) (s d : block) (first last d_first : Z) :
  alive_below n d →
  always (alive_below n) (alive_below n) (copy s first last d d_first).
Proof.
  unfold copy. generalize (Z.to_nat (last - first)) as k.
  intros k. revert d first d_first.
  induction k as [|k IH]; intros d first d_first Hd; simpl; [done|].
  destruct (deref s first); [|done]. destruct (deref d d_first); [|done].
  destruct (copy_assign_throws t); [done|].
  apply IH. by apply alive_below_store.
Qed.

Lemma move_assign_at_keeps (n : nat) (b : block) (s d : Z) :
  alive_below n b →
  always (alive_below n) (alive_below n) (move_assign_at b s d).
Proof.
  intros Hb. unfold move_assign_at.
  destruct (deref b s); [|done]. destruct (deref b d); [|done].
  destruct (move_assign_throws t); [done|]. simpl. by do 2 apply alive_below_store.
Qed.

Lemma move_keeps (n : nat) (b : block) (first last d_first : Z) :
  alive_below n b →
  always (alive_below n) (alive_below n) (move b first last d_first).
Proof.
  unfold move. generalize (Z.to_nat (last - first)) as k.
  intros k. revert b first d_first.
  induction k as [|k IH]; intros b first d_first Hb; simpl; [done|].
  eapply always_bind; [by apply move_assign_at_keeps|].
  intros b' Hb'. by apply IH.
Qed.

Lemma move_backward_keeps (n : nat) (b : block) (first last d_last : Z) :
  alive_below n b →
  always (alive_below n) (alive_below n) (move_backward b first last d_last).
Proof.
  unfold move_backward. generalize (Z.to_nat (last - first)) as k.
  intros k. revert b last d_last.
  induction k as [|k IH]; intros b last d_last Hb; simpl; [done|].
  eapply always_bind; [by apply move_assign_at_keeps|].
  intros b' Hb'. by apply IH.
Qed.

Lemma move_construct_at_keeps (n : nat) (b : block) (s d : Z) :
  alive_below n b →
  always (alive_below n) (alive_below n) (move_construct_at b s d).
Proof.
  intros Hb. unfold move_construct_at.
  destruct (deref b s); [|done]. destruct (valid b d); [|done].
  destruct (move_throws t); [done|]. simpl. by do 2 apply alive_below_store.
Qed.

Lemma move_assign_from_keeps (n : nat) (b : block) (d : Z) (tmp : T) :
  alive_below n b →
  always (alive_below n) (alive_below n) (move_assign_from b d tmp).
Proof.
  intros Hb. unfold move_assign_from.
  destruct (deref b d); [|done].
  destruct (move_assign_throws tmp); [done|]. simpl. by apply alive_below_store.
Qed.

End Liveness.

Section Invariant.
Context {T Args : Type} {elem : Element T Args} {heap : Heap}.

Local Abbreviation block := (list (option T)).

Lemma bounded_intro (b : block) (c sz : Z) :
  Z.of_nat (length b) ≤ c → c ≤ SIZE_MAX →
  0 ≤ sz ≤ Z.of_nat (length b) →
  Z.of_nat (length b) * sizeof_T ≤ PTRDIFF_MAX →
  bounded {| data_ := {| buffer_ := b; capacity_ := c |}; size_ := sz |}.
Proof. by split. Qed.

(** The same storage, or storage of the same length, with another size. *)
Lemma bounded_same (v : Vector T) (b : block) (sz : Z) :
  bounded v → length b = length (slots v) → 0 ≤ sz ≤ Z.of_nat (length b) →
  bounded {| data_ := {| buffer_ := b; capacity_ := Capacity v |}; size_ := sz |}.
Proof.
  intros [Hlen Hcap Hsz Hbytes] Hb Hs. rewrite Hb in Hs.
  apply bounded_intro; rewrite ?Hb; done.
Qed.

Lemma bounded_with_slots (v : Vector T) (b : block) :
  bounded v → length b = length (slots v) → bounded (with_slots v b).
Proof.
  intros Hv Hb. apply bounded_same; [done | done |]. destruct Hv. by rewrite Hb.
Qed.

Lemma bounded_eta (v : Vector T) (sz : Z) :
  bounded v → 0 ≤ sz ≤ size_ v →
  bounded {| data_ := {| buffer_ := buffer_ (data_ v); capacity_ := capacity_ (data_ v) |};
             size_ := sz |}.
Proof.
  intros Hv Hs. apply (bounded_same v); [done | done |]. destruct Hv. unfold slots in *. lia.
Qed.

Lemma bounded_default : bounded (Vector_default (T:=T)).
Proof. apply bounded_intro; simpl; (done || by cbv). Qed.

Lemma bounded_size_capacity (v : Vector T) : bounded v → 0 ≤ size_ v ≤ Capacity v.
Proof. intros [Hlen Hcap Hsz Hbytes]. lia. Qed.

Lemma bounded_length (v : Vector T) :
  bounded v → Z.of_nat (length (slots v)) ≤ PTRDIFF_MAX.
Proof. intros [Hlen Hcap Hsz Hbytes]. apply slots_bound; [lia | done]. Qed.

(** A block obtained for [n] objects has at most [n] slots, and exactly [n]
    when [n * sizeof(T)] is a [size_t]. *)
Lemma RawMemory_sized_always (n : Z) :
  is_size_t n →
  always (λ _, True)
         (λ m, capacity_ m = n ∧
               Z.of_nat (length (buffer_ m)) ≤ n ∧
               Z.of_nat (length (buffer_ m)) * sizeof_T ≤ PTRDIFF_MAX ∧
               (n * sizeof_T ≤ SIZE_MAX → Z.of_nat (length (buffer_ m)) = n))
         (RawMemory_sized (T:=T) n).
Proof.
  intros [Hn Hmax]. pose proof sizeof_T_spec as Hs.
  pose proof SIZE_MAX_eq as HS. pose proof two64_eq as H64.
  unfold RawMemory_sized, Allocate, operator_new.
  destruct (Z.eqb_spec n 0) as [->|Hne]; [simpl; by cbv|].
  destruct (can_allocate (wrap (n * sizeof_T))) eqn:Hc; [|done]. simpl.
  apply can_allocate_bound in Hc. rewrite length_replicate.
  assert (Hw : 0 ≤ wrap (n * sizeof_T) ≤ n * sizeof_T).
  { unfold wrap. split; [apply Z.mod_pos_bound; lia | apply Z.mod_le; nia]. }
  assert (Hq : 0 ≤ wrap (n * sizeof_T) / sizeof_T) by (apply Z.div_pos; lia).
  rewrite Z2Nat.id by done.
  split; [done|]. split; [|split].
  - apply Z.div_le_upper_bound; [lia | nia].
  - rewrite Z.mul_comm. etransitivity; [apply Z.mul_div_le; lia | done].
  - intros Hfit. rewrite wrap_small by nia. apply Z.div_mul. lia.
Qed.

Lemma RawMemory_index_always {E} (PE : E → Prop) (m : RawMemory T) (i : Z) :
  always PE (λ r, r = i ∧ i < capacity_ m) (RawMemory_index m i).
Proof.
  unfold RawMemory_index. destruct (Z.ltb_spec i (capacity_ m)); simpl; done.
Qed.

(** What a full vector needs to know before it grows. *)
Lemma bounded_full (v : Vector T) :
  bounded v → Capacity v ≤ size_ v →
  size_ v = Capacity v ∧
  0 ≤ size_ v ≤ PTRDIFF_MAX ∧
  size_ v < grown (size_ v) ∧
  is_size_t (grown (size_ v)) ∧
  grown (size_ v) * sizeof_T ≤ SIZE_MAX.
Proof.
  intros Hb Hfull. pose proof (bounded_length v Hb) as Hl.
  destruct Hb as [Hlen Hcap Hsz Hbytes].
  pose proof sizeof_T_spec as Hs.
  pose proof PTRDIFF_MAX_eq as HM. pose proof SIZE_MAX_eq as HS.
  assert (Hfits : grown (size_ v) * sizeof_T ≤ SIZE_MAX) by (apply grown_fits; nia).
  split; [lia|]. split; [lia|]. split; [unfold grown; lia|]. split; [|done].
  split; [unfold grown; lia | nia].
Qed.

(** Append: the vector stays within bounds; when the call returns the size
    went up by one and the capacity did not go down; when it raises, size
    and capacity are the old ones. *)
Lemma EmplaceBack_always (v : Vector T) (args : Args) :
  bounded v →
  always (λ s, bounded s.1 ∧ size_ s.1 = size_ v ∧ Capacity s.1 = Capacity v)
         (λ r, bounded r.1.1 ∧ size_ r.1.1 = size_ v + 1 ∧ Capacity v ≤ Capacity r.1.1)
         (EmplaceBack v args).
Proof.
  intros Hb. pose proof (bounded_length v Hb) as Hl. pose proof Hb as [Hlen Hcap Hsz Hbytes].
  pose proof PTRDIFF_MAX_eq as HM. pose proof two64_eq as H64.
  unfold EmplaceBack. destruct (Z.ltb_spec (size_ v) (Capacity v)) as [Hroom|Hfull].
  - eapply always_bind.
    { eapply always_unwind; [by eapply construct_at_length|]. by intros e He. }
    intros b [Hb' Hv].
    eapply always_bind; [apply RawMemory_index_always|].
    intros r _. cbn. rewrite wrap_small by lia.
    split; [|split; [done|unfold Capacity in *; simpl; lia]].
    apply bounded_same; [done | done | lia].
  - destruct (bounded_full v Hb Hfull) as (Heq & Hs & Hg & Hgs & Hgfit).
    rewrite new_capacity_grown by lia.
    eapply always_bind.
    { eapply always_unwind; [by apply RawMemory_sized_always|]. by intros e He. }
    intros [nb c] (Hc & _ & Hnbytes & Hnb). simpl in Hc, Hnbytes, Hnb. subst c.
    specialize (Hnb Hgfit).
    eapply always_bind.
    { eapply always_unwind; [by eapply construct_at_length|]. by intros e He. }
    intros nb1 [Hnb1 _]. cbn [buffer_] in Hnb1.
    eapply always_bind.
    { eapply always_unwind; [by eapply UninitializedMoveOrCopy_length|].
      intros [ob nb2] [Hob Hnb2]. cbn. split; [|done].
      by apply bounded_with_slots. }
    intros [ob nb2] (Hob & Hnb2 & _). simpl in Hob, Hnb2.
    eapply always_bind; [by eapply destroy_n_length|].
    intros ob' Hob'.
    eapply always_bind; [apply RawMemory_index_always|].
    intros r _. cbn. rewrite wrap_small by lia.
    split; [|split; [done|unfold Capacity in *; simpl; lia]].
    destruct Hgs. apply bounded_intro; rewrite ?Hnb2, ?Hnb1; lia.
Qed.

Lemma Emplace_always (v : Vector T) (pos : Z) (args : Args) :
  bounded v →
  always (λ s, bounded s.1) (λ r, bounded r.1.1) (Emplace v pos args).
Proof.
  intros Hb. pose proof (bounded_length v Hb) as Hl. pose proof Hb as [Hlen Hcap Hsz Hbytes].
  pose proof PTRDIFF_MAX_eq as HM. pose proof two64_eq as H64.
  unfold Emplace.
  destruct (Z.leb_spec 0 pos); [|done]. destruct (Z.leb_spec pos (size_ v)); [|done].
  cbn [assert andb mbind result_bind].
  destruct (Z.eqb_spec pos (size_ v));
    [|destruct (Z.ltb_spec (size_ v) (Capacity v)) as [Hroom|Hfull]].
  - eapply always_bind.
    { eapply always_mono;
        [by apply EmplaceBack_always | by intros ? [? _] | by intros ? H'; apply H']. }
    by intros [[v' leak] r] [Hb' _].
  - destruct (construct args); [|done].
    eapply always_bind.
    { eapply always_unwind; [by eapply move_construct_at_length|].
      intros e He. by apply bounded_with_slots. }
    intros b [Hb1 Hv].
    eapply always_bind.
    { eapply always_unwind; [by eapply move_backward_length|].
      intros e He. by apply bounded_with_slots. }
    intros b2 Hb2. cbn beta in Hb2.
    eapply always_bind; [apply RawMemory_index_always|].
    intros i _.
    eapply always_bind.
    { eapply always_unwind; [by eapply move_assign_from_length|].
      intros e He. by apply bounded_with_slots. }
    intros b3 Hb3. cbn beta in Hb3. cbn. rewrite wrap_small by lia.
    apply bounded_same; [done | done | lia].
  - destruct (bounded_full v Hb Hfull) as (Heq & Hs & Hg & Hgs & Hgfit).
    rewrite new_capacity_grown by lia.
    eapply always_bind.
    { eapply always_unwind; [by apply RawMemory_sized_always|]. by intros e He. }
    intros [nb c] (Hc & _ & Hnbytes & Hnb). simpl in Hc, Hnbytes, Hnb. subst c.
    specialize (Hnb Hgfit).
    eapply always_bind.
    { eapply always_unwind; [by eapply construct_at_length|]. by intros e He. }
    intros nb1 [Hnb1 _]. cbn [buffer_] in Hnb1.
    eapply always_bind.
    { eapply always_unwind; [by eapply UninitializedMoveOrCopy_length|].
      intros [ob nb2] [Hob Hnb2].
      eapply always_bind; [by eapply (destroy_at_length (λ s : state T, bounded s.1))|].
      intros nb' _. by apply bounded_with_slots. }
    intros [ob nb2] (Hob & Hnb2 & _). simpl in Hob, Hnb2.
    eapply always_bind.
    { eapply always_unwind; [by eapply UninitializedMoveOrCopy_length|].
      intros [ob' nb3] [Hob' Hnb3].
      eapply always_bind; [by eapply (destroy_n_length (λ s : state T, bounded s.1))|].
      intros nb' _. apply bounded_with_slots; [done | simpl in *; lia]. }
    intros [ob' nb3] (Hob' & Hnb3 & _). simpl in Hob', Hnb3.
    eapply always_bind; [by eapply destroy_n_length|].
    intros ob'' _. cbn. rewrite wrap_small by lia.
    destruct Hgs. apply bounded_intro; rewrite ?Hnb3, ?Hnb2, ?Hnb1; lia.
Qed.

Lemma PopBack_always {E} (PE : E → Prop) (v : Vector T) :
  bounded v →
  always PE (λ r, bounded r.1.1 ∧ size_ r.1.1 = size_ v - 1) (PopBack v).
Proof.
  intros Hb. pose proof (bounded_length v Hb) as Hl. pose proof Hb as [Hlen Hcap Hsz Hbytes].
  pose proof PTRDIFF_MAX_eq as HM. pose proof two64_eq as H64.
  unfold PopBack, destroy_n. simpl.
  eapply always_bind.
  { eapply always_bind; [by eapply destroy_at_length|]. intros b Hb'. exact Hb'. }
  intros b [Hb' Hin]. cbn.
  assert (size_ v ≠ 0).
  { intros E0. rewrite E0 in Hin. change (wrap (0 - 1)) with (2 ^ 64 - 1) in Hin. lia. }
  rewrite wrap_small in * by lia.
  split; [|done]. apply bounded_same; [done | done | lia].
Qed.

Lemma Erase_always (v : Vector T) (pos : Z) :
  bounded v →
  always (λ s, bounded s.1) (λ r, bounded r.1.1) (Erase v pos).
Proof.
  intros Hb. pose proof (bounded_length v Hb) as Hl. pose proof Hb as [Hlen Hcap Hsz Hbytes].
  pose proof PTRDIFF_MAX_eq as HM. pose proof two64_eq as H64.
  unfold Erase.
  destruct (Z.leb_spec 0 pos); [|done]. destruct (Z.ltb_spec pos (size_ v)); [|done].
  cbn [assert andb mbind result_bind].
  eapply always_bind.
  { eapply always_unwind; [by eapply move_length|].
    intros e He. by apply bounded_with_slots. }
  intros b Hb1. cbn beta in Hb1.
  eapply always_bind; [by eapply destroy_at_length|].
  intros b2 [Hb2 _]. cbn. rewrite wrap_small by lia.
  apply bounded_same; [done | lia | lia].
Qed.

Lemma Reserve_always (v : Vector T) (n : Z) :
  bounded v → is_size_t n →
  always (λ s, bounded s.1)
         (λ r, bounded r.1.1 ∧ n ≤ Capacity r.1.1 ∧ size_ r.1.1 = size_ v ∧
               Capacity v ≤ Capacity r.1.1)
         (Reserve v n).
Proof.
  intros Hb Hn. pose proof Hb as [Hlen Hcap Hsz Hbytes].
  unfold Reserve. destruct (Z.leb_spec n (Capacity v)); [cbn; by auto with lia|].
  eapply always_bind.
  { eapply always_unwind; [by apply RawMemory_sized_always|]. by intros e He. }
  intros [nb c] (Hc & Hnb & Hnbytes & _). simpl in Hc, Hnb, Hnbytes. subst c.
  eapply always_bind.
  { eapply always_unwind; [by eapply UninitializedMoveOrCopy_length|].
    intros [ob nb2] [Hob Hnb2]. by apply bounded_with_slots. }
  intros [ob nb2] (Hob & Hnb2 & Hv). simpl in Hob, Hnb2, Hv.
  eapply always_bind; [by eapply destroy_n_length|].
  intros ob' _. cbn. unfold Capacity in *. simpl.
  split; [|lia]. destruct Hn.
  apply bounded_intro; rewrite ?Hnb2; [done | done | | done].
  destruct (decide (0 < size_ v)) as [Hpos|]; [|lia]. destruct (Hv Hpos). lia.
Qed.

Lemma Resize_always (v : Vector T) (n : Z) :
  bounded v → is_size_t n →
  always (λ s, bounded s.1) (λ r, bounded r.1.1) (Resize v n).
Proof.
  intros Hb Hn. pose proof Hb as [Hlen Hcap Hsz Hbytes]. pose proof Hn as [Hn0 Hn1].
  pose proof SIZE_MAX_eq as HS. pose proof two64_eq as H64.
  unfold Resize. destruct (Z.eqb_spec n (size_ v)); [done|].
  destruct (Z.ltb_spec n (size_ v)).
  - eapply always_bind; [by eapply destroy_n_length|].
    intros b Hb1. cbn beta in Hb1. cbn. apply bounded_same; [done | done | lia].
  - eapply always_bind.
    { eapply always_mono; [by apply Reserve_always | by intros ? ? | intros ? H'; apply H']. }
    intros [[v' leak] []] (Hb' & _ & Hs & _). simpl in Hb', Hs.
    eapply always_bind.
    { eapply always_unwind; [by eapply uninitialized_value_construct_n_length|].
      intros e He. by apply bounded_with_slots. }
    intros b [Hb1 Hv]. cbn. rewrite Hs in Hv.
    rewrite wrap_small in Hv by lia. destruct Hv as [_ Hv]; [lia|].
    apply bounded_same; [done | done | lia].
Qed.

Lemma Vector_copy_always (other : Vector T) :
  bounded other →
  always (λ _, True) (λ v, bounded v ∧ size_ v = size_ other) (Vector_copy other).
Proof.
  intros Hb. pose proof (bounded_length other Hb) as Hl.
  pose proof Hb as [Hlen Hcap Hsz Hbytes].
  pose proof PTRDIFF_MAX_eq as HM. pose proof SIZE_MAX_eq as HS.
  unfold Vector_copy.
  eapply always_bind.
  { eapply always_unwind; [apply RawMemory_sized_always; split; lia|]. by intros e He. }
  intros [nb c] (Hc & Hnb & Hnbytes & _). simpl in Hc, Hnb, Hnbytes. subst c.
  eapply always_bind.
  { eapply always_unwind; [by eapply uninitialized_copy_n_length|]. by intros e He. }
  intros b [Hb1 Hv]. cbn [buffer_] in Hb1, Hv. cbn. split; [|done].
  apply bounded_intro; rewrite ?Hb1; [done | lia | | done].
  destruct (decide (0 < size_ other)) as [Hpos|]; [|lia]. destruct (Hv Hpos). lia.
Qed.

Lemma Vector_sized_always (n : Z) :
  is_size_t n →
  always (λ _, True) (λ v : Vector T, bounded v) (Vector_sized n).
Proof.
  intros Hn. unfold Vector_sized.
  eapply always_bind.
  { eapply always_unwind; [by apply RawMemory_sized_always|]. by intros e He. }
  intros [nb c] (Hc & Hnb & Hnbytes & _). simpl in Hc, Hnb, Hnbytes. subst c.
  eapply always_bind.
  { eapply always_unwind; [by eapply uninitialized_value_construct_n_length|].
    by intros e He. }
  intros b [Hb1 Hv]. cbn [buffer_] in Hb1, Hv. cbn. destruct Hn.
  apply bounded_intro; rewrite ?Hb1; [done | done | | done].
  destruct (decide (0 < n)) as [Hpos|]; [|lia]. destruct (Hv Hpos). lia.
Qed.

Lemma copy_assign_always (v rhs : Vector T) :
  bounded v → bounded rhs →
  always (λ s, bounded s.1) (λ r, bounded r.1.1) (copy_assign v (Another rhs)).
Proof.
  intros Hb Hbr. pose proof (bounded_length rhs Hbr) as Hl.
  pose proof Hb as [Hlen Hcap Hsz Hbytes]. pose proof Hbr as [Hrlen Hrcap Hrsz Hrbytes].
  pose proof PTRDIFF_MAX_eq as HM. pose proof two64_eq as H64.
  unfold copy_assign. destruct (Z.ltb_spec (Capacity v) (size_ rhs)).
  - eapply always_bind.
    { eapply always_unwind; [by apply Vector_copy_always|]. by intros e He. }
    intros v' [Hb' _]. cbn [Swap RawMemory_Swap].
    eapply (always_bind _ (λ _, True)).
    { unfold Vector_destroy. eapply always_bind; [by eapply destroy_n_length|].
      by intros b _. }
    intros leak _. cbn. apply bounded_eta; [done|]. destruct Hb'. lia.
  - destruct (Z.ltb_spec (size_ rhs) (size_ v)).
    + eapply always_bind.
      { eapply always_unwind; [by eapply copy_length|].
        intros e He. by apply bounded_with_slots. }
      intros b Hb1. cbn beta in Hb1.
      eapply always_bind; [by eapply destroy_n_length|].
      intros b2 Hb2. cbn beta in Hb2. cbn. apply bounded_same; [done | lia | lia].
    + eapply always_bind.
      { eapply always_unwind; [by eapply copy_length|].
        intros e He. by apply bounded_with_slots. }
      intros b Hb1. cbn beta in Hb1.
      eapply always_bind.
      { eapply always_unwind; [by eapply uninitialized_copy_n_length|].
        intros e He. apply bounded_with_slots; [done | simpl in *; lia]. }
      intros b2 [Hb2 Hv]. cbn. rewrite wrap_small in Hv by lia.
      apply bounded_same; [done | lia |].
      destruct (decide (0 < size_ rhs - size_ v)) as [Hpos|]; [|lia].
      destruct (Hv Hpos). lia.
Qed.

Lemma discard_always {A} (PE PR : Vector T → Prop) (m : result (state T) (state T * A)) :
  always (λ s, PE s.1) (λ r, PR r.1.1) m →
  always (λ s, PE s.1) (λ s, PR s.1) (discard m).
Proof. intros Hm. unfold discard. eapply always_bind; [exact Hm|]. by intros r Hr. Qed.

Lemma run_always (c : call) (v : Vector T) :
  bounded v → well_typed c →
  always (λ s, bounded s.1) (λ s, bounded s.1) (run c v).
Proof.
  intros Hb Hc. destruct c; simpl in *; apply discard_always.
  - eapply always_mono; [by apply EmplaceBack_always | by intros ? [? _] | by intros ? [? _]].
  - unfold PushBack. eapply always_bind.
    { eapply always_mono;
        [by apply EmplaceBack_always | by intros ? [? _] | intros ? H'; exact H']. }
    by intros [[v' leak] r] [Hb' _].
  - by apply Emplace_always.
  - by apply Emplace_always.
  - eapply always_mono;
      [by apply (PopBack_always (λ s : state T, bounded s.1)) | by intros
       | by intros ? [? _]].
  - by apply Erase_always.
  - eapply always_mono; [by apply Reserve_always | by intros | by intros ? [? _]].
  - by apply Resize_always.
Qed.

Lemma reachable_by_bounded (ok : call → Prop) (v : Vector T) :
  (∀ c, ok c → well_typed c) → reachable_by ok v → bounded v.
Proof.
  intros Hok.
  induction 1 as [ | n v Hn Hrun | other v _ IH Hrun | other _ IH | other _ IH
                   | c v v' leak _ IH Hc Hrun | c v v' leak _ IH Hc Hrun
                   | v v' leak _ IH Hrun
                   | v rhs v' leak _ IH _ IHr Hrun | v rhs v' leak _ IH _ IHr Hrun
                   | v rhs _ IH _ IHr | v rhs rhs' _ IH _ IHr Hrhs
                   | v i r x _ IH Hr
                   | v other _ IH _ IHo | v other _ IH _ IHo ].
  - apply bounded_default.
  - exact (always_Returns _ _ _ _ (Vector_sized_always n Hn) Hrun).
  - by destruct (always_Returns _ _ _ _ (Vector_copy_always other IH) Hrun).
  - apply bounded_eta; [done|]. destruct IH. lia.
  - apply bounded_default.
  - exact (always_Returns _ _ _ _ (run_always c v IH (Hok c Hc)) Hrun).
  - exact (always_Raises _ _ _ _ (run_always c v IH (Hok c Hc)) Hrun).
  - simpl in Hrun. by inversion Hrun; subst.
  - exact (always_Returns _ _ _ _ (copy_assign_always v rhs IH IHr) Hrun).
  - exact (always_Raises _ _ _ _ (copy_assign_always v rhs IH IHr) Hrun).
  - apply bounded_eta; [done|]. destruct IHr. lia.
  - simpl in Hrhs. inversion Hrhs; subst.
    apply bounded_eta; [done|]. destruct IH. lia.
  - apply bounded_with_slots; [done | apply length_store].
  - apply bounded_eta; [done|]. destruct IHo. lia.
  - apply bounded_eta; [done|]. destruct IH. lia.
Qed.

Lemma reachable_bounded (v : Vector T) : reachable v → bounded v.
Proof. by apply reachable_by_bounded. Qed.

Lemma appends_trace (v : Vector T) (argss : list Args) (trace : list (Vector T)) :
  bounded v → appends v argss = Some trace →
  length trace = length argss ∧
  (∀ i v', trace !! i = Some v' →
     size_ v' = size_ v + Z.of_nat i + 1 ∧ 0 ≤ size_ v' ≤ Capacity v') ∧
  (∀ i a b, (v :: trace) !! i = Some a → (v :: trace) !! S i = Some b →
     Capacity a ≤ Capacity b).
Proof.
  revert v trace. induction argss as [|args argss IH]; intros v trace Hb Hrun; simpl in Hrun.
  - inversion Hrun; subst. split; [done|]. split; [done|].
    intros [|i] a b Ha Hb'; simpl in *; done.
  - pose proof (EmplaceBack_always v args Hb) as Hstep.
    destruct (EmplaceBack v args) as [[[v1 leak] r]| | |]; try done.
    destruct Hstep as (Hb1 & Hs1 & Hc1). simpl in Hb1, Hs1, Hc1.
    destruct (appends v1 argss) as [trace1|] eqn:Hrest; [|done].
    simpl in Hrun. inversion Hrun; subst.
    destruct (IH v1 trace1 Hb1 Hrest) as (Hlen & Hsizes & Hcaps).
    split; [simpl; by rewrite Hlen|]. split.
    + intros [|i] v' Hv'; simpl in Hv'.
      * inversion Hv'; subst. split; [lia|]. by apply bounded_size_capacity.
      * destruct (Hsizes i v' Hv') as [Hs' Hc']. split; [lia|done].
    + intros [|i] a b Ha Hb'; simpl in Ha, Hb'.
      * by inversion Ha; inversion Hb'; subst.
      * by apply (Hcaps i).
Qed.

Lemma last_default_cons {A} (a b : A) (l : list A) :
  default a (last (b :: l)) = default b (last l).
Proof. destruct l as [|c l]; [done|]. by rewrite last_cons_cons; destruct (last (c :: l)) eqn:E; [|by apply last_None in E]. Qed.

Lemma appends_complete (v : Vector T) (l0 : list T) (argss : list Args) (xs : list T) :
  models v l0 →
  Forall2 (λ args x, construct args = Some x) argss xs →
  relocatable (l0 ++ xs) →
  (∀ n, 0 < n ≤ 2 * Z.of_nat (length l0 + length xs) →
        can_allocate (n * sizeof_T) = true) →
  ∃ trace, appends v argss = Some trace ∧ models (default v (last trace)) (l0 ++ xs).
Proof.
  intros Hm Hargs. revert v l0 Hm.
  induction Hargs as [|args x argss xs Hx _ IH]; intros v l0 Hm Hrel Halloc.
  - exists []. by rewrite app_nil_r.
  - destruct (EmplaceBack_spec v l0 args x Hm Hx) as (v1 & leak & Hrun & Hm1 & _).
    { intros Hfull. split.
      - apply Halloc. pose proof (models_size _ _ Hm) as Hs.
        unfold grown. simpl. lia.
      - by apply relocatable_app in Hrel as [? _]. }
    destruct (IH v1 (l0 ++ [x]) Hm1) as (trace & Htrace & Hm').
    { by rewrite <-app_assoc. }
    { intros n Hn. apply Halloc. rewrite length_app in Hn. simpl in *. lia. }
    exists (v1 :: trace). simpl. rewrite Hrun, Htrace. split; [done|].
    rewrite last_default_cons. by rewrite <-app_assoc in Hm'.
Qed.

End Invariant.

Section Soundness.
Context {T Args : Type} {elem : Element T Args} {heap : Heap}.

Local Abbreviation block := (list (option T)).

(** A vector stays well formed through every call that asks for a number of
    slots within range, whether the call returns or raises. *)

Lemma well_formed_intro (v : Vector T) :
  bounded v → Z.of_nat (length (slots v)) = Capacity v →
  alive_below (Z.to_nat (size_ v)) (slots v) → well_formed v.
Proof.
  intros Hb Hfull Hlive. destruct (alive_below_take _ _ Hlive) as (l & Hl & Ht).
  exists l. split; [done|]. split; [done|]. destruct Hb as [_ _ Hsz _].
  split; [lia|]. by rewrite Hl.
Qed.

Lemma well_formed_inv (v : Vector T) :
  well_formed v →
  bounded v ∧ Z.of_nat (length (slots v)) = Capacity v ∧
  alive_below (Z.to_nat (size_ v)) (slots v).
Proof.
  intros (l & Hb & Hfull & Hs & Ht). split; [done|]. split; [done|].
  rewrite Hs, Nat2Z.id. intros i Hi.
  destruct (lookup_lt_is_Some_2 l i Hi) as [x Hx]. exists x.
  rewrite <-(lookup_take_lt _ (length l)) by done. by rewrite Ht, list_lookup_fmap, Hx.
Qed.

Lemma well_formed_same (v : Vector T) (b : block) (sz : Z) :
  well_formed v → length b = length (slots v) → 0 ≤ sz ≤ Capacity v →
  alive_below (Z.to_nat sz) b →
  well_formed {| data_ := {| buffer_ := b; capacity_ := Capacity v |}; size_ := sz |}.
Proof.
  intros (Hb & Hfull & _)%well_formed_inv Hlen Hsz Hlive.
  apply well_formed_intro; [|unfold slots, Capacity in *; simpl; by rewrite Hlen | done].
  apply bounded_same; [done | done | lia].
Qed.

Lemma well_formed_with_slots (v : Vector T) (b : block) :
  well_formed v → length b = length (slots v) →
  alive_below (Z.to_nat (size_ v)) b → well_formed (with_slots v b).
Proof.
  intros Hwf Hlen Hlive. apply well_formed_same; [done | done | | done].
  destruct (well_formed_inv _ Hwf) as (Hb & _). by apply bounded_size_capacity.
Qed.

Lemma well_formed_eta (v : Vector T) (sz : Z) :
  well_formed v → 0 ≤ sz ≤ size_ v →
  well_formed {| data_ := {| buffer_ := buffer_ (data_ v); capacity_ := capacity_ (data_ v) |};
                 size_ := sz |}.
Proof.
  intros Hwf Hsz. destruct (well_formed_inv _ Hwf) as (Hb & Hfull & Hlive).
  apply (well_formed_same v); [done | done | |].
  - pose proof (bounded_size_capacity _ Hb). lia.
  - eapply alive_below_le; [|exact Hlive]. lia.
Qed.

Lemma well_formed_default : well_formed (Vector_default (T:=T)).
Proof. exists []. by apply (models_intro [] [] []). Qed.

Lemma EmplaceBack_sound (v : Vector T) (args : Args) :
  well_formed v →
  always (λ s, well_formed s.1) (λ r, well_formed r.1.1) (EmplaceBack v args).
Proof.
  intros Hwf. apply always_returns.
  - destruct (well_formed_inv _ Hwf) as (Hb & Hfull & Hlive).
    pose proof (bounded_length v Hb) as Hl. pose proof Hb as [Hlen Hcap Hsz Hbytes].
    pose proof PTRDIFF_MAX_eq as HM. pose proof two64_eq as H64.
    unfold EmplaceBack. destruct (Z.ltb_spec (size_ v) (Capacity v)) as [Hroom|Hfull'].
    + eapply always_bind.
      { eapply always_unwind; [by eapply construct_at_length|]. by intros e He. }
      intros b _. eapply always_bind; [apply RawMemory_index_always|]. done.
    + destruct (bounded_full v Hb Hfull') as (Heq & Hs & Hg & Hgs & Hgfit).
      rewrite new_capacity_grown by lia.
      eapply always_bind.
      { eapply always_unwind; [by apply RawMemory_sized_always|]. by intros e He. }
      intros [nb c] _.
      eapply always_bind.
      { eapply always_unwind; [by eapply construct_at_length|]. by intros e He. }
      intros nb1 _.
      eapply always_bind.
      { eapply always_unwind.
        - eapply always_and;
            [by eapply UninitializedMoveOrCopy_length
            | by eapply UninitializedMoveOrCopy_keeps].
        - intros [ob nb2] [[Hob _] Hlive']. cbn. by apply well_formed_with_slots. }
      intros [ob nb2] _.
      eapply always_bind; [by eapply destroy_n_length|].
      intros ob' _.
      eapply always_bind; [apply RawMemory_index_always|]. done.
  - intros [[v' leak] r] Hrun. destruct Hwf as [l Hm].
    destruct (EmplaceBack_when_quiet v l args Hm)
      as (x & v'' & leak' & r' & Hrun' & _ & _ & _ & Hm' & _);
      [by eapply EmplaceBack_quiet|].
    rewrite Hrun in Hrun'. injection Hrun' as <- _ _. by exists (l ++ [x]).
Qed.

Lemma Emplace_sound (v : Vector T) (pos : Z) (args : Args) :
  well_formed v →
  always (λ s, well_formed s.1) (λ r, well_formed r.1.1) (Emplace v pos args).
Proof.
  intros Hwf.
  destruct (decide (0 ≤ pos ≤ size_ v)) as [Hpos|Hpos].
  2:{ unfold Emplace.
      destruct (Z.leb_spec 0 pos); [|done]. by destruct (Z.leb_spec pos (size_ v)); [lia|]. }
  apply always_returns.
  - destruct (well_formed_inv _ Hwf) as (Hb & Hfull & Hlive).
    pose proof (bounded_length v Hb) as Hl. pose proof Hb as [Hlen Hcap Hsz Hbytes].
    pose proof PTRDIFF_MAX_eq as HM. pose proof two64_eq as H64.
    unfold Emplace.
    destruct (Z.leb_spec 0 pos); [|done]. destruct (Z.leb_spec pos (size_ v)); [|done].
    cbn [assert andb mbind result_bind].
    destruct (Z.eqb_spec pos (size_ v));
      [|destruct (Z.ltb_spec (size_ v) (Capacity v)) as [Hroom|Hfull']].
    + eapply always_bind.
      { eapply always_mono; [by apply EmplaceBack_sound | by intros ? ? | by intros ? ?]. }
      by intros [[v' leak] r] _.
    + destruct (construct args); [|done].
      eapply always_bind.
      { eapply always_unwind;
          [eapply always_and;
             [by eapply move_construct_at_length | by eapply move_construct_at_keeps]|].
        intros e [He Hlive']. by apply well_formed_with_slots. }
      intros b [[Hb1 _] Hlive1].
      eapply always_bind.
      { eapply always_unwind;
          [eapply always_and;
             [by eapply move_backward_length | by eapply move_backward_keeps]|].
        intros e [He Hlive']. apply well_formed_with_slots; [done | congruence | done]. }
      intros b2 [Hb2 Hlive2]. cbn beta in Hb2, Hlive2.
      eapply always_bind; [apply RawMemory_index_always|].
      intros i _.
      eapply always_bind.
      { eapply always_unwind;
          [eapply always_and;
             [by eapply move_assign_from_length | by eapply move_assign_from_keeps]|].
        intros e [He Hlive']. apply well_formed_with_slots; [done | congruence | done]. }
      done.
    + destruct (bounded_full v Hb Hfull') as (Heq & Hs & Hg & Hgs & Hgfit).
      rewrite new_capacity_grown by lia.
      eapply always_bind.
      { eapply always_unwind; [by apply RawMemory_sized_always|]. by intros e He. }
      intros [nb c] _.
      eapply always_bind.
      { eapply always_unwind; [by eapply construct_at_length|]. by intros e He. }
      intros nb1 Hnb1.
      eapply always_bind.
      { eapply always_unwind.
        - eapply always_and;
            [by eapply UninitializedMoveOrCopy_length
            | by eapply UninitializedMoveOrCopy_keeps].
        - intros [ob nb2] [[Hob Hnb2] Hlive'].
          eapply always_bind;
            [by eapply (destroy_at_length (λ s : state T, well_formed s.1))|].
          intros nb' _. by apply well_formed_with_slots. }
      intros [ob nb2] [(Hob & Hnb2 & _) Hlive1]. simpl in Hob, Hnb2, Hlive1.
      eapply always_bind.
      { eapply always_unwind.
        - eapply always_and;
            [by eapply UninitializedMoveOrCopy_length
            | by eapply UninitializedMoveOrCopy_keeps].
        - intros [ob' nb3] [[Hob' Hnb3] Hlive'].
          eapply always_bind;
            [by eapply (destroy_n_length (λ s : state T, well_formed s.1))|].
          intros nb' _. apply well_formed_with_slots; [done | simpl in *; congruence | done]. }
      intros [ob' nb3] _.
      eapply always_bind; [by eapply destroy_n_length|]. done.
  - intros [[v' leak] r] Hrun. destruct Hwf as [l Hm].
    destruct (Emplace_when_quiet v l pos args Hm Hpos)
      as (x & v'' & leak' & r' & Hrun' & _ & _ & _ & _ & Hm' & _);
      [by eapply Emplace_quiet|].
    rewrite Hrun in Hrun'. injection Hrun' as <- _ _. by eexists.
Qed.

Lemma PopBack_sound {E} (PE : E → Prop) (v : Vector T) :
  well_formed v → always PE (λ r, well_formed r.1.1) (PopBack v).
Proof.
  intros Hwf. destruct (well_formed_inv _ Hwf) as (Hb & _).
  pose proof (PopBack_always PE v Hb) as Hrun.
  destruct (PopBack v) as [[[v' leak] []]| | |] eqn:Hpop; [|done..].
  destruct Hrun as [Hb' Hs']. simpl in Hb', Hs' |- *.
  destruct Hwf as [l Hm]. pose proof (models_size _ _ Hm) as Hs.
  pose proof (bounded_size_capacity _ Hb') as Hsz'.
  destruct l as [|x l _] using rev_ind; [simpl in Hs; lia|].
  destruct (PopBack_spec (E:=E) v l x Hm) as (v'' & Hpop' & Hm' & _).
  rewrite Hpop in Hpop'. injection Hpop' as <- _. by exists l.
Qed.

Lemma Erase_sound (v : Vector T) (pos : Z) :
  well_formed v →
  always (λ s, well_formed s.1) (λ r, well_formed r.1.1) (Erase v pos).
Proof.
  intros Hwf.
  destruct (decide (0 ≤ pos < size_ v)) as [Hpos|Hpos].
  2:{ unfold Erase.
      destruct (Z.leb_spec 0 pos); [|done]. by destruct (Z.ltb_spec pos (size_ v)); [lia|]. }
  apply always_returns.
  - destruct (well_formed_inv _ Hwf) as (Hb & Hfull & Hlive).
    unfold Erase.
    destruct (Z.leb_spec 0 pos); [|done]. destruct (Z.ltb_spec pos (size_ v)); [|done].
    cbn [assert andb mbind result_bind].
    eapply always_bind.
    { eapply always_unwind;
        [eapply always_and; [by eapply move_length | by eapply move_keeps]|].
      intros e [He Hlive']. by apply well_formed_with_slots. }
    intros b _.
    eapply always_bind; [by eapply destroy_at_length|]. done.
  - intros [[v' leak] r] Hrun. destruct Hwf as [l Hm].
    destruct (Erase_when_quiet v l pos Hm Hpos) as (v'' & Hrun' & Hm' & _);
      [by eapply Erase_quiet|].
    rewrite Hrun in Hrun'. injection Hrun' as <- _ _. by eexists.
Qed.

Lemma Reserve_sound (v : Vector T) (n : Z) :
  well_formed v → 0 ≤ n → n * sizeof_T ≤ SIZE_MAX →
  always (λ s, well_formed s.1) (λ r, well_formed r.1.1) (Reserve v n).
Proof.
  intros Hwf Hn Hfit.
  assert (Hsize_t : is_size_t n) by (pose proof sizeof_T_spec; split; nia).
  apply always_returns.
  - destruct (well_formed_inv _ Hwf) as (Hb & Hfull & Hlive).
    unfold Reserve. destruct (Z.leb_spec n (Capacity v)); [done|].
    eapply always_bind.
    { eapply always_unwind; [by apply RawMemory_sized_always|]. by intros e He. }
    intros [nb c] _.
    eapply always_bind.
    { eapply always_unwind.
      - eapply always_and;
          [by eapply UninitializedMoveOrCopy_length
          | by eapply UninitializedMoveOrCopy_keeps].
      - intros [ob nb2] [[Hob _] Hlive']. by apply well_formed_with_slots. }
    intros [ob nb2] _.
    eapply always_bind; [by eapply destroy_n_length|]. done.
  - intros [[v' leak] []] Hrun. destruct Hwf as [l Hm].
    destruct (Reserve_when_quiet v l n Hm Hfit) as (v'' & leak' & Hrun' & _ & _ & _ & _ & Hm').
    { intros Hcap. by eapply Reserve_returns. }
    rewrite Hrun in Hrun'. injection Hrun' as <- _. by eexists.
Qed.

Lemma Resize_sound (v : Vector T) (n : Z) :
  well_formed v → 0 ≤ n → n * sizeof_T ≤ SIZE_MAX →
  always (λ s, well_formed s.1) (λ r, well_formed r.1.1) (Resize v n).
Proof.
  intros Hwf Hn Hfit.
  assert (Hsize_t : is_size_t n) by (pose proof sizeof_T_spec; split; nia).
  destruct (well_formed_inv _ Hwf) as (Hb & Hfull & Hlive).
  pose proof Hb as [Hlen Hcap Hsz Hbytes].
  pose proof SIZE_MAX_eq as HS. pose proof two64_eq as H64. destruct Hsize_t as [_ Hn1].
  unfold Resize. destruct (Z.eqb_spec n (size_ v)); [done|].
  destruct (Z.ltb_spec n (size_ v)).
  - eapply always_bind.
    { eapply always_mono;
        [eapply always_and;
           [by eapply (destroy_n_length (λ s : state T, well_formed s.1))
           | eapply (destroy_n_keeps (λ _, True) (Z.to_nat n)); [lia|];
             eapply alive_below_le; [|exact Hlive]; lia]
        | by intros e [He _] | intros r Hr; exact Hr]. }
    intros b [Hb1 Hlive1]. cbn. apply well_formed_same; [done | done | lia | done].
  - eapply always_bind.
    { eapply always_mono;
        [eapply always_and; [by apply Reserve_sound | by apply Reserve_always]
        | by intros e [He _] | intros r Hr; exact Hr]. }
    intros [[v' leak] []] [Hwf' (Hb' & Hcap' & Hs' & _)]. simpl in Hwf', Hb', Hcap', Hs'.
    destruct (well_formed_inv _ Hwf') as (_ & Hfull' & Hlive').
    eapply always_bind.
    { eapply always_unwind.
      - eapply always_and;
          [eapply always_and;
             [by eapply uninitialized_value_construct_n_length
             | eapply (uninitialized_value_construct_n_keeps (Z.to_nat (size_ v')));
               [lia | done]]
          | eapply always_mono;
              [eapply (uninitialized_value_construct_n_fills (Z.to_nat (size_ v')));
                 [lia | done]
              | intros e He; exact He | intros r Hr; exact Hr]].
      - intros e [[He Hlive1] _]. cbn. by apply well_formed_with_slots. }
    intros b [[[Hb1 _] _] Hfill]. cbn.
    apply well_formed_same; [done | done | lia |].
    rewrite wrap_small in Hfill by lia.
    replace (Z.to_nat n) with (Z.to_nat (size_ v') + Z.to_nat (n - size_ v'))%nat by lia.
    done.
Qed.

Lemma Vector_sized_sound (n : Z) :
  is_size_t n →
  always (λ _, True) (λ v : Vector T, well_formed v) (Vector_sized n).
Proof.
  intros Hn. unfold Vector_sized.
  eapply always_bind.
  { eapply always_unwind; [by apply RawMemory_sized_always|]. by intros e He. }
  intros [nb c] (Hc & Hnb & Hnbytes & _). simpl in Hc, Hnb, Hnbytes. subst c.
  eapply always_bind.
  { eapply always_unwind.
    - eapply always_and;
        [by eapply uninitialized_value_construct_n_length
        | eapply (uninitialized_value_construct_n_fills 0); [done | by intros i Hi; lia]].
    - by intros e He. }
  intros b [[Hb1 Hv] Hfill]. cbn [buffer_] in Hb1, Hv. cbn. destruct Hn.
  assert (Z.of_nat (length b) = n).
  { destruct (decide (0 < n)) as [Hpos|]; [|lia]. destruct (Hv Hpos). lia. }
  apply well_formed_intro; [|done|done].
  apply bounded_intro; rewrite ?Hb1; [done | done | lia | done].
Qed.

Lemma Vector_copy_sound (other : Vector T) :
  well_formed other →
  always (λ _, True) (λ v, well_formed v) (Vector_copy other).
Proof.
  intros Hwf. destruct (well_formed_inv _ Hwf) as (Hb & _).
  pose proof (bounded_length other Hb) as Hl.
  pose proof Hb as [Hlen Hcap Hsz Hbytes].
  pose proof PTRDIFF_MAX_eq as HM. pose proof SIZE_MAX_eq as HS.
  unfold Vector_copy.
  eapply always_bind.
  { eapply always_unwind; [apply RawMemory_sized_always; split; lia|]. by intros e He. }
  intros [nb c] (Hc & Hnb & Hnbytes & _). simpl in Hc, Hnb, Hnbytes. subst c.
  eapply always_bind.
  { eapply always_unwind.
    - eapply always_and;
        [by eapply uninitialized_copy_n_length
        | eapply (uninitialized_copy_n_fills 0); [done | by intros i Hi; lia]].
    - by intros e He. }
  intros b [[Hb1 Hv] Hfill]. cbn [buffer_] in Hb1, Hv. cbn.
  assert (Z.of_nat (length b) = size_ other).
  { destruct (decide (0 < size_ other)) as [Hpos|]; [|lia]. destruct (Hv Hpos). lia. }
  apply well_formed_intro; [|done|done].
  apply bounded_intro; rewrite ?Hb1; [lia | lia | lia | done].
Qed.

Lemma copy_assign_sound (v rhs : Vector T) :
  well_formed v → well_formed rhs →
  always (λ s, well_formed s.1) (λ r, well_formed r.1.1) (copy_assign v (Another rhs)).
Proof.
  intros Hwf Hwfr. apply always_returns.
  - destruct (well_formed_inv _ Hwf) as (Hb & Hfull & Hlive).
    destruct (well_formed_inv _ Hwfr) as (Hbr & _).
    unfold copy_assign. destruct (Z.ltb_spec (Capacity v) (size_ rhs)).
    + eapply always_bind.
      { eapply always_unwind; [by apply Vector_copy_always|]. by intros e He. }
      intros v' _. cbn [Swap RawMemory_Swap].
      eapply (always_bind _ (λ _, True)).
      { unfold Vector_destroy. eapply always_bind; [by eapply destroy_n_length|].
        by intros b _. }
      done.
    + destruct (Z.ltb_spec (size_ rhs) (size_ v)).
      * eapply always_bind.
        { eapply always_unwind;
            [eapply always_and; [by eapply copy_length | by eapply copy_keeps]|].
          intros e [He Hlive']. by apply well_formed_with_slots. }
        intros b _.
        eapply always_bind; [by eapply destroy_n_length|]. done.
      * eapply always_bind.
        { eapply always_unwind;
            [eapply always_and; [by eapply copy_length | by eapply copy_keeps]|].
          intros e [He Hlive']. by apply well_formed_with_slots. }
        intros b [Hb1 Hlive1]. cbn beta in Hb1, Hlive1.
        eapply always_bind.
        { eapply always_unwind;
            [eapply always_and;
               [by eapply uninitialized_copy_n_length
               | eapply (uninitialized_copy_n_keeps (Z.to_nat (size_ v)));
                 [destruct Hb; lia | done]]|].
          intros e [He Hlive']. apply well_formed_with_slots; [done | congruence | done]. }
        done.
  - intros [[v' leak] []] Hrun. destruct Hwf as [l Hm]. destruct Hwfr as [r Hmr].
    destruct (copy_assign_when_quiet v rhs l r Hm Hmr) as (v'' & leak' & Hrun' & Hm' & _);
      [by eapply copy_assign_returns|].
    rewrite Hrun in Hrun'. injection Hrun' as <- _. by eexists.
Qed.

Lemma run_sound (c : call) (v : Vector T) :
  well_formed v → in_range c →
  always (λ s, well_formed s.1) (λ s, well_formed s.1) (run c v).
Proof.
  intros Hwf Hc. destruct c; simpl in *; apply discard_always.
  - by apply EmplaceBack_sound.
  - unfold PushBack. eapply always_bind; [by apply EmplaceBack_sound|].
    by intros [[v' leak] r] Hwf'.
  - by apply Emplace_sound.
  - by apply Emplace_sound.
  - by apply (PopBack_sound (λ s : state T, well_formed s.1)).
  - by apply Erase_sound.
  - destruct Hc. by apply Reserve_sound.
  - destruct Hc. by apply Resize_sound.
Qed.

(** Every vector that a program builds with calls within range is well
    formed: it holds a list of values. *)
Lemma reachable_well_formed (v : Vector T) : reachable_by in_range v → well_formed v.
Proof.
  induction 1 as [ | n v Hn Hrun | other v _ IH Hrun | other _ IH | other _ IH
                   | c v v' leak _ IH Hc Hrun | c v v' leak _ IH Hc Hrun
                   | v v' leak _ IH Hrun
                   | v rhs v' leak _ IH _ IHr Hrun | v rhs v' leak _ IH _ IHr Hrun
                   | v rhs _ IH _ IHr | v rhs rhs' _ IH _ IHr Hrhs
                   | v i r x _ IH Hr
                   | v other _ IH _ IHo | v other _ IH _ IHo ].
  - apply well_formed_default.
  - exact (always_Returns _ _ _ _ (Vector_sized_sound n Hn) Hrun).
  - exact (always_Returns _ _ _ _ (Vector_copy_sound other IH) Hrun).
  - apply well_formed_eta; [done|]. destruct (well_formed_inv _ IH) as ([] & _). lia.
  - apply well_formed_default.
  - exact (always_Returns _ _ _ _ (run_sound c v IH Hc) Hrun).
  - exact (always_Raises _ _ _ _ (run_sound c v IH Hc) Hrun).
  - simpl in Hrun. by inversion Hrun; subst.
  - exact (always_Returns _ _ _ _ (copy_assign_sound v rhs IH IHr) Hrun).
  - exact (always_Raises _ _ _ _ (copy_assign_sound v rhs IH IHr) Hrun).
  - apply well_formed_eta; [done|]. destruct (well_formed_inv _ IHr) as ([] & _). lia.
  - simpl in Hrhs. inversion Hrhs; subst.
    apply well_formed_eta; [done|]. destruct (well_formed_inv _ IH) as ([] & _). lia.
  - destruct (well_formed_inv _ IH) as (Hb & Hfull & Hlive).
    apply well_formed_with_slots; [done | apply length_store | by apply alive_below_store].
  - apply well_formed_eta; [done|]. destruct (well_formed_inv _ IHo) as ([] & _). lia.
  - apply well_formed_eta; [done|]. destruct (well_formed_inv _ IH) as ([] & _). lia.
Qed.

End Soundness.

(** * The properties of the specification

    The statements below are about every vector [v] that holds a list of
    values [l] ([models v l]): its block has [capacity_] slots and the first
    [size_] of them hold objects.  Every vector that a program builds with
    the constructors and the methods is of this kind, whether the calls
    returned or raised, as long as no call asked for a number of slots [n]
    whose byte count [n * sizeof(T)] is not a [size_t] value
    ([reachable_well_formed]). *)

Section Claims.
Context {T Args : Type} {elem : Element T Args} {heap : Heap}.

(** C3. In the growth case of Append ([size_ = capacity]), when the
    constructor of the new element raises, the call raises and the vector it
    leaves is the vector it was given: size, capacity and every element are
    the pre-call ones; nothing is leaked. *)
Theorem EmplaceBack_growth_constructor_raises (v : Vector T) (args : Args) :
  bounded v → size_ v = Capacity v → construct args = None →
  EmplaceBack v args = Raises (v, []).
Proof.
  intros Hb Hfull Hx.
  destruct (bounded_full v Hb ltac:(lia)) as (_ & Hs & Hg & _ & Hgfit).
  pose proof sizeof_T_spec as Hsz.
  pose proof SIZE_MAX_eq as HS. pose proof two64_eq as H64.
  unfold EmplaceBack.
  destruct (Z.ltb_spec (size_ v) (Capacity v)); [lia|].
  rewrite new_capacity_grown by lia.
  unfold RawMemory_sized, Allocate, operator_new.
  destruct (Z.eqb_spec (grown (size_ v)) 0); [lia|].
  rewrite (wrap_small (grown (size_ v) * sizeof_T)) by nia.
  rewrite Z.div_mul by lia.
  destruct (can_allocate _); [|done].
  cbn [unwind mbind result_bind buffer_].
  unfold construct_at. rewrite Hx.
  replace (valid _ _) with true.
  - cbn. by rewrite Deallocate_raw.
  - symmetry. apply valid_lt. rewrite length_replicate. lia.
Qed.

(** C4. Append ([EmplaceBack], and [PushBack] through it), on every vector
    and every argument.  The call returns exactly when nothing raises: the
    constructor succeeds and, when the vector is full, [operator new]
    satisfies the request and relocating the elements does not raise.
    Whenever it returns, it has added one to the size, kept the elements that
    were there, put the new value at index [old size] and returned a
    reference to that slot; the capacity stays when [size < capacity] and
    becomes [max(1, 2 * capacity)] when [size = capacity]. *)
Theorem EmplaceBack_appends (v : Vector T) (l : list T) (args : Args) :
  models v l →
  ((∃ s, EmplaceBack v args = Returns s) ↔ append_quiet v l args) ∧
  (∀ v' leak r, EmplaceBack v args = Returns (v', leak, r) →
     ∃ x, construct args = Some x ∧
          PushBack v args = Returns (v', leak, ()) ∧
          size_ v' = size_ v + 1 ∧
          models v' (l ++ [x]) ∧
          r = size_ v ∧ deref (slots v') r = Some x ∧
          (size_ v < Capacity v → Capacity v' = Capacity v) ∧
          (size_ v = Capacity v → Capacity v' = Z.max 1 (2 * Capacity v))).
Proof.
  intros Hm. split; [split|].
  - intros [s Hs]. by eapply EmplaceBack_quiet.
  - intros Hq.
    destruct (EmplaceBack_when_quiet v l args Hm Hq) as (x & v' & leak & r & Hrun & _).
    eauto.
  - intros v' leak r Hrun.
    destruct (EmplaceBack_when_quiet v l args Hm)
      as (x & v'' & leak' & r' & Hrun' & Hpost); [by eapply EmplaceBack_quiet|].
    rewrite Hrun in Hrun'. injection Hrun' as <- <- <-. by exists x.
Qed.

(** C5. [Insert(p, v)] (that is [Emplace]) for [0 <= p <= size], on every
    vector.  The call returns exactly when nothing raises.  Whenever it
    returns, it has kept the elements before [p], put the new value at index
    [p], moved the elements that were at [p, size) one slot to the right in
    order, added one to the size and returned the iterator of position
    [p]. *)
Theorem Emplace_inserts (v : Vector T) (l : list T) (p : Z) (args : Args) :
  models v l → 0 ≤ p ≤ size_ v →
  ((∃ s, Emplace v p args = Returns s) ↔ insert_quiet v l p args) ∧
  (∀ v' leak r, Emplace v p args = Returns (v', leak, r) →
     ∃ x, construct args = Some x ∧
          Insert v p args = Returns (v', leak, r) ∧
          r = p ∧
          size_ v' = size_ v + 1 ∧
          models v' (take (Z.to_nat p) l ++ x :: drop (Z.to_nat p) l) ∧
          deref (slots v') r = Some x ∧
          (size_ v < Capacity v → Capacity v' = Capacity v) ∧
          (size_ v = Capacity v → Capacity v' = Z.max 1 (2 * Capacity v))).
Proof.
  intros Hm Hp. split; [split|].
  - intros [s Hs]. by eapply Emplace_quiet.
  - intros Hq.
    destruct (Emplace_when_quiet v l p args Hm Hp Hq) as (x & v' & leak & r & Hrun & _).
    eauto.
  - intros v' leak r Hrun.
    destruct (Emplace_when_quiet v l p args Hm Hp)
      as (x & v'' & leak' & r' & Hrun' & Hpost); [by eapply Emplace_quiet|].
    rewrite Hrun in Hrun'. injection Hrun' as <- <- <-. by exists x.
Qed.

(** C6. [Erase(p)] for [0 <= p < size], on every vector.  The call returns
    exactly when the move assignments of the elements after [p] do not
    raise.  Whenever it returns, it has removed the element at [p], moved
    the elements after it one slot to the left in order, destroyed the final
    slot and taken one off the size; the capacity stays and nothing is
    leaked. *)
Theorem Erase_removes (v : Vector T) (l : list T) (p : Z) :
  models v l → 0 ≤ p < size_ v →
  ((∃ s, Erase v p = Returns s) ↔ erase_quiet l p) ∧
  (∀ v' leak r, Erase v p = Returns (v', leak, r) →
     leak = [] ∧
     models v' (take (Z.to_nat p) l ++ drop (S (Z.to_nat p)) l) ∧
     size_ v' = size_ v - 1 ∧
     Capacity v' = Capacity v ∧
     slots v' !! Z.to_nat (size_ v - 1) = Some None).
Proof.
  intros Hm Hp. split; [split|].
  - intros [s Hs]. by eapply Erase_quiet.
  - intros Hq. destruct (Erase_when_quiet v l p Hm Hp Hq) as (v' & Hrun & _). eauto.
  - intros v' leak r Hrun.
    destruct (Erase_when_quiet v l p Hm Hp) as (v'' & Hrun' & Hpost);
      [by eapply Erase_quiet|].
    rewrite Hrun in Hrun'. by injection Hrun' as <- -> ->.
Qed.

(** C7, amended.  For [n] such that [n * sizeof(T)] is a [size_t] value, on
    every vector.  [Reserve(n)] returns exactly when nothing raises: when
    [capacity < n], [operator new] satisfies the request and relocating the
    elements does not raise.  Whenever it returns: it has done nothing when
    [n <= capacity] and otherwise made the capacity exactly [n]; it has not
    lowered the capacity and has kept the size and every element. *)
Theorem Reserve_keeps_contents (v : Vector T) (l : list T) (n : Z) :
  models v l → n * sizeof_T ≤ SIZE_MAX →
  ((∃ s, Reserve v n = Returns s) ↔ reserve_quiet v l n) ∧
  (∀ v' leak, Reserve v n = Returns (v', leak, ()) →
     (n ≤ Capacity v → v' = v ∧ leak = []) ∧
     (Capacity v < n → Capacity v' = n) ∧
     Capacity v ≤ Capacity v' ∧
     size_ v' = size_ v ∧
     models v' l).
Proof.
  intros Hm Hfit. split; [split|].
  - intros [s Hs] Hn. by eapply Reserve_returns.
  - intros Hq. destruct (Reserve_when_quiet v l n Hm Hfit Hq) as (v' & leak & Hrun & _).
    eauto.
  - intros v' leak Hrun.
    destruct (Reserve_when_quiet v l n Hm Hfit) as (v'' & leak' & Hrun' & Hpost).
    { intros Hn. by eapply Reserve_returns. }
    rewrite Hrun in Hrun'. by injection Hrun' as <- <-.
Qed.

(** C8. Copy assignment from another vector, on every pair of vectors.  The
    call returns exactly when nothing raises: when [rhs.size > capacity],
    the allocation and the copy constructions of the fresh copy; otherwise
    the copy assignments on the common prefix and the copy constructions of
    the further elements.  Whenever it returns, the destination holds the
    values of [rhs], with the size of [rhs].  When [rhs.size > capacity] the
    destination is a fresh copy, whose capacity is [rhs.size]; otherwise the
    storage is reused and the capacity stays, and the surplus elements of
    the destination were destroyed.  [rhs] is taken by const reference and
    is not written. *)
Theorem copy_assign_copies (v rhs : Vector T) (l r : list T) :
  models v l → models rhs r →
  ((∃ s, copy_assign v (Another rhs) = Returns s) ↔ copy_assign_quiet v rhs l r) ∧
  (∀ v' leak, copy_assign v (Another rhs) = Returns (v', leak, ()) →
     models v' r ∧
     size_ v' = size_ rhs ∧
     (Capacity v < size_ rhs → Capacity v' = size_ rhs) ∧
     (size_ rhs ≤ Capacity v → Capacity v' = Capacity v ∧ leak = []) ∧
     (size_ rhs < size_ v → size_ rhs ≤ Capacity v →
        ∀ i, (length r ≤ i < length l)%nat → slots v' !! i = Some None)).
Proof.
  intros Hm Hmr. split; [split|].
  - intros [s Hs]. by eapply copy_assign_returns.
  - intros Hq.
    destruct (copy_assign_when_quiet v rhs l r Hm Hmr Hq) as (v' & leak & Hrun & _).
    eauto.
  - intros v' leak Hrun.
    destruct (copy_assign_when_quiet v rhs l r Hm Hmr) as (v'' & leak' & Hrun' & Hpost);
      [by eapply copy_assign_returns|].
    rewrite Hrun in Hrun'. by injection Hrun' as <- <-.
Qed.

(** C10. [Erase(p)] for [0 <= p < size] returns, when the move assignments
    after [p] do not raise, and whenever it returns, the iterator it gives
    is that of position [p]: the slot that now holds the element that
    followed the erased one, or [end()] when the last element was erased. *)
Theorem Erase_returns_position (v : Vector T) (l : list T) (p : Z) :
  models v l → 0 ≤ p < size_ v →
  (erase_quiet l p → ∃ v' leak, Erase v p = Returns (v', leak, p)) ∧
  (∀ v' leak r, Erase v p = Returns (v', leak, r) →
     r = p ∧
     (p + 1 < size_ v →
        ∃ y, l !! S (Z.to_nat p) = Some y ∧ deref (slots v') r = Some y) ∧
     (p + 1 = size_ v → r = size_ v')).
Proof.
  intros Hm Hp.
  pose proof (models_size _ _ Hm) as Hs.
  assert (Hlen1 : length (take (Z.to_nat p) l) = Z.to_nat p)
    by (rewrite length_take; lia).
  split.
  - intros Hq. destruct (Erase_when_quiet v l p Hm Hp Hq) as (v' & Hrun & _). eauto.
  - intros v' leak r Hrun.
    destruct (Erase_when_quiet v l p Hm Hp) as (v'' & Hrun' & Hm' & Hs' & _);
      [by eapply Erase_quiet|].
    rewrite Hrun in Hrun'. injection Hrun' as <- _ ->.
    split; [done|]. split; [|lia].
    intros Hnext.
    destruct (lookup_lt_is_Some_2 l (S (Z.to_nat p))) as [y' Hy']; [lia|].
    exists y'. split; [done|].
    replace p with (Z.of_nat (Z.to_nat p)) by lia.
    eapply models_deref; [done|].
    rewrite lookup_app_r by lia. rewrite Hlen1, Nat.sub_diag, lookup_drop.
    by rewrite Nat.add_0_r.
Qed.

(** C2 (the empty case). [PopBack] has no [assert]: on an empty vector it
    computes [size_ - 1], which wraps to [SIZE_MAX], and calls a destructor
    on the slot at that offset.  No assertion reports the violation. *)
Theorem PopBack_empty_is_unchecked {E : Type} :
  PopBack (E:=E) (Vector_default (T:=T)) = Undefined ∧
  PopBack (E:=E) (Vector_default (T:=T)) ≠ AssertionFailed.
Proof. split; [reflexivity | discriminate]. Qed.

End Claims.

Lemma EmplaceBack_growth_constructor_raises_witness :
  EmplaceBack (elem:=fragile) (heap:=small_heap) (make [Some 1; Some 2] 2) (-1)
  = Raises (make [Some 1; Some 2] 2, []).
Proof.
  apply (EmplaceBack_growth_constructor_raises (elem:=fragile) (heap:=small_heap));
    [solve_models | reflexivity | reflexivity].
Defined.

Lemma EmplaceBack_appends_witness :
  ∃ v' leak, EmplaceBack (elem:=fragile) (heap:=small_heap) (make [Some 1; Some 2] 2) 5
             = Returns (v', leak, 2) ∧ models (elem:=fragile) v' [1; 2; 5] ∧ Capacity v' = 4.
Proof.
  destruct (EmplaceBack_appends (elem:=fragile) (heap:=small_heap)
              (make [Some 1; Some 2] 2) [1; 2] 5) as [Hiff Hpost]; [solve_models|].
  destruct (proj2 Hiff) as [[[v' leak] r] Hrun].
  { split; [by exists 5 | intros _; split; [reflexivity | solve_Forall]]. }
  destruct (Hpost v' leak r Hrun) as (x & Hx & _ & _ & Hm & -> & _ & _ & Hcap).
  injection Hx as <-.
  exists v', leak. split; [done|]. split; [done|]. by apply Hcap.
Defined.

Lemma Emplace_inserts_witness :
  ∃ v' leak, Emplace (elem:=fragile) (heap:=small_heap)
               (make [Some 1; Some 2; Some 3; None] 3) 1 99 = Returns (v', leak, 1) ∧
             models (elem:=fragile) v' [1; 99; 2; 3].
Proof.
  destruct (Emplace_inserts (elem:=fragile) (heap:=small_heap)
              (make [Some 1; Some 2; Some 3; None] 3) [1; 2; 3] 1 99) as [Hiff Hpost].
  - solve_models.
  - vm_compute. split; congruence.
  - destruct (proj2 Hiff) as [[[v' leak] r] Hrun].
    { split; [split; [by exists 99 | intros E; vm_compute in E; discriminate]|].
      intros _. split; [intros z _; reflexivity|]. split; [solve_Forall | reflexivity]. }
    destruct (Hpost v' leak r Hrun) as (x & Hx & _ & -> & _ & Hm & _).
    injection Hx as <-. by exists v', leak.
Defined.

Lemma Erase_removes_witness :
  ∃ v', Erase (elem:=fragile) (make [Some 1; Some 2; Some 3; None] 3) 1
        = Returns (v', [], 1) ∧ models (elem:=fragile) v' [1; 3] ∧ size_ v' = 2.
Proof.
  destruct (Erase_removes (elem:=fragile)
              (make [Some 1; Some 2; Some 3; None] 3) [1; 2; 3] 1) as [Hiff Hpost].
  - solve_models.
  - vm_compute. split; congruence.
  - destruct (proj2 Hiff) as [[[v' leak] r] Hrun]; [solve_Forall|].
    destruct (Hpost v' leak r Hrun) as (-> & Hm & Hs & _).
    exists v'. split; [|done].
    rewrite Hrun. vm_compute in Hrun. by injection Hrun as _ ->.
Defined.

Lemma Reserve_keeps_contents_witness :
  ∃ v' leak, Reserve (elem:=fragile) (heap:=small_heap) (make [Some 1; Some 2] 2) 8
             = Returns (v', leak, ()) ∧ Capacity v' = 8 ∧ models (elem:=fragile) v' [1; 2].
Proof.
  destruct (Reserve_keeps_contents (elem:=fragile) (heap:=small_heap)
              (make [Some 1; Some 2] 2) [1; 2] 8) as [Hiff Hpost].
  - solve_models.
  - vm_compute. congruence.
  - destruct (proj2 Hiff) as [[[v' leak] []] Hrun].
    { intros _. split; [reflexivity | solve_Forall]. }
    destruct (Hpost v' leak Hrun) as (_ & Hcap & _ & _ & Hm).
    exists v', leak. split; [done|]. split; [|done]. by apply Hcap.
Defined.

(** C7 as it was stated, for every [n], fails.  With 4-byte elements the
    call [Reserve(2^62)] asks [operator new] for [2^62 * 4] bytes, which is 0
    in [size_t]; the request is satisfied with a block without room for any
    object, and the relocation of the one element writes outside it. *)
Lemma Reserve_size_overflow :
  models (elem:=fragile) (make [Some 1] 1) [1] ∧
  is_size_t (2 ^ 62) ∧
  wrap (2 ^ 62 * sizeof_T (Element:=fragile)) = 0 ∧
  can_allocate (Heap:=small_heap) 0 = true ∧
  relocatable (elem:=fragile) [1] ∧
  Reserve (elem:=fragile) (heap:=small_heap) (make [Some 1] 1) (2 ^ 62) = Undefined ∧
  ¬ ∃ v' leak,
      Reserve (elem:=fragile) (heap:=small_heap) (make [Some 1] 1) (2 ^ 62)
      = Returns (v', leak, ()) ∧
      Capacity v' = 2 ^ 62 ∧ models (elem:=fragile) v' [1].
Proof.
  assert (Hrun : Reserve (elem:=fragile) (heap:=small_heap) (make [Some 1] 1) (2 ^ 62)
                 = Undefined) by (vm_compute; reflexivity).
  split; [solve_models|]. split; [vm_compute; split; congruence|].
  split; [reflexivity|]. split; [reflexivity|]. split; [solve_Forall|].
  split; [done|]. intros (v' & leak & Hret & _). rewrite Hrun in Hret. discriminate.
Qed.

Lemma copy_assign_copies_witness :
  ∃ v' leak, copy_assign (elem:=fragile) (heap:=small_heap)
               (make [Some 1; Some 2; Some 3; None] 3) (Another (make [Some 7; Some 8] 2))
             = Returns (v', leak, ()) ∧ models (elem:=fragile) v' [7; 8] ∧ Capacity v' = 4.
Proof.
  destruct (copy_assign_copies (elem:=fragile) (heap:=small_heap)
              (make [Some 1; Some 2; Some 3; None] 3) (make [Some 7; Some 8] 2)
              [1; 2; 3] [7; 8]) as [Hiff Hpost].
  - solve_models.
  - solve_models.
  - destruct (proj2 Hiff) as [[[v' leak] []] Hrun].
    { split; [intros E; vm_compute in E; discriminate | intros _; split; solve_Forall]. }
    destruct (Hpost v' leak Hrun) as (Hm & _ & _ & Hcap & _).
    exists v', leak. split; [done|]. split; [done|]. apply Hcap. vm_compute. congruence.
Defined.

Lemma Erase_returns_position_witness :
  ∃ v' leak, Erase (elem:=fragile) (make [Some 1; Some 2; Some 3; None] 3) 1
             = Returns (v', leak, 1) ∧ deref (slots v') 1 = Some 3.
Proof.
  destruct (Erase_returns_position (elem:=fragile)
              (make [Some 1; Some 2; Some 3; None] 3) [1; 2; 3] 1) as [Hret Hpost].
  - solve_models.
  - vm_compute. split; congruence.
  - destruct Hret as (v' & leak & Hrun); [solve_Forall|].
    destruct (Hpost v' leak 1 Hrun) as (_ & Hnext & _).
    exists v', leak. split; [done|].
    destruct Hnext as (y & Hy & Hd); [vm_compute; congruence|].
    simpl in Hy. by inversion Hy; subst.
Defined.

(** The scenario of the specification: append 1, 2, 3; insert 99 at
    position 1; erase position 0; resize to 5.  The vector ends as
    [99, 2, 3, 0, 0] with size 5 and capacity 5. *)
Example scenario :
  run_all (elem:=fragile) (heap:=small_heap)
    [CallEmplaceBack 1; CallEmplaceBack 2; CallEmplaceBack 3;
     CallInsert 1 99; CallErase 0; CallResize 5] Vector_default
  = Returns (make [Some 99; Some 2; Some 3; Some 0; Some 0] 5).
Proof. vm_compute. reflexivity. Qed.

(** The two vectors used below can be built: a vector of two
    value-initialised elements, then two assignments through [operator[]]. *)
Lemma fragile_vectors_reachable :
  reachable (elem:=fragile) (heap:=small_heap) (make [Some 13; Some 2] 2) ∧
  reachable (elem:=fragile) (heap:=small_heap) (make [Some 1; Some 13] 2).
Proof.
  assert (H0 : reachable (elem:=fragile) (heap:=small_heap) (make [Some 0; Some 0] 2)).
  { apply (reachable_sized _ 2); [vm_compute; split; congruence | reflexivity]. }
  split.
  - apply (reachable_assign _ (make [Some 13; Some 0] 2) 1 1 2); [|reflexivity].
    by apply (reachable_assign _ (make [Some 0; Some 0] 2) 0 0 13).
  - apply (reachable_assign _ (make [Some 1; Some 0] 2) 1 1 13); [|reflexivity].
    by apply (reachable_assign _ (make [Some 0; Some 0] 2) 0 0 1).
Qed.

(** C1. The two handlers of the growth path of [Emplace].  Relocation of
    [fragile] elements copies, and copying 13 raises.

    - With 13 in the prefix, the first handler runs the destructor on slot
      [size_] of the new block, which is raw memory, not on slot [before],
      where the new element lives.
    - With 13 in the suffix, the second handler destroys the relocated
      prefix only; the new element is still alive when the new block is
      released.  The vector itself is left as it was. *)
Theorem Emplace_growth_handlers :
  Emplace (elem:=fragile) (heap:=small_heap) (make [Some 13; Some 2] 2) 1 7 = Undefined ∧
  Emplace (elem:=fragile) (heap:=small_heap) (make [Some 1; Some 13] 2) 1 7
  = Raises (make [Some 1; Some 13] 2, [7]).
Proof. split; vm_compute; reflexivity. Qed.

Section Sequences.
Context {T Args : Type} {elem : Element T Args} {heap : Heap}.

(** C9. Every vector a program can hold satisfies [0 <= size <= capacity].
    For a run of N appends from the empty vector in which every append
    returns: the final size is N, the capacity never goes down from one
    step to the next, and [size <= capacity] holds at every step.  Such a
    run exists whenever the constructors succeed, the elements can be
    relocated and the heap satisfies requests of up to [2 * N] slots. *)
Theorem size_within_capacity :
  (∀ v : Vector T, reachable v → 0 ≤ size_ v ≤ Capacity v) ∧
  (∀ (argss : list Args) (trace : list (Vector T)),
     appends Vector_default argss = Some trace →
     size_ (default Vector_default (last trace)) = Z.of_nat (length argss) ∧
     (∀ i a b, (Vector_default :: trace) !! i = Some a →
               (Vector_default :: trace) !! S i = Some b →
               Capacity a ≤ Capacity b) ∧
     (∀ v, v ∈ Vector_default :: trace → 0 ≤ size_ v ≤ Capacity v)) ∧
  (∀ (argss : list Args) (xs : list T),
     Forall2 (λ args x, construct args = Some x) argss xs →
     relocatable xs →
     (∀ n, 0 < n ≤ 2 * Z.of_nat (length xs) → can_allocate (n * sizeof_T) = true) →
     ∃ trace, appends Vector_default argss = Some trace ∧
              models (default Vector_default (last trace)) xs).
Proof.
  split; [|split].
  - intros v Hv. by apply bounded_size_capacity, reachable_bounded.
  - intros argss trace Hrun.
    destruct (appends_trace _ _ _ bounded_default Hrun) as (Hlen & Hsizes & Hcaps).
    split; [|split; [done|]].
    + rewrite last_lookup. destruct (trace !! pred (length trace)) as [v|] eqn:Hv; simpl.
      * destruct (Hsizes _ _ Hv) as [Hs _]. apply lookup_lt_Some in Hv.
        rewrite Hs. simpl. lia.
      * apply lookup_ge_None in Hv. destruct trace; simpl in *; [by rewrite <-Hlen | lia].
    + intros v [->|Hv]%elem_of_cons; [done|].
      apply list_elem_of_lookup in Hv as [i Hi]. by destruct (Hsizes _ _ Hi).
  - intros argss xs Hargs Hrel Halloc.
    apply (appends_complete Vector_default [] argss xs); [|done..].
    apply (models_intro [] [] []); done.
Qed.

End Sequences.

Lemma size_within_capacity_witness :
  ∃ trace, appends (elem:=fragile) (heap:=small_heap) Vector_default [1; 2; 3] = Some trace ∧
           size_ (default Vector_default (last trace)) = 3 ∧
           models (elem:=fragile) (default Vector_default (last trace)) [1; 2; 3].
Proof.
  pose proof (size_within_capacity (elem:=fragile) (heap:=small_heap)) as (_ & Hsteps & Hruns).
  destruct (Hruns [1; 2; 3] [1; 2; 3]) as (trace & Hrun & Hm).
  - repeat constructor.
  - solve_Forall.
  - intros n Hn. apply Z.leb_le. simpl in Hn. change (sizeof_T (Element:=fragile)) with 4. lia.
  - exists trace. split; [done|]. split; [|done].
    by destruct (Hsteps _ _ Hrun) as (Hs & _).
Defined.

(** * Further properties of the header *)

Section Failures.
Context {T Args : Type} {elem : Element T Args}.

Local Abbreviation block := (list (option T)).

(** The first element on which an operation raises. *)
Lemma first_failure (P : T → bool) (l : list T) :
  Forall (λ x, P x = false) l ∨
  ∃ xs y rest, l = xs ++ y :: rest ∧ Forall (λ x, P x = false) xs ∧ P y = true.
Proof.
  induction l as [|a l IH]; [left; constructor|]. destruct (P a) eqn:Ha.
  - right. by exists [], a, l.
  - destruct IH as [IH|(xs & y & rest & -> & Hxs & Hy)]; [left; by constructor|].
    right. exists (a :: xs), y, rest. split; [done|]. split; [by constructor | done].
Qed.

Lemma copy_construct_loop_fails (s1 s2 d1 d2 mid : block) (xs : list T) (y : T)
    (o : option T) (first cur : Z) (k : nat) :
  first = Z.of_nat (length s1) → cur = Z.of_nat (length d1) →
  length mid = length xs →
  Forall (λ x, copy_throws x = false) xs → copy_throws y = true →
  copy_construct_loop (s1 ++ (Some <$> xs) ++ Some y :: s2) first
                      (d1 ++ mid ++ o :: d2) cur (length xs + S k)
  = Raises (d1 ++ (Some <$> xs) ++ o :: d2, cur + Z.of_nat (length xs)).
Proof.
  revert s1 d1 mid first cur.
  induction xs as [|x xs IH]; intros s1 d1 mid first cur Hf Hc Hlen Hq Hy.
  - destruct mid; [|done]. simpl. rewrite deref_middle by done.
    unfold construct_at, copy_construct. rewrite valid_middle, Hy by done. simpl.
    by rewrite Z.add_0_r.
  - destruct mid as [|m mid]; [done|]. simpl in Hlen.
    inversion Hq as [|? ? Hx Hxs]; subst.
    simpl. rewrite deref_middle by done.
    unfold construct_at, copy_construct. rewrite valid_middle, Hx by done. simpl.
    rewrite store_middle by done.
    rewrite (cons_middle (Some x) s1), (cons_middle (Some x) d1), !app_assoc.
    rewrite <-!(app_assoc _ _ (Some y :: s2)), <-!(app_assoc _ mid (o :: d2)).
    rewrite IH; [ | rewrite length_app; simpl; lia | rewrite length_app; simpl; lia
                  | lia | done | done ].
    rewrite <-!app_assoc. do 2 f_equal. lia.
Qed.

(** A copy that raises: the copies made so far are destroyed. *)
Lemma uninitialized_copy_n_fails (s1 s2 d1 d2 mid : block) (xs : list T) (y : T)
    (o : option T) (first n cur : Z) :
  first = Z.of_nat (length s1) → cur = Z.of_nat (length d1) →
  length mid = length xs → Z.of_nat (length xs) < n →
  Forall (λ x, copy_throws x = false) xs → copy_throws y = true →
  uninitialized_copy_n (s1 ++ (Some <$> xs) ++ Some y :: s2) first n
                       (d1 ++ mid ++ o :: d2) cur
  = Raises (d1 ++ replicate (length xs) None ++ o :: d2).
Proof.
  intros Hf Hc Hlen Hn Hq Hy. unfold uninitialized_copy_n.
  replace (Z.to_nat n) with (length xs + S (Z.to_nat n - length xs - 1))%nat by lia.
  rewrite copy_construct_loop_fails by done. cbn [unwind].
  rewrite destroy_n_live by lia. done.
Qed.

Lemma uninitialized_copy_n_fails_front (s2 d2 mid : block) (xs : list T) (y : T)
    (o : option T) (n : Z) :
  length mid = length xs → Z.of_nat (length xs) < n →
  Forall (λ x, copy_throws x = false) xs → copy_throws y = true →
  uninitialized_copy_n ((Some <$> xs) ++ Some y :: s2) 0 n (mid ++ o :: d2) 0
  = Raises (replicate (length xs) None ++ o :: d2).
Proof. intros. by apply (uninitialized_copy_n_fails [] s2 [] d2). Qed.

Lemma value_construct_loop_live (d1 d2 mid : block) (x0 : T) (cur : Z) :
  value_initialize = Some x0 → cur = Z.of_nat (length d1) →
  value_construct_loop (d1 ++ mid ++ d2) cur (length mid)
  = Returns (d1 ++ replicate (length mid) (Some x0) ++ d2).
Proof.
  intros Hx. revert d1 cur. induction mid as [|m mid IH]; intros d1 cur Hc; [done|].
  simpl. unfold construct_at. rewrite valid_middle, Hx by done. simpl.
  rewrite store_middle by done.
  rewrite (cons_middle (Some x0) d1), app_assoc.
  rewrite IH by (rewrite length_app; simpl; lia). by rewrite <-app_assoc.
Qed.

Lemma uninitialized_value_construct_n_live (d1 d2 mid : block) (x0 : T) (first n : Z) :
  value_initialize = Some x0 → first = Z.of_nat (length d1) → n = Z.of_nat (length mid) →
  uninitialized_value_construct_n (d1 ++ mid ++ d2) first n
  = Returns (d1 ++ replicate (length mid) (Some x0) ++ d2).
Proof.
  intros Hx Hf ->. unfold uninitialized_value_construct_n.
  by rewrite Nat2Z.id, (value_construct_loop_live _ _ _ x0).
Qed.

Lemma uninitialized_value_construct_n_whole (mid : block) (x0 : T) (n : Z) :
  value_initialize = Some x0 → n = Z.of_nat (length mid) →
  uninitialized_value_construct_n mid 0 n = Returns (replicate (length mid) (Some x0)).
Proof.
  intros Hx Hn.
  pose proof (uninitialized_value_construct_n_live [] [] mid x0 0 n Hx eq_refl Hn) as Hrun.
  cbn [app] in Hrun. by rewrite !app_nil_r in Hrun.
Qed.

(** A value initialisation that raises does so on the first object. *)
Lemma uninitialized_value_construct_n_fails (d : block) (first n : Z) :
  value_initialize = None → 0 < n → valid d first = true →
  uninitialized_value_construct_n d first n = Raises d.
Proof.
  intros Hx Hn Hv. unfold uninitialized_value_construct_n.
  destruct (Z.to_nat n) as [|k] eqn:Hk; [lia|].
  simpl. unfold construct_at. rewrite Hv, Hx. simpl.
  by rewrite Z.sub_diag.
Qed.

(** An assignment loop that raises part of the way: the elements assigned
    so far stay assigned. *)
Lemma copy_loop_fails (s1 s2 d1 d2 : block) (xs ys : list T) (y w : T)
    (first d_first : Z) (k : nat) :
  first = Z.of_nat (length s1) → d_first = Z.of_nat (length d1) →
  length ys = length xs →
  Forall (λ x, copy_assign_throws x = false) xs → copy_assign_throws y = true →
  copy_loop (s1 ++ (Some <$> xs) ++ Some y :: s2) first
            (d1 ++ (Some <$> ys) ++ Some w :: d2) d_first (length xs + S k)
  = Raises (d1 ++ (Some <$> xs) ++ Some w :: d2).
Proof.
  revert s1 d1 ys first d_first.
  induction xs as [|x xs IH]; intros s1 d1 ys first d_first Hf Hd Hlen Hq Hy.
  - destruct ys; [|done]. simpl. by rewrite !deref_middle, Hy by done.
  - destruct ys as [|y0 ys]; [done|]. simpl in Hlen.
    inversion Hq as [|? ? Hx Hxs]; subst.
    simpl. rewrite !deref_middle, Hx by done.
    rewrite store_middle by done.
    rewrite (cons_middle (Some x) s1), (cons_middle (Some x) d1), !app_assoc.
    rewrite <-(app_assoc (s1 ++ [Some x])), <-(app_assoc (d1 ++ [Some x])).
    change (list_fmap T (option T) Some) with (fmap (M:=list) (@Some T)).
    rewrite IH; [by rewrite <-!app_assoc | | | lia | done | done];
      rewrite length_app; simpl; lia.
Qed.

Lemma move_loop_fails (pre post : block) (y z : T) (xs : list T)
    (first d_first : Z) (k : nat) :
  d_first = Z.of_nat (length pre) → first = d_first + 1 →
  Forall (λ x, move_assign_throws x = false) xs → move_assign_throws z = true →
  ∃ y', move_loop (pre ++ Some y :: (Some <$> xs) ++ Some z :: post) first d_first
                  (length xs + S k)
        = Raises (pre ++ (Some <$> xs) ++ Some y' :: Some z :: post).
Proof.
  revert pre y first d_first.
  induction xs as [|x xs IH]; intros pre y first d_first Hd Hf Hq Hz.
  - exists y. simpl. unfold move_assign_at.
    rewrite deref_second, deref_middle, Hz by lia. done.
  - inversion Hq as [|? ? Hx Hxs]; subst.
    rewrite fmap_cons. cbn [move_loop length app Nat.add].
    rewrite move_assign_at_left by done.
    rewrite (cons_middle (Some x) pre), app_assoc.
    destruct (IH (pre ++ [Some x]) (moved_from x)
                 (Z.of_nat (length pre) + 1 + 1) (Z.of_nat (length pre) + 1)) as [y' Hy'];
      [rewrite length_app; simpl; lia | done | done | done |].
    exists y'. cbn [mbind result_bind]. rewrite Hy'. by rewrite <-app_assoc.
Qed.

End Failures.

(** ** Calls that have a meaning

    An algorithm has defined behaviour when the objects it reads, assigns to
    or destroys are alive and the slots it constructs into are slots of the
    block. *)

Lemma defined_bind {E R R'} (m : result E R) (k : R → result E R') :
  m ≠ Undefined → (∀ r, m = Returns r → k r ≠ Undefined) → m ≫= k ≠ Undefined.
Proof. destruct m; simpl; [auto | done..]. Qed.

Lemma defined_unwind {E E' R} (m : result E R) (h : E → result E' R) :
  m ≠ Undefined → (∀ e, m = Raises e → h e ≠ Undefined) → unwind m h ≠ Undefined.
Proof. destruct m; simpl; [done | auto | done..]. Qed.

Section Definedness.
Context {T Args : Type} {elem : Element T Args}.

Local Abbreviation block := (list (option T)).

Lemma alive_below_deref (n : nat) (b : block) (p : Z) :
  alive_below n b → 0 ≤ p < Z.of_nat n → ∃ x, deref b p = Some x.
Proof.
  intros Hb Hp. destruct (Hb (Z.to_nat p)) as [x Hx]; [lia|]. exists x.
  unfold deref. replace (valid b p) with true; [by rewrite Hx|].
  symmetry. apply valid_lt. apply lookup_lt_Some in Hx. lia.
Qed.

Lemma deref_store_eq (b : block) (p : Z) (o : option T) :
  valid b p = true → deref (store b p o) p = o.
Proof.
  intros Hv. unfold deref. rewrite valid_store, Hv. unfold store.
  apply valid_lt in Hv. rewrite list_lookup_insert_eq by lia. done.
Qed.

Lemma deref_store_ne (b : block) (p q : Z) (o : option T) :
  0 ≤ p → 0 ≤ q → p ≠ q → deref (store b p o) q = deref b q.
Proof.
  intros Hp Hq Hne. unfold deref. rewrite valid_store. unfold store.
  by rewrite list_lookup_insert_ne by lia.
Qed.

Lemma construct_at_defined (b : block) (p : Z) (init : option T) :
  valid b p = true → construct_at b p init ≠ Undefined.
Proof. intros Hv. unfold construct_at. rewrite Hv. by destruct init. Qed.

Lemma destroy_loop_defined {E} (b : block) (p : Z) (k : nat) :
  0 ≤ p → (∀ i : nat, (i < k)%nat → ∃ x, deref b (p + Z.of_nat i) = Some x) →
  destroy_loop (E:=E) b p k ≠ Undefined.
Proof.
  revert b p. induction k as [|k IH]; intros b p Hp Hb; simpl; [done|].
  unfold destroy_at. destruct (Hb 0%nat) as [x Hx]; [lia|].
  rewrite Z.add_0_r in Hx. rewrite Hx. simpl. apply IH; [lia|].
  intros i Hi. destruct (Hb (S i)) as [y Hy]; [lia|]. exists y.
  rewrite deref_store_ne by lia. rewrite <-Hy. f_equal. lia.
Qed.

Lemma destroy_n_defined {E} (n : nat) (b : block) (k : Z) :
  alive_below n b → k ≤ Z.of_nat n → destroy_n (E:=E) b 0 k ≠ Undefined.
Proof.
  intros Hb Hk. apply destroy_loop_defined; [done|].
  intros i Hi. apply (alive_below_deref n); [done | lia].
Qed.

Lemma move_assign_at_defined (n : nat) (b : block) (s d : Z) :
  alive_below n b → 0 ≤ s < Z.of_nat n → 0 ≤ d < Z.of_nat n →
  move_assign_at b s d ≠ Undefined.
Proof.
  intros Hb Hs Hd. unfold move_assign_at.
  destruct (alive_below_deref n b s Hb Hs) as [x ->].
  destruct (alive_below_deref n b d Hb Hd) as [y ->].
  by destruct (move_assign_throws x).
Qed.

Lemma move_loop_defined (n : nat) (b : block) (first d_first : Z) (k : nat) :
  alive_below n b → 0 ≤ first → 0 ≤ d_first →
  first + Z.of_nat k ≤ Z.of_nat n → d_first + Z.of_nat k ≤ Z.of_nat n →
  move_loop b first d_first k ≠ Undefined.
Proof.
  revert b first d_first. induction k as [|k IH]; intros b first d_first Hb Hf Hd Hfk Hdk;
    simpl; [done|].
  apply defined_bind; [apply (move_assign_at_defined n); done || lia|].
  intros b' Hb'. apply IH; [|lia..].
  exact (always_Returns _ _ _ _ (move_assign_at_keeps n b first d_first Hb) Hb').
Qed.

Lemma move_backward_loop_defined (n : nat) (b : block) (last d_last : Z) (k : nat) :
  alive_below n b → Z.of_nat k ≤ last → Z.of_nat k ≤ d_last →
  last ≤ Z.of_nat n → d_last ≤ Z.of_nat n →
  move_backward_loop b last d_last k ≠ Undefined.
Proof.
  revert b last d_last. induction k as [|k IH]; intros b last d_last Hb Hl Hd Hln Hdn;
    simpl; [done|].
  apply defined_bind; [apply (move_assign_at_defined n); done || lia|].
  intros b' Hb'. apply IH; [|lia..].
  exact (always_Returns _ _ _ _ (move_assign_at_keeps n b _ _ Hb) Hb').
Qed.

Lemma move_construct_at_defined (n : nat) (b : block) (s d : Z) :
  alive_below n b → 0 ≤ s < Z.of_nat n → valid b d = true →
  move_construct_at b s d ≠ Undefined.
Proof.
  intros Hb Hs Hd. unfold move_construct_at.
  destruct (alive_below_deref n b s Hb Hs) as [x ->]. rewrite Hd.
  by destruct (move_throws x).
Qed.

Lemma move_assign_from_defined (n : nat) (b : block) (d : Z) (tmp : T) :
  alive_below n b → 0 ≤ d < Z.of_nat n → move_assign_from b d tmp ≠ Undefined.
Proof.
  intros Hb Hd. unfold move_assign_from.
  destruct (alive_below_deref n b d Hb Hd) as [x ->].
  by destruct (move_assign_throws tmp).
Qed.

Lemma copy_loop_defined (ns nd : nat) (s d : block) (first d_first : Z) (k : nat) :
  alive_below ns s → alive_below nd d → 0 ≤ first → 0 ≤ d_first →
  first + Z.of_nat k ≤ Z.of_nat ns → d_first + Z.of_nat k ≤ Z.of_nat nd →
  copy_loop s first d d_first k ≠ Undefined.
Proof.
  intros Hs. revert d first d_first.
  induction k as [|k IH]; intros d first d_first Hd Hf Hdf Hfk Hdk; simpl; [done|].
  destruct (alive_below_deref ns s first Hs) as [x ->]; [lia|].
  destruct (alive_below_deref nd d d_first Hd) as [y ->]; [lia|].
  destruct (copy_assign_throws x); [done|].
  apply IH; [by apply alive_below_store | lia..].
Qed.

Lemma built_store (d0 cur : Z) (d : block) (x : T) :
  0 ≤ d0 → valid d cur = true → built d0 cur d → built d0 (cur + 1) (store d cur (Some x)).
Proof.
  intros H0 Hv [Hle Hb]. split; [lia|]. intros p Hp.
  destruct (decide (p = cur)) as [->|Hne].
  - exists x. by apply deref_store_eq.
  - rewrite deref_store_ne by lia. apply Hb. lia.
Qed.

Lemma built_destroy_defined {E} (d0 cur : Z) (d : block) :
  0 ≤ d0 → built d0 cur d → destroy_n (E:=E) d d0 (cur - d0) ≠ Undefined.
Proof.
  intros H0 [Hle Hb]. apply destroy_loop_defined; [done|].
  intros i Hi. apply Hb. lia.
Qed.

Lemma copy_construct_loop_defined (ns : nat) (s d : block) (first cur d0 : Z) (k : nat) :
  alive_below ns s → 0 ≤ first → first + Z.of_nat k ≤ Z.of_nat ns →
  0 ≤ d0 → 0 ≤ cur → cur + Z.of_nat k ≤ Z.of_nat (length d) → built d0 cur d →
  copy_construct_loop s first d cur k ≠ Undefined ∧
  always (λ e, built d0 e.2 e.1) (λ _, True) (copy_construct_loop s first d cur k).
Proof.
  intros Hs. revert d first cur.
  induction k as [|k IH]; intros d first cur Hf Hfk H0 Hc Hck Hb; simpl; [done|].
  destruct (alive_below_deref ns s first Hs) as [x ->]; [lia|].
  unfold construct_at.
  assert (Hv : valid d cur = true) by (apply valid_lt; lia). rewrite Hv.
  destruct (copy_construct x) as [y|]; simpl; [|done].
  apply IH; [lia | lia | done | lia | rewrite length_store; lia | by apply built_store].
Qed.

Lemma uninitialized_copy_n_defined (ns : nat) (s d : block) (first n d_first : Z) :
  alive_below ns s → 0 ≤ n → 0 ≤ first → first + n ≤ Z.of_nat ns →
  0 ≤ d_first → d_first + n ≤ Z.of_nat (length d) →
  uninitialized_copy_n s first n d d_first ≠ Undefined.
Proof.
  intros Hs Hn Hf Hfn Hd Hdn. unfold uninitialized_copy_n.
  destruct (copy_construct_loop_defined ns s d first d_first d_first (Z.to_nat n))
    as [Hdef Hraise]; [done | lia | lia | lia | lia | lia | split; [lia | intros; lia] |].
  apply defined_unwind; [done|].
  intros [d' cur] Hrun. pose proof (always_Raises _ _ _ _ Hraise Hrun) as Hb. simpl in Hb.
  apply defined_bind; [by apply built_destroy_defined | done].
Qed.

Lemma value_construct_loop_defined (d : block) (cur d0 : Z) (k : nat) :
  0 ≤ d0 → 0 ≤ cur → cur + Z.of_nat k ≤ Z.of_nat (length d) → built d0 cur d →
  value_construct_loop d cur k ≠ Undefined ∧
  always (λ e, built d0 e.2 e.1) (λ _, True) (value_construct_loop d cur k).
Proof.
  revert d cur. induction k as [|k IH]; intros d cur H0 Hc Hck Hb; simpl; [done|].
  unfold construct_at.
  assert (Hv : valid d cur = true) by (apply valid_lt; lia). rewrite Hv.
  destruct value_initialize as [y|]; simpl; [|done].
  apply IH; [done | lia | rewrite length_store; lia | by apply built_store].
Qed.

Lemma uninitialized_value_construct_n_defined (d : block) (first n : Z) :
  0 ≤ n → 0 ≤ first → first + n ≤ Z.of_nat (length d) →
  uninitialized_value_construct_n d first n ≠ Undefined.
Proof.
  intros Hn Hf Hfn. unfold uninitialized_value_construct_n.
  destruct (value_construct_loop_defined d first first (Z.to_nat n))
    as [Hdef Hraise]; [lia | lia | lia | split; [lia | intros; lia] |].
  apply defined_unwind; [done|].
  intros [d' cur] Hrun. pose proof (always_Raises _ _ _ _ Hraise Hrun) as Hb. simpl in Hb.
  apply defined_bind; [by apply built_destroy_defined | done].
Qed.

Lemma move_construct_loop_defined (ns : nat) (s d : block) (first cur d0 : Z) (k : nat) :
  alive_below ns s → 0 ≤ first → first + Z.of_nat k ≤ Z.of_nat ns →
  0 ≤ d0 → 0 ≤ cur → cur + Z.of_nat k ≤ Z.of_nat (length d) → built d0 cur d →
  move_construct_loop s first d cur k ≠ Undefined ∧
  always (λ e, built d0 e.2 e.1.2) (λ _, True) (move_construct_loop s first d cur k).
Proof.
  revert s d first cur.
  induction k as [|k IH]; intros s d first cur Hs Hf Hfk H0 Hc Hck Hb; simpl; [done|].
  destruct (alive_below_deref ns s first Hs) as [x ->]; [lia|].
  assert (Hv : valid d cur = true) by (apply valid_lt; lia). rewrite Hv.
  destruct (move_throws x); [done|].
  apply IH; [by apply alive_below_store | lia | lia | done | lia
             | rewrite length_store; lia | by apply built_store].
Qed.

Lemma uninitialized_move_n_defined (ns : nat) (s d : block) (first n d_first : Z) :
  alive_below ns s → 0 ≤ n → 0 ≤ first → first + n ≤ Z.of_nat ns →
  0 ≤ d_first → d_first + n ≤ Z.of_nat (length d) →
  uninitialized_move_n s first n d d_first ≠ Undefined.
Proof.
  intros Hs Hn Hf Hfn Hd Hdn. unfold uninitialized_move_n.
  destruct (move_construct_loop_defined ns s d first d_first d_first (Z.to_nat n))
    as [Hdef Hraise]; [done | lia | lia | lia | lia | lia | split; [lia | intros; lia] |].
  apply defined_unwind; [done|].
  intros [[s' d'] cur] Hrun. pose proof (always_Raises _ _ _ _ Hraise Hrun) as Hb.
  simpl in Hb. apply defined_bind; [by apply built_destroy_defined | done].
Qed.

Lemma UninitializedMoveOrCopy_defined (ns : nat) (s d : block) (from size to : Z) :
  alive_below ns s → 0 ≤ size → 0 ≤ from → from + size ≤ Z.of_nat ns →
  0 ≤ to → to + size ≤ Z.of_nat (length d) →
  UninitializedMoveOrCopy s from size d to ≠ Undefined.
Proof.
  intros Hs Hn Hf Hfn Hd Hdn. unfold UninitializedMoveOrCopy.
  destruct (is_nothrow_move_constructible || negb is_copy_constructible).
  - by apply (uninitialized_move_n_defined ns).
  - apply defined_bind; [|done].
    apply defined_unwind; [by apply (uninitialized_copy_n_defined ns) | done].
Qed.

End Definedness.

Section Extras.
Context {T Args : Type} {elem : Element T Args} {heap : Heap}.

Local Abbreviation block := (list (option T)).

Lemma with_slots_same (v : Vector T) : with_slots v (slots v) = v.
Proof. by destruct v as [[b c] sz]. Qed.

Lemma Deallocate_app (b1 b2 : block) : Deallocate (b1 ++ b2) = Deallocate b1 ++ Deallocate b2.
Proof. apply omap_app. Qed.

Lemma Deallocate_alive (l : list T) : Deallocate (Some <$> l) = l.
Proof. unfold Deallocate. induction l as [|x l IH]; [done|]. simpl. f_equal. exact IH. Qed.

(** [PopBack] takes the last element off a vector that has one; on a vector
    without elements it has undefined behaviour, whatever the capacity. *)
Theorem PopBack_removes_last {E : Type} (v : Vector T) (l : list T) :
  models v l →
  (l = [] → PopBack (E:=E) v = Undefined) ∧
  (∀ l' x, l = l' ++ [x] →
     ∃ v', PopBack (E:=E) v = Returns (v', [], ()) ∧
           models v' l' ∧ size_ v' = size_ v - 1 ∧ Capacity v' = Capacity v ∧
           slots v' !! length l' = Some None).
Proof.
  intros Hm. split.
  - intros ->. destruct (models_inv _ _ Hm) as (Hlen & Hsz & Hmax & Hsize & Hbytes).
    pose proof PTRDIFF_MAX_eq as HM. simpl in Hsize.
    unfold PopBack, destroy_n. simpl. unfold destroy_at, deref.
    rewrite Hsize. change (wrap (Z.of_nat 0 - 1)) with (2 ^ 64 - 1).
    replace (valid (slots v) (0 + (2 ^ 64 - 1))) with false; [done|].
    symmetry. apply not_true_is_false. rewrite valid_lt. lia.
  - intros l' x ->. by apply (PopBack_spec v l' x).
Qed.

(** [operator[]] stops at its assertion for an index at or beyond the size;
    under the size it gives the slot that holds the element of that index,
    and the assertion of [RawMemory] on the capacity never fails. *)
Theorem index_checks_bounds {E : Type} (v : Vector T) (l : list T) (i : Z) :
  models v l → 0 ≤ i →
  (i < size_ v ↔ index (E:=E) v i = Returns i) ∧
  (size_ v ≤ i ↔ index (E:=E) v i = AssertionFailed) ∧
  (i < size_ v → ∃ x, l !! Z.to_nat i = Some x ∧ deref (slots v) i = Some x).
Proof.
  intros Hm Hi. destruct (models_inv _ _ Hm) as (Hlen & Hsz & Hmax & Hsize & Hbytes).
  unfold index, RawMemory_index. change (capacity_ (data_ v)) with (Capacity v).
  destruct (Z.ltb_spec i (size_ v)) as [Hlt|Hge]; cbn [assert mbind result_bind].
  - destruct (Z.ltb_spec i (Capacity v)); [|lia]. cbn.
    split; [done|]. split; [split; [lia | done]|]. intros _.
    destruct (lookup_lt_is_Some_2 l (Z.to_nat i)) as [x Hx]; [lia|].
    exists x. split; [done|].
    replace i with (Z.of_nat (Z.to_nat i)) at 1 by lia. by eapply models_deref.
  - split; [split; [lia | done]|]. split; [done | lia].
Qed.

(** [Emplace], [Insert] and [Erase] stop at their assertion when the
    position is out of range, before anything is read or written; [Erase] on
    a vector without elements always does. *)
Theorem position_is_asserted (v : Vector T) (p : Z) (args : Args) :
  (¬ 0 ≤ p ≤ size_ v → Emplace v p args = AssertionFailed ∧
                        Insert v p args = AssertionFailed) ∧
  (¬ 0 ≤ p < size_ v → Erase v p = AssertionFailed) ∧
  (size_ v = 0 → Erase v p = AssertionFailed).
Proof.
  assert (He : ¬ 0 ≤ p < size_ v → Erase v p = AssertionFailed).
  { intros Hp. unfold Erase.
    destruct (Z.leb_spec 0 p); [|done]. by destruct (Z.ltb_spec p (size_ v)); [lia|]. }
  split; [|split; [done | intros Hs; apply He; lia]].
  intros Hp. unfold Insert, Emplace.
  destruct (Z.leb_spec 0 p); [|done]. by destruct (Z.leb_spec p (size_ v)); [lia|].
Qed.

(** The destructor destroys the elements of the vector and releases the
    block; the objects that are alive in slots at or beyond the size are not
    destroyed. *)
Theorem Vector_destroy_releases {E : Type} (v : Vector T) (l : list T) :
  models v l →
  Vector_destroy (E:=E) v = Returns (Deallocate (drop (length l) (slots v))) ∧
  (Forall (λ o, o = None) (drop (length l) (slots v)) → Vector_destroy (E:=E) v = Returns []).
Proof.
  intros Hm. destruct (models_slots _ _ Hm) as (rest & Hslots & Hcap).
  pose proof (models_size _ _ Hm) as Hs.
  assert (Hrun : Vector_destroy (E:=E) v = Returns (Deallocate (drop (length l) (slots v)))).
  { unfold Vector_destroy. rewrite Hslots, destroy_n_front by done.
    cbn [mbind result_bind]. rewrite Deallocate_app, Deallocate_raw.
    by rewrite drop_app_length'; [|rewrite length_fmap]. }
  split; [done|]. intros Hraw. rewrite Hrun. f_equal. clear Hrun.
  unfold Deallocate. induction Hraw as [|o b -> _ IH]; [done | exact IH].
Qed.

(** The move constructor hands the block over: the new vector holds the
    elements, the source is left as a default-constructed vector, and
    destroying the source releases nothing. *)
Lemma Vector_move_transfers {E : Type} (other : Vector T) (l : list T) :
  models other l →
  models (Vector_move other).1 l ∧
  slots (Vector_move other).1 = slots other ∧
  Capacity (Vector_move other).1 = Capacity other ∧
  (Vector_move other).2 = Vector_default ∧
  Vector_destroy (E:=E) (Vector_move other).2 = Returns [].
Proof.
  intros Hm. destruct other as [[b c] sz]. cbn. split; [done|]. done.
Qed.

(** Move assignment swaps the two vectors and sets the size of [rhs] to
    zero without destroying anything: the elements that the destination
    held stay alive in the block that [rhs] now owns, and the destructor of
    [rhs] releases that block without destroying them. *)
Theorem move_assign_keeps_old_elements_alive {E : Type} (v rhs : Vector T) (l r : list T) :
  models v l → models rhs r →
  ∃ v' rhs',
    move_assign v (Another rhs) = (v', Some rhs') ∧
    models v' r ∧ Capacity v' = Capacity rhs ∧
    models rhs' [] ∧ Capacity rhs' = Capacity v ∧
    take (length l) (slots rhs') = Some <$> l ∧
    ∃ others, Vector_destroy (E:=E) rhs' = Returns (l ++ others).
Proof.
  intros Hm Hmr. destruct (models_slots _ _ Hm) as (rest & Hslots & Hcap).
  destruct (models_inv _ _ Hm) as (Hlen & Hsz & Hmax & Hsize & Hbytes).
  destruct v as [[b c] sz]. destruct rhs as [[br cr] szr].
  unfold slots, Capacity in *. simpl in *. subst b.
  eexists _, _. split; [reflexivity|]. split; [done|]. split; [done|].
  split; [|split; [done|split]].
  - eapply (models_intro _ _ []); [reflexivity | exact Hlen | done | done].
  - apply take_app_length'. by rewrite length_fmap.
  - exists (Deallocate rest). unfold Vector_destroy, slots. simpl.
    by rewrite Deallocate_app, Deallocate_alive.
Qed.

(** [Swap] exchanges what the two vectors hold, and swapping twice gives
    the two vectors back. *)
Lemma Swap_exchanges (a b : Vector T) (la lb : list T) :
  models a la → models b lb →
  models (Swap a b).1 lb ∧ models (Swap a b).2 la ∧
  Capacity (Swap a b).1 = Capacity b ∧ Capacity (Swap a b).2 = Capacity a ∧
  Swap (Swap a b).1 (Swap a b).2 = (a, b).
Proof.
  intros Ha Hb. by destruct a as [[ba ca] sa], b as [[bb cb] sb].
Qed.

Lemma RawMemory_sized_fits (n : Z) :
  0 < n → n * sizeof_T ≤ SIZE_MAX →
  RawMemory_sized (T:=T) n
  = if can_allocate (n * sizeof_T)
    then Returns {| buffer_ := replicate (Z.to_nat n) None; capacity_ := n |}
    else Raises ().
Proof.
  intros Hn Hfit. pose proof sizeof_T_spec as Hs.
  pose proof SIZE_MAX_eq as HS. pose proof two64_eq as H64.
  unfold RawMemory_sized, Allocate, operator_new.
  destruct (Z.eqb_spec n 0); [lia|].
  rewrite wrap_small by nia. rewrite Z.div_mul by lia.
  by destruct (can_allocate (n * sizeof_T)).
Qed.

(** [RawMemory(n)]: no allocation for [n = 0], whatever the heap; for [n]
    whose byte count is a [size_t] value, a block of exactly [n] raw slots
    when the heap satisfies the request and [std::bad_alloc] otherwise; for
    [n] whose byte count is not, a block that is recorded with capacity [n]
    and has fewer than [n] slots. *)
Theorem RawMemory_sized_allocates (n : Z) :
  is_size_t n →
  (n = 0 → RawMemory_sized (T:=T) n = Returns RawMemory_default) ∧
  (0 < n → n * sizeof_T ≤ SIZE_MAX →
     RawMemory_sized (T:=T) n
     = if can_allocate (n * sizeof_T)
       then Returns {| buffer_ := replicate (Z.to_nat n) None; capacity_ := n |}
       else Raises ()) ∧
  (SIZE_MAX < n * sizeof_T →
     ∀ m : RawMemory T, RawMemory_sized n = Returns m →
       capacity_ m = n ∧ Z.of_nat (length (buffer_ m)) < n).
Proof.
  intros [Hn0 Hn1]. pose proof sizeof_T_spec as Hs.
  pose proof SIZE_MAX_eq as HS. pose proof two64_eq as H64.
  split; [by intros ->|]. split.
  - intros Hn Hfit. by apply RawMemory_sized_fits.
  - intros Hover m. unfold RawMemory_sized, Allocate, operator_new.
    destruct (Z.eqb_spec n 0); [nia|].
    destruct (can_allocate (wrap (n * sizeof_T))); [|done].
    intros [= <-]. simpl. split; [done|]. rewrite length_replicate.
    assert (Hw : 0 ≤ wrap (n * sizeof_T) < 2 ^ 64) by (apply Z.mod_pos_bound; lia).
    rewrite Z2Nat.id by (apply Z.div_pos; lia).
    apply Z.div_lt_upper_bound; nia.
Qed.

(** Reading from [begin()] up to [end()] visits the elements of the
    vector, in order, and nothing else. *)
Theorem read_range_elements (v : Vector T) (l : list T) :
  models v l →
  end_ v - begin v = Size v ∧
  read_range v (begin v) (end_ v) = Some <$> l.
Proof.
  intros Hm. pose proof (models_size _ _ Hm) as Hs.
  unfold read_range, begin, end_, GetAddress, Size. split; [lia|].
  rewrite Z.add_0_l, Z.sub_0_r. apply list_eq. intros i.
  rewrite !list_lookup_fmap.
  destruct (decide (i < length l)%nat) as [Hi|Hi].
  - rewrite lookup_seqZ_lt by lia. simpl.
    destruct (lookup_lt_is_Some_2 l i Hi) as [x Hx]. rewrite Hx. simpl.
    by rewrite Z.add_0_l, (models_deref v l i x).
  - rewrite lookup_seqZ_ge by lia. by rewrite lookup_ge_None_2 by lia.
Qed.

Lemma Deallocate_raw_cons (b : block) : Deallocate (None :: b) = Deallocate b.
Proof. done. Qed.

Lemma Deallocate_alive_cons (x : T) (b : block) : Deallocate (Some x :: b) = x :: Deallocate b.
Proof. done. Qed.

Ltac released :=
  repeat (rewrite Deallocate_app || rewrite Deallocate_raw || rewrite Deallocate_raw_cons
          || rewrite Deallocate_alive_cons || rewrite Deallocate_alive);
  rewrite ?app_nil_r; cbn [app].

Lemma models_fits (v : Vector T) (l : list T) :
  models v l → size_ v * sizeof_T ≤ SIZE_MAX ∧ Capacity v * sizeof_T ≤ SIZE_MAX.
Proof.
  intros Hm. destruct (models_inv _ _ Hm) as (Hlen & Hsz & Hmax & Hsize & Hbytes).
  pose proof sizeof_T_spec. pose proof PTRDIFF_MAX_eq. pose proof SIZE_MAX_eq. nia.
Qed.

(** The relocation when it copies and the copy of an element raises: both
    blocks are as they were. *)
Lemma UninitializedMoveOrCopy_copy_fails (s2 d2 : block) (xs : list T) (y : T)
    (o : option T) (size : Z) :
  relocates_by_move = false → Z.of_nat (length xs) < size →
  Forall (λ x, copy_throws x = false) xs → copy_throws y = true →
  UninitializedMoveOrCopy ((Some <$> xs) ++ Some y :: s2) 0 size
                          (replicate (length xs) None ++ o :: d2) 0
  = Raises ((Some <$> xs) ++ Some y :: s2, replicate (length xs) None ++ o :: d2).
Proof.
  intros Hcopy Hsize Hq Hy. unfold UninitializedMoveOrCopy.
  unfold relocates_by_move in Hcopy. rewrite Hcopy.
  rewrite uninitialized_copy_n_fails_front by (done || by rewrite length_replicate).
  done.
Qed.

(** ** The constructors *)

Lemma Vector_sized_cases (n : Z) :
  0 < n → n * sizeof_T ≤ SIZE_MAX →
  Vector_sized (T:=T) n
  = if can_allocate (n * sizeof_T) then
      match value_initialize with
      | Some x0 => Returns {| data_ := {| buffer_ := replicate (Z.to_nat n) (Some x0);
                                          capacity_ := n |};
                              size_ := n |}
      | None => Raises []
      end
    else Raises [].
Proof.
  intros Hn Hfit. unfold Vector_sized. rewrite RawMemory_sized_fits by done.
  destruct (can_allocate (n * sizeof_T)); [|done]. cbn [unwind mbind result_bind buffer_].
  destruct value_initialize as [x0|] eqn:Hx.
  - rewrite (uninitialized_value_construct_n_whole _ x0)
      by (rewrite ?length_replicate; done || lia).
    cbn [unwind mbind result_bind]. by rewrite length_replicate.
  - rewrite uninitialized_value_construct_n_fails;
      [ | done | lia | apply valid_lt; rewrite length_replicate; lia ].
    cbn [unwind]. by rewrite Deallocate_raw.
Qed.

(** [Vector(n)], for [n] whose byte count is a [size_t] value: it returns
    exactly when [n = 0] or the heap satisfies the request and [T()] does
    not raise; the vector then holds [n] value-initialised elements in a
    block of [n] slots; when it raises, nothing is leaked. *)
Theorem Vector_sized_value_initializes (n : Z) :
  0 ≤ n → n * sizeof_T ≤ SIZE_MAX →
  ((∃ v, Vector_sized (T:=T) n = Returns v) ↔
     (0 < n → can_allocate (n * sizeof_T) = true ∧ is_Some value_initialize)) ∧
  (∀ v, Vector_sized n = Returns v →
     size_ v = n ∧ Capacity v = n ∧
     ∃ l, models v l ∧ Forall (λ x, value_initialize = Some x) l) ∧
  (∀ leak, Vector_sized (T:=T) n = Raises leak → leak = []).
Proof.
  intros Hn Hfit. destruct (decide (n = 0)) as [->|Hne].
  - assert (Hrun : Vector_sized (T:=T) 0 = Returns Vector_default) by done.
    rewrite Hrun. split; [split; [intros _ ?; lia | eauto]|]. split; [|done].
    intros v [= <-]. split; [done|]. split; [done|]. exists [].
    split; [by apply (models_intro [] [] []) | constructor].
  - rewrite Vector_sized_cases by lia.
    pose proof (can_allocate_bound (n * sizeof_T)) as Hbound.
    destruct (can_allocate (n * sizeof_T)) eqn:Ha.
    2:{ split; [split|split; [done | by intros leak [= <-]]].
        - by intros [v Hv].
        - intros H'. destruct H' as [? _]; [lia | done]. }
    destruct value_initialize as [x0|] eqn:Hv0.
    2:{ split; [split|split; [done | by intros leak [= <-]]].
        - by intros [v Hv].
        - intros H'. destruct H' as [_ [? ?]]; [lia | done]. }
    split; [split; [by eauto | eauto]|]. split; [|done].
    intros v [= <-]. split; [done|]. split; [done|].
    exists (replicate (Z.to_nat n) x0). split.
    + eapply (models_intro _ []); [by rewrite fmap_replicate, app_nil_r | | | by apply Hbound];
        rewrite length_replicate; simpl; lia.
    + by apply Forall_replicate.
Qed.

Lemma Vector_copy_cases (other : Vector T) (r : list T) :
  models other r →
  Vector_copy other
  = if size_ other =? 0 then Returns Vector_default
    else if can_allocate (size_ other * sizeof_T) then
      if decide (Forall (λ x, copy_throws x = false) r)
      then Returns {| data_ := {| buffer_ := Some <$> r; capacity_ := size_ other |};
                      size_ := size_ other |}
      else Raises []
    else Raises [].
Proof.
  intros Hm. destruct (models_slots _ _ Hm) as (rest & Hslots & Hcap).
  destruct (models_inv _ _ Hm) as (Hlen & Hsz & Hmax & Hsize & Hbytes).
  destruct (models_fits _ _ Hm) as [Hfit _].
  unfold Vector_copy. destruct (Z.eqb_spec (size_ other) 0) as [H0|H0].
  - by rewrite H0.
  - rewrite RawMemory_sized_fits by lia.
    destruct (can_allocate (size_ other * sizeof_T)); [|done].
    cbn [unwind mbind result_bind buffer_]. rewrite Hslots.
    destruct (decide (Forall (λ x, copy_throws x = false) r)) as [Hq|Hq].
    + replace (Z.to_nat (size_ other)) with (length r) by lia.
      rewrite <-(app_nil_r (replicate (length r) None)).
      rewrite uninitialized_copy_n_front by (done || by rewrite length_replicate).
      cbn [unwind mbind result_bind]. by rewrite app_nil_r.
    + destruct (first_failure copy_throws r) as [|(xs & y & rest' & -> & Hxs & Hy)]; [done|].
      rewrite length_app in Hsize. simpl in Hsize.
      rewrite fmap_app, fmap_cons, <-app_assoc. cbn [app].
      replace (Z.to_nat (size_ other))
        with (length xs + S (length rest'))%nat by lia.
      rewrite replicate_add. cbn [replicate].
      rewrite uninitialized_copy_n_fails_front
        by (done || lia || by rewrite length_replicate).
      cbn [unwind app].
      by released.
Qed.

(** The copy constructor: it returns exactly when the heap satisfies the
    request for [other.size] slots and no copy raises; the copy then holds
    the values of [other] in a block of [other.size] slots, whatever the
    capacity of [other]; when it raises, the copies made so far were
    destroyed and nothing is leaked. *)
Theorem Vector_copy_copies (other : Vector T) (r : list T) :
  models other r →
  ((∃ v, Vector_copy other = Returns v) ↔
     (0 < size_ other → can_allocate (size_ other * sizeof_T) = true) ∧
     Forall (λ x, copy_throws x = false) r) ∧
  (∀ v, Vector_copy other = Returns v →
     models v r ∧ size_ v = size_ other ∧ Capacity v = size_ other) ∧
  (∀ leak, Vector_copy other = Raises leak → leak = []).
Proof.
  intros Hm. rewrite (Vector_copy_cases other r Hm).
  destruct (models_inv _ _ Hm) as (Hlen & Hsz & Hmax & Hsize & Hbytes).
  pose proof (can_allocate_bound (size_ other * sizeof_T)) as Hbound.
  destruct (Z.eqb_spec (size_ other) 0) as [H0|H0].
  - assert (r = []) as -> by (destruct r; [done | simpl in Hsize; lia]).
    split; [split; [intros _; split; [lia | constructor] | eauto]|].
    split; [|done]. intros v [= <-]. rewrite H0.
    split; [by apply (models_intro [] [] [])|done].
  - destruct (can_allocate (size_ other * sizeof_T)).
    + destruct (decide (Forall (λ x, copy_throws x = false) r)) as [Hq|Hq].
      * split; [split; [done | eauto]|]. split; [|done].
        intros v [= <-]. split; [|done].
        eapply (models_intro _ []); [by rewrite app_nil_r | simpl; lia | done | by apply Hbound].
      * split; [split; [by intros [v Hv] | by intros [_ ?]]|].
        split; [done | by intros leak [= <-]].
    + split; [split; [by intros [v Hv] | intros [Ha _]; by specialize (Ha ltac:(lia))]|].
      split; [done | by intros leak [= <-]].
Qed.

(** ** Failures that leave the vector as it was *)

Lemma EmplaceBack_raises_early (v : Vector T) (l : list T) (args : Args) :
  models v l →
  construct args = None ∨
    (size_ v = Capacity v ∧ can_allocate (grown (Capacity v) * sizeof_T) = false) →
  EmplaceBack v args = Raises (v, []).
Proof.
  intros Hm Hfail. destruct (models_slots v l Hm) as (rest & Hslots & Hcap).
  destruct (models_inv _ _ Hm) as (Hlen & Hsz & Hmax & Hsize & Hbytes).
  pose proof PTRDIFF_MAX_eq as HM. pose proof two64_eq as H64.
  unfold EmplaceBack. destruct (Z.ltb_spec (size_ v) (Capacity v)) as [Hlt|Hge].
  - destruct Hfail as [Hx|[? _]]; [|lia].
    unfold construct_at. rewrite Hx.
    replace (valid (slots v) (size_ v)) with true; [done|].
    symmetry. apply valid_lt. lia.
  - assert (Hfull : size_ v = Capacity v) by lia.
    assert (Hg : size_ v < grown (size_ v)) by (unfold grown; lia).
    assert (Hgfit : grown (size_ v) * sizeof_T ≤ SIZE_MAX)
      by (apply grown_fits; [lia | by rewrite Hfull]).
    rewrite new_capacity_grown by lia.
    rewrite RawMemory_sized_fits by (done || lia). rewrite <-Hfull in Hfail.
    destruct (can_allocate (grown (size_ v) * sizeof_T)); [|done].
    destruct Hfail as [Hx|[_ ?]]; [|done].
    cbn [unwind mbind result_bind buffer_].
    unfold construct_at. rewrite Hx.
    replace (valid _ (size_ v)) with true
      by (symmetry; apply valid_lt; rewrite length_replicate; lia).
    cbn. by rewrite Deallocate_raw.
Qed.

(** When the constructor of the new element raises, or the vector is full
    and the heap refuses the new block, [EmplaceBack] and [Emplace] at every
    position raise and leave the vector as it was; nothing is leaked. *)
Theorem Emplace_raises_before_relocation (v : Vector T) (l : list T) (args : Args) :
  models v l →
  construct args = None ∨
    (size_ v = Capacity v ∧ can_allocate (grown (Capacity v) * sizeof_T) = false) →
  EmplaceBack v args = Raises (v, []) ∧
  PushBack v args = Raises (v, []) ∧
  ∀ p, 0 ≤ p ≤ size_ v →
       Emplace v p args = Raises (v, []) ∧ Insert v p args = Raises (v, []).
Proof.
  intros Hm Hfail. pose proof (EmplaceBack_raises_early v l args Hm Hfail) as Hback.
  split; [done|]. split; [unfold PushBack; by rewrite Hback|].
  intros p Hp. assert (Hrun : Emplace v p args = Raises (v, [])); [|done].
  destruct (models_inv _ _ Hm) as (Hlen & Hsz & Hmax & Hsize & Hbytes).
  pose proof PTRDIFF_MAX_eq as HM. pose proof two64_eq as H64.
  unfold Emplace.
  destruct (Z.leb_spec 0 p); [|lia]. destruct (Z.leb_spec p (size_ v)); [|lia].
  cbn [assert andb mbind result_bind].
  destruct (Z.eqb_spec p (size_ v)); [by rewrite Hback|].
  destruct (Z.ltb_spec (size_ v) (Capacity v)) as [Hlt|Hge].
  - destruct Hfail as [Hx|[? _]]; [|lia]. by rewrite Hx.
  - assert (Hfull : size_ v = Capacity v) by lia.
    assert (Hg : size_ v < grown (size_ v)) by (unfold grown; lia).
    assert (Hgfit : grown (size_ v) * sizeof_T ≤ SIZE_MAX)
      by (apply grown_fits; [lia | by rewrite Hfull]).
    rewrite new_capacity_grown by lia.
    rewrite RawMemory_sized_fits by (done || lia). rewrite <-Hfull in Hfail.
    destruct (can_allocate (grown (size_ v) * sizeof_T)); [|done].
    destruct Hfail as [Hx|[_ ?]]; [|done].
    cbn [unwind mbind result_bind buffer_].
    unfold construct_at. rewrite Hx.
    replace (valid _ (wrap (p - 0))) with true.
    + cbn. by rewrite Deallocate_raw.
    + symmetry. apply valid_lt. rewrite length_replicate, Z.sub_0_r, wrap_small by lia. lia.
Qed.

(** [Reserve] beyond the capacity gives the strong guarantee when the heap
    refuses the block, and when the relocation copies and a copy raises:
    the call raises, the vector is as it was and nothing is leaked. *)
Theorem Reserve_failure_is_strong (v : Vector T) (l : list T) (n : Z) :
  models v l → Capacity v < n → n * sizeof_T ≤ SIZE_MAX →
  can_allocate (n * sizeof_T) = false ∨
    (relocates_by_move = false ∧ ¬ Forall (λ x, copy_throws x = false) l) →
  Reserve v n = Raises (v, []).
Proof.
  intros Hm Hn Hfit Hfail. destruct (models_slots _ _ Hm) as (rest & Hslots & Hcap).
  destruct (models_inv _ _ Hm) as (Hlen & Hsz & Hmax & Hsize & Hbytes).
  unfold Reserve. destruct (Z.leb_spec n (Capacity v)); [lia|].
  rewrite RawMemory_sized_fits by (done || lia).
  destruct (can_allocate (n * sizeof_T)); [|done].
  destruct Hfail as [?|[Hcopy Hq]]; [done|].
  destruct (first_failure copy_throws l) as [|(xs & y & rest' & -> & Hxs & Hy)]; [done|].
  rewrite length_app in Hsize, Hcap. simpl in Hsize, Hcap.
  cbn [unwind mbind result_bind buffer_].
  rewrite Hslots, fmap_app, fmap_cons, <-app_assoc. cbn [app].
  replace (Z.to_nat n) with (length xs + S (Z.to_nat n - length xs - 1))%nat by lia.
  rewrite replicate_add. cbn [replicate].
  rewrite UninitializedMoveOrCopy_copy_fails by (done || lia).
  cbn [unwind].
  released.
  f_equal. f_equal. rewrite <-(with_slots_same v) at 2. f_equal.
  by rewrite Hslots, fmap_app, fmap_cons, <-app_assoc.
Qed.

(** [EmplaceBack] on a full vector, when the relocation copies and a copy
    raises: the call raises and the vector is as it was, but the new
    element, which was constructed in the new block first, is not destroyed
    before the block is released. *)
Theorem EmplaceBack_relocation_raises (v : Vector T) (l : list T) (args : Args) (x : T) :
  models v l → size_ v = Capacity v → construct args = Some x →
  can_allocate (grown (Capacity v) * sizeof_T) = true →
  relocates_by_move = false → ¬ Forall (λ x, copy_throws x = false) l →
  EmplaceBack v args = Raises (v, [x]) ∧ PushBack v args = Raises (v, [x]).
Proof.
  intros Hm Hfull Hx Halloc Hcopy Hq.
  assert (Hrun : EmplaceBack v args = Raises (v, [x]));
    [|split; [done | unfold PushBack; by rewrite Hrun]].
  destruct (models_slots v l Hm) as (rest & Hslots & Hcap).
  destruct (models_inv _ _ Hm) as (Hlen & Hsz & Hmax & Hsize & Hbytes).
  pose proof PTRDIFF_MAX_eq as HM. pose proof two64_eq as H64.
  destruct (first_failure copy_throws l) as [|(xs & y & rest' & -> & Hxs & Hy)]; [done|].
  rewrite length_app in Hsize, Hcap. simpl in Hsize, Hcap.
  assert (Hg : size_ v < grown (size_ v)) by (unfold grown; lia).
  assert (Hgfit : grown (size_ v) * sizeof_T ≤ SIZE_MAX)
    by (apply grown_fits; [lia | by rewrite Hfull]).
  unfold EmplaceBack. destruct (Z.ltb_spec (size_ v) (Capacity v)); [lia|].
  rewrite new_capacity_grown by lia.
  rewrite RawMemory_sized_fits by (done || lia). rewrite <-Hfull in Halloc. rewrite Halloc.
  cbn [unwind mbind result_bind buffer_].
  set (N := (Z.to_nat (grown (size_ v)) - length xs - S (length rest') - 1)%nat).
  replace (Z.to_nat (grown (size_ v)))
    with ((length xs + S (length rest')) + S N)%nat by lia.
  rewrite (replicate_add (length xs + S (length rest'))). cbn [replicate].
  rewrite Hx. unfold construct_at.
  rewrite valid_middle, store_middle by (rewrite length_replicate; lia).
  cbn [unwind mbind result_bind].
  rewrite (replicate_add (length xs)). cbn [replicate].
  rewrite <-app_assoc. cbn [app].
  rewrite Hslots, fmap_app, fmap_cons, <-app_assoc. cbn [app].
  rewrite UninitializedMoveOrCopy_copy_fails by (done || lia).
  cbn [unwind mbind result_bind].
  f_equal. f_equal.
  - rewrite <-(with_slots_same v) at 2. f_equal.
    by rewrite Hslots, fmap_app, fmap_cons, <-app_assoc.
  - by released.
Qed.

(** Copy assignment from a vector that is larger than the capacity builds
    the copy before it touches the destination: when the heap refuses the
    block or a copy raises, the call raises, the destination is as it was
    and nothing is leaked. *)
Theorem copy_assign_fresh_copy_is_strong (v rhs : Vector T) (l r : list T) :
  models v l → models rhs r → Capacity v < size_ rhs →
  can_allocate (size_ rhs * sizeof_T) = false ∨ ¬ Forall (λ x, copy_throws x = false) r →
  copy_assign v (Another rhs) = Raises (v, []).
Proof.
  intros Hm Hmr Hbig Hfail.
  destruct (models_inv _ _ Hm) as (Hlen & Hsz & Hmax & Hsize & Hbytes).
  unfold copy_assign. destruct (Z.ltb_spec (Capacity v) (size_ rhs)); [|lia].
  rewrite (Vector_copy_cases rhs r Hmr).
  destruct (Z.eqb_spec (size_ rhs) 0); [lia|].
  destruct (can_allocate (size_ rhs * sizeof_T)); [|done].
  destruct Hfail as [?|Hq]; [done|].
  by destruct (decide (Forall (λ x, copy_throws x = false) r)).
Qed.

(** ** [Resize] *)

Lemma Resize_shrinks (v : Vector T) (l : list T) (n : Z) :
  models v l → 0 ≤ n ≤ size_ v →
  ∃ v', Resize v n = Returns (v', [], ()) ∧ models v' (take (Z.to_nat n) l) ∧
        Capacity v' = Capacity v ∧ size_ v' = n.
Proof.
  intros Hm Hn. destruct (models_slots _ _ Hm) as (rest & Hslots & Hcap).
  destruct (models_inv _ _ Hm) as (Hlen & Hsz & Hmax & Hsize & Hbytes).
  pose proof PTRDIFF_MAX_eq as HM. pose proof two64_eq as H64.
  unfold Resize. destruct (Z.eqb_spec n (size_ v)) as [->|Hne].
  - exists v. split; [done|]. by rewrite take_ge by lia.
  - destruct (Z.ltb_spec n (size_ v)); [|lia].
    assert (Hsplit : slots v = (Some <$> take (Z.to_nat n) l) ++
                               (Some <$> drop (Z.to_nat n) l) ++ rest)
      by (by rewrite Hslots, app_assoc, <-fmap_app, take_drop).
    rewrite Hsplit, Z.add_0_l, wrap_small by lia.
    rewrite destroy_n_live by (rewrite ?length_fmap, ?length_take, ?length_drop; lia).
    cbn [mbind result_bind]. eexists. split; [done|]. split; [|done].
    eapply models_intro; [done | | rewrite length_take; lia | done].
    rewrite length_app, length_replicate, length_take, length_drop. lia.
Qed.

Lemma Resize_reserves (v : Vector T) (l : list T) (n : Z) :
  models v l → size_ v < n → n * sizeof_T ≤ SIZE_MAX → reserve_quiet v l n →
  ∃ v1 leak rest,
    Reserve v n = Returns (v1, leak, ()) ∧ models v1 l ∧
    size_ v1 = size_ v ∧ Capacity v1 = Z.max (Capacity v) n ∧
    slots v1 = (Some <$> l) ++ rest ∧
    Z.of_nat (length l) + Z.of_nat (length rest) = Capacity v1.
Proof.
  intros Hm Hn Hfit Hq.
  destruct (Reserve_when_quiet v l n Hm Hfit Hq)
    as (v1 & leak & Hres & Hnoop & Hcap1 & _ & Hs1 & Hm1).
  destruct (models_slots _ _ Hm1) as (rest & Hslots & Hcap).
  exists v1, leak, rest. split; [done|]. split; [done|]. split; [done|].
  split; [|done].
  destruct (decide (n ≤ Capacity v)) as [Hle|Hgt].
  - destruct (Hnoop Hle) as [-> _]. lia.
  - rewrite Hcap1; lia.
Qed.

Lemma Resize_grows (v : Vector T) (l : list T) (n : Z) (x0 : T) :
  models v l → size_ v < n → n * sizeof_T ≤ SIZE_MAX →
  value_initialize = Some x0 → reserve_quiet v l n →
  ∃ v' leak, Resize v n = Returns (v', leak, ()) ∧
             models v' (l ++ replicate (Z.to_nat (n - size_ v)) x0) ∧
             Capacity v' = Z.max (Capacity v) n ∧ size_ v' = n.
Proof.
  intros Hm Hn Hfit Hx Hq.
  destruct (Resize_reserves v l n Hm Hn Hfit Hq)
    as (v1 & leak & rest & Hres & Hm1 & Hs1 & Hc1 & Hslots & Hcap).
  destruct (models_inv _ _ Hm) as (Hlen & Hsz & Hmax & Hsize & Hbytes).
  destruct (models_inv _ _ Hm1) as (Hlen1 & Hsz1 & Hmax1 & Hsize1 & Hbytes1).
  pose proof SIZE_MAX_eq as HS. pose proof two64_eq as H64.
  pose proof sizeof_T_spec as Hsizeof.
  unfold Resize. destruct (Z.eqb_spec n (size_ v)); [lia|].
  destruct (Z.ltb_spec n (size_ v)); [lia|].
  rewrite Hres. cbn [mbind result_bind].
  set (k := Z.to_nat (n - size_ v)).
  assert (Hk : (k ≤ length rest)%nat) by lia.
  rewrite Hslots, <-(take_drop k rest), Hs1.
  rewrite wrap_small by nia.
  rewrite (uninitialized_value_construct_n_live _ _ _ x0)
    by (rewrite ?length_fmap, ?length_take_le; done || lia).
  cbn [unwind mbind result_bind]. rewrite length_take_le by done.
  eexists _, _. split; [done|]. split; [|done].
  eapply models_intro.
  - by rewrite fmap_app, fmap_replicate, <-app_assoc.
  - rewrite length_app, length_replicate, length_drop. unfold Capacity in *. lia.
  - rewrite length_app, length_replicate. lia.
  - done.
Qed.

Lemma Resize_value_initialize_fails (v : Vector T) (l : list T) (n : Z) :
  models v l → size_ v < n → n * sizeof_T ≤ SIZE_MAX →
  value_initialize = None → reserve_quiet v l n →
  ∃ v' leak, Resize v n = Raises (v', leak) ∧ models v' l ∧
             Capacity v' = Z.max (Capacity v) n ∧ size_ v' = size_ v.
Proof.
  intros Hm Hn Hfit Hx Hq.
  destruct (Resize_reserves v l n Hm Hn Hfit Hq)
    as (v1 & leak & rest & Hres & Hm1 & Hs1 & Hc1 & Hslots & Hcap).
  destruct (models_inv _ _ Hm) as (Hlen & Hsz & Hmax & Hsize & Hbytes).
  destruct (models_inv _ _ Hm1) as (Hlen1 & Hsz1 & Hmax1 & Hsize1 & Hbytes1).
  pose proof SIZE_MAX_eq as HS. pose proof two64_eq as H64.
  pose proof sizeof_T_spec as Hsizeof.
  unfold Resize. destruct (Z.eqb_spec n (size_ v)); [lia|].
  destruct (Z.ltb_spec n (size_ v)); [lia|].
  rewrite Hres. cbn [mbind result_bind].
  rewrite uninitialized_value_construct_n_fails;
    [ | done | rewrite wrap_small by nia; lia | apply valid_lt; lia ].
  cbn [unwind]. rewrite with_slots_same. by exists v1, leak.
Qed.

(** [Resize(n)], for [n] whose byte count is a [size_t] value.  Down to a
    smaller size it always returns, keeps the first [n] elements and the
    capacity, and leaks nothing: [Resize(0)] empties the vector.  Up to a
    larger size it returns exactly when [T()] does not raise and the
    reservation succeeds; the old elements are then followed by
    value-initialised ones, and the capacity is [n] if it was less. *)
Theorem Resize_resizes (v : Vector T) (l : list T) (n : Z) :
  models v l → 0 ≤ n → n * sizeof_T ≤ SIZE_MAX →
  ((∃ st, Resize v n = Returns st) ↔
     (size_ v < n → is_Some value_initialize ∧ reserve_quiet v l n)) ∧
  (∀ v' leak, Resize v n = Returns (v', leak, ()) →
     size_ v' = n ∧
     (n ≤ size_ v →
        leak = [] ∧ Capacity v' = Capacity v ∧ models v' (take (Z.to_nat n) l)) ∧
     (size_ v < n →
        Capacity v' = Z.max (Capacity v) n ∧
        ∃ x0, value_initialize = Some x0 ∧
              models v' (l ++ replicate (Z.to_nat (n - size_ v)) x0))).
Proof.
  intros Hm Hn Hfit.
  destruct (decide (n ≤ size_ v)) as [Hle|Hgt].
  - destruct (Resize_shrinks v l n Hm ltac:(lia)) as (v1 & Hrun & Hm1 & Hc1 & Hs1).
    rewrite Hrun. split; [split; [intros; lia | eauto]|].
    intros v' leak [= <- <-]. split; [done|]. split; [done | intros; lia].
  - assert (Hquiet : ∀ st, Resize v n = Returns st → reserve_quiet v l n).
    { intros st Hrun Hcap. unfold Resize in Hrun.
      destruct (Z.eqb_spec n (size_ v)); [lia|].
      destruct (Z.ltb_spec n (size_ v)); [lia|].
      apply bind_Returns in Hrun as ([[v1 leak1] []] & Hres & _).
      by eapply Reserve_returns. }
    assert (Hinit : ∀ st, Resize v n = Returns st → is_Some value_initialize).
    { intros st Hrun. destruct value_initialize as [x0|] eqn:Hx; [done|].
      destruct (Resize_value_initialize_fails v l n Hm ltac:(lia) Hfit Hx (Hquiet _ Hrun))
        as (v1 & leak1 & Hrun' & _). by rewrite Hrun in Hrun'. }
    split; [split|].
    + intros [st Hrun] _. split; [by eapply Hinit | by eapply Hquiet].
    + intros Hq. destruct Hq as [[x0 Hx] Hq]; [lia|].
      destruct (Resize_grows v l n x0 Hm ltac:(lia) Hfit Hx Hq) as (v1 & leak1 & Hrun & _).
      eauto.
    + intros v' leak Hrun. destruct (Hinit _ Hrun) as [x0 Hx].
      destruct (Resize_grows v l n x0 Hm ltac:(lia) Hfit Hx (Hquiet _ Hrun))
        as (v1 & leak1 & Hrun' & Hm1 & Hc1 & Hs1).
      rewrite Hrun in Hrun'. injection Hrun' as <- <-.
      split; [done|]. split; [intros; lia|]. intros _. split; [done|]. by exists x0.
Qed.

(** [Resize] to a larger size does not give the strong guarantee: when the
    heap refuses the block the vector is as it was, but when [T()] raises
    after the reservation, the elements and the size are the old ones while
    the capacity has grown to [n]. *)
Theorem Resize_failures (v : Vector T) (l : list T) (n : Z) :
  models v l → size_ v < n → n * sizeof_T ≤ SIZE_MAX →
  (Capacity v < n → can_allocate (n * sizeof_T) = false → Resize v n = Raises (v, [])) ∧
  (value_initialize = None → reserve_quiet v l n →
     ∃ v' leak, Resize v n = Raises (v', leak) ∧ models v' l ∧
                size_ v' = size_ v ∧ Capacity v' = Z.max (Capacity v) n).
Proof.
  intros Hm Hn Hfit. destruct (models_inv _ _ Hm) as (_ & Hsz & _). split.
  - intros Hcap Halloc. unfold Resize.
    destruct (Z.eqb_spec n (size_ v)); [lia|].
    destruct (Z.ltb_spec n (size_ v)); [lia|].
    unfold Reserve. destruct (Z.leb_spec n (Capacity v)); [lia|].
    rewrite RawMemory_sized_fits by (done || lia). by rewrite Halloc.
  - intros Hx Hq.
    destruct (Resize_value_initialize_fails v l n Hm Hn Hfit Hx Hq)
      as (v' & leak & Hrun & Hm' & Hc' & Hs').
    by exists v', leak.
Qed.

(** ** How the methods compose *)

(** [PushBack] then [PopBack] gives back the elements and the size; the
    capacity is the one [PushBack] left. *)
Theorem PushBack_PopBack_round_trip {E : Type} (v v' : Vector T) (l : list T)
    (value : Args) (leak : list T) :
  models v l → PushBack v value = Returns (v', leak, ()) →
  ∃ v'', PopBack (E:=E) v' = Returns (v'', [], ()) ∧
         models v'' l ∧ size_ v'' = size_ v ∧ Capacity v'' = Capacity v'.
Proof.
  intros Hm Hrun. unfold PushBack in Hrun.
  apply bind_Returns in Hrun as ([[v1 leak1] r] & Hback & Hret).
  injection Hret as <- <-.
  destruct (EmplaceBack_when_quiet v l value Hm)
    as (x & v2 & leak2 & r2 & Hback' & _ & _ & Hs & Hm' & _);
    [by eapply EmplaceBack_quiet|].
  rewrite Hback in Hback'. injection Hback' as <- <- <-.
  destruct (PopBack_spec (E:=E) v1 l x Hm') as (v'' & Hpop & Hm'' & Hs'' & Hc'' & _).
  exists v''. split; [done|]. split; [done|]. split; [lia | done].
Qed.

(** [Insert] at [p] then [Erase] at the iterator it returned gives back the
    elements; the [Erase] returns exactly when the move assignments of the
    elements that were at [p] and after do not raise. *)
Theorem Insert_Erase_round_trip (v v' : Vector T) (l : list T) (p : Z)
    (value : Args) (leak : list T) (r : Z) :
  models v l → 0 ≤ p ≤ size_ v → Insert v p value = Returns (v', leak, r) →
  ((∃ st, Erase v' r = Returns st) ↔
     Forall (λ y, move_assign_throws y = false) (drop (Z.to_nat p) l)) ∧
  (∀ v'' leak' r', Erase v' r = Returns (v'', leak', r') →
     models v'' l ∧ r' = p ∧ size_ v'' = size_ v ∧ Capacity v'' = Capacity v').
Proof.
  intros Hm Hp Hrun. unfold Insert in Hrun.
  destruct (Emplace_when_quiet v l p value Hm Hp)
    as (x & v1 & leak1 & r1 & Hrun' & _ & _ & -> & Hs & Hm' & _);
    [by eapply Emplace_quiet|].
  rewrite Hrun in Hrun'. injection Hrun' as <- <- ->.
  pose proof (models_size _ _ Hm) as Hsize.
  assert (Hlen1 : length (take (Z.to_nat p) l) = Z.to_nat p)
    by (rewrite length_take; lia).
  assert (Hdrop : drop (S (Z.to_nat p)) (take (Z.to_nat p) l ++ x :: drop (Z.to_nat p) l)
                  = drop (Z.to_nat p) l).
  { rewrite (cons_middle x), app_assoc. apply drop_app_length'.
    rewrite length_app. simpl. lia. }
  assert (Htake : take (Z.to_nat p) (take (Z.to_nat p) l ++ x :: drop (Z.to_nat p) l)
                  = take (Z.to_nat p) l) by by apply take_app_length'.
  assert (Hin : 0 ≤ p < size_ v') by lia.
  split; [split|].
  - intros [st Hst]. rewrite <-Hdrop. by eapply Erase_quiet.
  - intros Hq. destruct (Erase_when_quiet v' _ p Hm' Hin) as (v'' & Herase & _);
      [unfold erase_quiet; by rewrite Hdrop | eauto].
  - intros v'' leak' r' Herase.
    destruct (Erase_when_quiet v' _ p Hm' Hin) as (v2 & Herase' & Hm'' & Hs'' & Hc'' & _);
      [by eapply Erase_quiet|].
    rewrite Herase in Herase'. injection Herase' as <- _ ->.
    rewrite Htake, Hdrop, take_drop in Hm''.
    split; [done|]. split; [done|]. split; [lia | done].
Qed.

(** ** The capacity along a run of appends *)

Lemma appends_doubling (v : Vector T) (l : list T) (argss : list Args)
    (trace : list (Vector T)) :
  models v l →
  (size_ v = 0 ∧ Capacity v = 0) ∨
    ((∃ k : nat, Capacity v = 2 ^ Z.of_nat k) ∧ Capacity v < 2 * size_ v) →
  appends v argss = Some trace →
  ∀ i v', trace !! i = Some v' →
    size_ v' = size_ v + Z.of_nat i + 1 ∧
    (∃ k : nat, Capacity v' = 2 ^ Z.of_nat k) ∧
    size_ v' ≤ Capacity v' < 2 * size_ v'.
Proof.
  revert v l trace. induction argss as [|args argss IH]; intros v l trace Hm Hinv Hrun.
  - simpl in Hrun. injection Hrun as <-. by intros i v' Hv'.
  - simpl in Hrun.
    destruct (EmplaceBack v args) as [[[v1 leak] r]| | |] eqn:Hback; try done.
    destruct (appends v1 argss) as [trace1|] eqn:Hrest; [|done].
    simpl in Hrun. injection Hrun as <-.
    destruct (EmplaceBack_when_quiet v l args Hm)
      as (x & v2 & leak2 & r2 & Hback' & _ & _ & Hs & Hm' & _ & _ & Hkeep & Hgrow);
      [by eapply EmplaceBack_quiet|].
    rewrite Hback in Hback'. injection Hback' as <- <- <-.
    destruct (models_inv _ _ Hm) as (_ & Hsz & _).
    destruct (models_inv _ _ Hm') as (_ & Hsz' & _).
    assert (Hstep : (∃ k : nat, Capacity v1 = 2 ^ Z.of_nat k) ∧
                    Capacity v1 < 2 * size_ v1).
    { destruct (decide (size_ v < Capacity v)) as [Hroom|Hfull].
      - rewrite (Hkeep Hroom). destruct Hinv as [[? ?]|[Hpow ?]]; [lia|].
        split; [done | lia].
      - rewrite Hgrow by lia. destruct Hinv as [[H0 Hc0]|[[k Hk] Hlt]].
        + rewrite Hc0, Hs, H0. split; [by exists 0%nat | lia].
        + split; [|lia]. exists (S k).
          rewrite Nat2Z.inj_succ, Z.pow_succ_r, <-Hk by lia.
          assert (0 < 2 ^ Z.of_nat k) by (apply Z.pow_pos_nonneg; lia). lia. }
    intros [|i] v' Hv'; simpl in Hv'.
    + injection Hv' as <-. split; [lia|]. split; [apply Hstep | lia].
    + destruct (IH v1 _ trace1 Hm' (or_intror Hstep) Hrest i v' Hv')
        as (Hsi & Hpow & Hbounds).
      split; [lia | done].
Qed.

(** After [N >= 1] appends to an empty vector the capacity is a power of
    two with [N <= capacity < 2 * N]: the least power of two that is at
    least [N]. *)
Theorem appends_capacity (argss : list Args) (trace : list (Vector T)) :
  appends Vector_default argss = Some trace →
  ∀ i v, trace !! i = Some v →
    size_ v = Z.of_nat i + 1 ∧
    (∃ k : nat, Capacity v = 2 ^ Z.of_nat k) ∧
    size_ v ≤ Capacity v < 2 * size_ v.
Proof.
  intros Hrun i v Hv.
  destruct (appends_doubling Vector_default [] argss trace) with (i := i) (v' := v)
    as (Hs & Hpow & Hb); [by apply (models_intro [] [] []) | by left | done | done |].
  split; [|done]. rewrite Hs. simpl. lia.
Qed.

(** ** An insertion in place that raises at its last step *)

(** [Emplace] in the middle of a vector with spare capacity, when the move
    assignment of the new value into slot [p] raises: the elements from [p]
    on were shifted and are not shifted back.  The vector keeps its size, so
    the element that was last is not an element any more; it stays alive in
    the slot past the end, and the destructor of the vector does not destroy
    it. *)
Theorem Emplace_in_place_is_not_rolled_back {E : Type}
    (v : Vector T) (l1 l2 : list T) (z : T) (args : Args) (x : T) (p : Z) :
  models v (l1 ++ l2 ++ [z]) → p = Z.of_nat (length l1) →
  size_ v < Capacity v →
  construct args = Some x → move_throws z = false →
  Forall (λ y, move_assign_throws y = false) l2 → move_assign_throws x = true →
  ∃ v' y,
    Emplace v p args = Raises (v', []) ∧
    models v' (l1 ++ y :: l2) ∧
    size_ v' = size_ v ∧ Capacity v' = Capacity v ∧
    deref (slots v') (size_ v') = Some z ∧
    ∃ others, Vector_destroy (E:=E) v' = Returns (z :: others).
Proof.
  intros Hm Hp Hroom Hx Hz Hq Hqx.
  destruct (models_slots _ _ Hm) as (rest & Hslots & Hcap).
  destruct (models_inv _ _ Hm) as (Hlen & Hsz & Hmax & Hsize & Hbytes).
  pose proof PTRDIFF_MAX_eq as HM. pose proof two64_eq as H64.
  rewrite !length_app in Hsize, Hcap. simpl in Hsize, Hcap.
  destruct rest as [|o rest]; [simpl in Hcap; lia|]. simpl in Hcap.
  unfold Emplace.
  destruct (Z.leb_spec 0 p); [|lia]. destruct (Z.leb_spec p (size_ v)); [|lia].
  destruct (Z.eqb_spec p (size_ v)); [lia|].
  destruct (Z.ltb_spec (size_ v) (Capacity v)); [|lia].
  cbn [assert andb mbind result_bind]. rewrite Hx.
  rewrite Hslots, !fmap_app, <-!app_assoc. cbn [fmap list_fmap app].
  rewrite (app_assoc (Some <$> l1)).
  unfold move_construct_at.
  rewrite (deref_middle _ _ _ (size_ v - 1)) by (rewrite length_app, !length_fmap; lia).
  replace (valid _ (size_ v)) with true
    by (symmetry; apply valid_lt; rewrite !length_app, !length_fmap; simpl; lia).
  rewrite Hz.
  rewrite (store_middle _ _ _ _ (size_ v - 1)) by (rewrite length_app, !length_fmap; lia).
  rewrite (store_second _ _ _ _ _ (size_ v)) by (rewrite length_app, !length_fmap; lia).
  cbn [unwind mbind result_bind].
  rewrite <-app_assoc. unfold move_backward.
  replace (Z.to_nat (size_ v - 1 - p)) with (length l2) by lia.
  destruct (move_backward_loop_live (Some <$> l1) (Some z :: rest) (moved_from z) l2
              (size_ v - 1) (size_ v)) as [y' Hy'];
    [rewrite length_fmap; lia | lia | done |].
  rewrite Hy'. cbn [unwind mbind result_bind].
  unfold RawMemory_index. rewrite Z.sub_0_r, !wrap_small by lia.
  change (capacity_ (data_ v)) with (Capacity v).
  destruct (Z.ltb_spec p (Capacity v)); [|lia].
  cbn [assert mbind result_bind].
  unfold move_assign_from.
  rewrite deref_middle, Hqx by (by rewrite length_fmap).
  cbn [unwind mbind result_bind].
  eexists _, y'. split; [done|].
  assert (Hblock : (Some <$> l1) ++ Some y' :: (Some <$> l2) ++ Some z :: rest
                   = (Some <$> l1 ++ y' :: l2) ++ Some z :: rest)
    by (rewrite fmap_app, fmap_cons; by flatten_app).
  split; [|split; [done|split; [done|split]]].
  - unfold with_slots. eapply (models_intro _ (Some z :: rest)); [exact Hblock | | | done].
    + rewrite !length_app. simpl. lia.
    + rewrite !length_app. simpl. lia.
  - unfold with_slots, slots. cbn [data_ buffer_ size_]. rewrite Hblock.
    apply deref_middle. rewrite length_fmap, length_app. simpl. lia.
  - exists (Deallocate rest). unfold Vector_destroy, with_slots, slots.
    cbn [data_ buffer_ size_]. rewrite Hblock.
    rewrite destroy_n_front by (rewrite length_app; simpl; lia).
    cbn [mbind result_bind]. by released.
Qed.

(** ** The state an exception leaves *)

Lemma always_trivial {E' R} (m : result E' R) : always (λ _, True) (λ _, True) m.
Proof. by destruct m. Qed.

Lemma always_never_raises {E' R} (PE : E' → Prop) (m : result E' R) :
  (∀ e, m ≠ Raises e) → always PE (λ _, True) m.
Proof. intros Hm. destruct m; simpl; [done | by destruct (Hm e) | done..]. Qed.

Lemma destroy_n_never_raises {E'} (b : block) (p n : Z) (e : E') :
  destroy_n b p n ≠ Raises e.
Proof.
  unfold destroy_n. generalize (Z.to_nat n) as k. intros k. revert b p.
  induction k as [|k IH]; intros b p; simpl; [done|].
  unfold destroy_at. destruct (deref b p); [apply IH | done].
Qed.

Lemma destroy_at_never_raises {E'} (b : block) (p : Z) (e : E') :
  destroy_at b p ≠ Raises e.
Proof. unfold destroy_at. by destruct (deref b p). Qed.

Lemma RawMemory_index_never_raises {E'} (m : RawMemory T) (i : Z) (e : E') :
  RawMemory_index m i ≠ Raises e.
Proof. unfold RawMemory_index. by destruct (i <? capacity_ m). Qed.

Ltac raise_step :=
  first
    [ eapply (always_bind _ (λ _, True));
      [ first [ eapply always_unwind; [apply always_trivial | intros; cbn; try done]
              | apply always_never_raises; intros;
                first [ apply destroy_n_never_raises | apply destroy_at_never_raises
                      | apply RawMemory_index_never_raises ] ]
      | intros ]
    | done ].

Lemma EmplaceBack_raise_keeps (v : Vector T) (args : Args) :
  always (λ s, size_ s.1 = size_ v ∧ Capacity s.1 = Capacity v) (λ _, True)
         (EmplaceBack v args).
Proof.
  unfold EmplaceBack. destruct (size_ v <? Capacity v).
  - do 2 raise_step. done.
  - raise_step. raise_step. raise_step.
    { by destruct e. }
    destruct r1. do 2 raise_step. done.
Qed.

Lemma Emplace_raise_keeps (v : Vector T) (pos : Z) (args : Args) :
  always (λ s, size_ s.1 = size_ v ∧ Capacity s.1 = Capacity v) (λ _, True)
         (Emplace v pos args).
Proof.
  unfold Emplace. destruct ((0 <=? pos) && (pos <=? size_ v)); [|done].
  cbn [assert mbind result_bind]. destruct (pos =? size_ v).
  - eapply always_bind; [apply EmplaceBack_raise_keeps|]. by intros [[v' leak] r] _.
  - destruct (size_ v <? Capacity v).
    + destruct (construct args); [|done]. do 4 raise_step. done.
    + do 2 raise_step.
      eapply (always_bind _ (λ _, True)).
      { eapply always_unwind; [apply always_trivial|]. intros [ob nb] _.
        eapply (always_bind _ (λ _, True)); [|done].
        apply always_never_raises. intros. apply destroy_at_never_raises. }
      intros [ob nb] _.
      eapply (always_bind _ (λ _, True)).
      { eapply always_unwind; [apply always_trivial|]. intros [ob' nb'] _.
        eapply (always_bind _ (λ _, True)); [|done].
        apply always_never_raises. intros. apply destroy_n_never_raises. }
      intros [ob' nb'] _. raise_step. done.
Qed.

Lemma PopBack_raise_keeps {E'} (PE : E' → Prop) (v : Vector T) :
  always PE (λ _, True) (PopBack v).
Proof.
  unfold PopBack. eapply (always_bind _ (λ _, True)); [|done].
  apply always_never_raises. intros. apply destroy_n_never_raises.
Qed.

Lemma Erase_raise_keeps (v : Vector T) (pos : Z) :
  always (λ s, size_ s.1 = size_ v ∧ Capacity s.1 = Capacity v) (λ _, True) (Erase v pos).
Proof.
  unfold Erase. destruct ((0 <=? pos) && (pos <? size_ v)); [|done].
  cbn [assert mbind result_bind]. do 2 raise_step. done.
Qed.

Lemma Reserve_raise_keeps (v : Vector T) (n : Z) :
  always (λ s, size_ s.1 = size_ v ∧ Capacity s.1 = Capacity v) (λ _, True) (Reserve v n).
Proof.
  unfold Reserve. destruct (n <=? Capacity v); [done|].
  raise_step. raise_step. { by destruct e. } destruct r0. raise_step. done.
Qed.

Lemma Resize_raise_keeps (v : Vector T) (n : Z) :
  bounded v → is_size_t n →
  always (λ s, size_ s.1 = size_ v ∧ Capacity v ≤ Capacity s.1) (λ _, True) (Resize v n).
Proof.
  intros Hb Hn. unfold Resize. destruct (n =? size_ v); [done|].
  destruct (n <? size_ v).
  - raise_step. done.
  - eapply always_bind.
    { eapply always_mono;
        [eapply always_and; [apply Reserve_raise_keeps | by apply Reserve_always]
        | intros e [[He1 He2] _]; split; [done | lia]
        | intros r [_ Hr]; exact Hr]. }
    intros [[v' leak] []] (_ & _ & Hs & Hc). simpl in Hs, Hc.
    raise_step. done.
Qed.

Lemma copy_assign_raise_keeps (v rhs : Vector T) :
  always (λ s, size_ s.1 = size_ v ∧ Capacity s.1 = Capacity v) (λ _, True)
         (copy_assign v (Another rhs)).
Proof.
  unfold copy_assign. destruct (Capacity v <? size_ rhs).
  - raise_step. cbn [Swap RawMemory_Swap]. unfold Vector_destroy.
    eapply (always_bind _ (λ _, True)); [|done].
    eapply (always_bind _ (λ _, True)); [|done].
    apply always_never_raises. intros. apply destroy_n_never_raises.
  - destruct (size_ rhs <? size_ v); do 2 raise_step; done.
Qed.

Lemma run_raise_keeps (c : call) (v : Vector T) :
  bounded v → in_range c →
  always (λ s, size_ s.1 = size_ v ∧ Capacity v ≤ Capacity s.1) (λ _, True) (run c v).
Proof.
  intros Hb Hc.
  assert (Hweak : ∀ A (m : result (state T) (state T * A)),
            always (λ s, size_ s.1 = size_ v ∧ Capacity s.1 = Capacity v) (λ _, True) m →
            always (λ s, size_ s.1 = size_ v ∧ Capacity v ≤ Capacity s.1) (λ _, True)
                   (discard m)).
  { intros A m Hm. unfold discard. eapply always_bind; [|done].
    eapply always_mono; [exact Hm | intros e [? ?]; split; [done | lia] | done]. }
  destruct c; simpl in *.
  - apply Hweak, EmplaceBack_raise_keeps.
  - apply Hweak. unfold PushBack.
    eapply always_bind; [apply EmplaceBack_raise_keeps|]. by intros [[v' leak] r] _.
  - apply Hweak, Emplace_raise_keeps.
  - apply Hweak, Emplace_raise_keeps.
  - apply Hweak, PopBack_raise_keeps.
  - apply Hweak, Erase_raise_keeps.
  - apply Hweak, Reserve_raise_keeps.
  - unfold discard. eapply always_bind; [|done]. apply Resize_raise_keeps; [done|].
    destruct Hc. pose proof sizeof_T_spec. split; nia.
Qed.

(** An exception never changes the number of elements: whichever method
    raises, and at whichever step, the vector it leaves is well formed and
    has the size it had.  The capacity is the old one too, except after a
    [Resize] that reserved before it raised. *)
Theorem exceptions_keep_the_size (v v' : Vector T) (leak : list T) :
  well_formed v →
  (∀ c, in_range c → run c v = Raises (v', leak) →
     well_formed v' ∧ size_ v' = size_ v ∧ Capacity v ≤ Capacity v' ∧
     ((∀ n, c ≠ CallResize n) → Capacity v' = Capacity v)) ∧
  (∀ rhs, well_formed rhs → copy_assign v (Another rhs) = Raises (v', leak) →
     well_formed v' ∧ size_ v' = size_ v ∧ Capacity v' = Capacity v).
Proof.
  intros Hwf. destruct (well_formed_inv _ Hwf) as (Hb & _). split.
  - intros c Hc Hrun.
    pose proof (always_Raises _ _ _ _ (run_sound c v Hwf Hc) Hrun) as Hwf'.
    destruct (always_Raises _ _ _ _ (run_raise_keeps c v Hb Hc) Hrun) as [Hs Hcap].
    simpl in Hwf', Hs, Hcap. split; [done|]. split; [done|]. split; [done|].
    intros Hc'.
    assert (Hkeep : ∀ A (m : result (state T) (state T * A)),
              always (λ s, size_ s.1 = size_ v ∧ Capacity s.1 = Capacity v) (λ _, True) m →
              discard m = Raises (v', leak) → Capacity v' = Capacity v).
    { intros A m Hm Hd. unfold discard in Hd. destruct m; try done.
      simpl in Hd. injection Hd as ->. by destruct Hm. }
    destruct c; simpl in Hrun.
    + eapply Hkeep; [apply EmplaceBack_raise_keeps | done].
    + eapply Hkeep; [|done]. unfold PushBack.
      eapply always_bind; [apply EmplaceBack_raise_keeps|]. by intros [[v1 leak1] r] _.
    + eapply Hkeep; [apply Emplace_raise_keeps | done].
    + eapply Hkeep; [apply Emplace_raise_keeps | done].
    + eapply Hkeep; [apply PopBack_raise_keeps | done].
    + eapply Hkeep; [apply Erase_raise_keeps | done].
    + eapply Hkeep; [apply Reserve_raise_keeps | done].
    + by destruct (Hc' new_size).
  - intros rhs Hwfr Hrun.
    pose proof (always_Raises _ _ _ _ (copy_assign_sound v rhs Hwf Hwfr) Hrun) as Hwf'.
    destruct (always_Raises _ _ _ _ (copy_assign_raise_keeps v rhs) Hrun) as [Hs Hcap].
    done.
Qed.

(** ** Failures part of the way through an operation in place *)

(** Copy assignment into storage that is large enough assigns element by
    element: when the copy assignment of an element of the common prefix
    raises, the elements before it have been overwritten with those of
    [rhs]; the rest, the size and the capacity are the old ones. *)
Theorem copy_assign_in_place_is_not_rolled_back (v rhs : Vector T) (l xs : list T) (y : T)
    (rest' : list T) :
  models v l → models rhs (xs ++ y :: rest') → size_ rhs ≤ Capacity v →
  (length xs < length l)%nat →
  Forall (λ x, copy_assign_throws x = false) xs → copy_assign_throws y = true →
  ∃ v', copy_assign v (Another rhs) = Raises (v', []) ∧
        models v' (xs ++ drop (length xs) l) ∧
        size_ v' = size_ v ∧ Capacity v' = Capacity v.
Proof.
  intros Hm Hmr Hfit Hxs Hq Hy.
  destruct (models_slots _ _ Hm) as (rest & Hslots & Hcap).
  destruct (models_slots _ _ Hmr) as (rrest & Hrslots & Hrcap).
  destruct (models_inv _ _ Hm) as (Hlen & Hsz & Hmax & Hsize & Hbytes).
  destruct (models_inv _ _ Hmr) as (Hrlen & Hrsz & Hrmax & Hrsize & Hrbytes).
  rewrite length_app in Hrsize. simpl in Hrsize.
  destruct (lookup_lt_is_Some_2 l (length xs) Hxs) as [w Hw].
  assert (Hl : l = take (length xs) l ++ w :: drop (S (length xs)) l)
    by (by rewrite take_drop_middle).
  assert (Hdrop : drop (length xs) l = w :: drop (S (length xs)) l)
    by (by erewrite drop_S).
  assert (Hblock : slots v = (Some <$> take (length xs) l) ++
                             Some w :: (Some <$> drop (S (length xs)) l) ++ rest).
  { rewrite Hslots. rewrite Hl at 1. rewrite fmap_app, fmap_cons, <-app_assoc. done. }
  assert (Hrblock : slots rhs = (Some <$> xs) ++ Some y :: (Some <$> rest') ++ rrest)
    by (by rewrite Hrslots, fmap_app, fmap_cons, <-app_assoc).
  assert (Hrun : ∀ last, Z.of_nat (length xs) < last →
            copy (slots rhs) 0 (0 + last) (slots v) 0
            = Raises ((Some <$> xs) ++ Some w :: (Some <$> drop (S (length xs)) l) ++ rest)).
  { intros last Hlast. unfold copy. rewrite Hblock, Hrblock.
    replace (Z.to_nat (0 + last - 0))
      with (length xs + S (Z.to_nat last - length xs - 1))%nat by lia.
    apply (copy_loop_fails [] _ [] _ xs (take (length xs) l) y w);
      [done | done | rewrite length_take; lia | done | done]. }
  eexists. split.
  - unfold copy_assign. destruct (Z.ltb_spec (Capacity v) (size_ rhs)); [lia|].
    destruct (Z.ltb_spec (size_ rhs) (size_ v)); rewrite Hrun by lia; reflexivity.
  - split; [|done]. unfold with_slots.
    eapply (models_intro _ rest).
    + rewrite Hdrop, fmap_app, fmap_cons, <-app_assoc. done.
    + rewrite length_app, length_drop. lia.
    + rewrite length_app, length_drop. lia.
    + done.
Qed.

(** [Erase] shifts element by element: when the move assignment of an
    element after [p] raises, the erased element is gone already, the
    elements before the one that raised have moved one slot to the left and
    left a moved-from object behind; the size and the capacity are the old
    ones. *)
Theorem Erase_is_not_rolled_back (v : Vector T) (l1 xs rest' : list T) (y z : T) (p : Z) :
  models v (l1 ++ y :: xs ++ z :: rest') → p = Z.of_nat (length l1) →
  Forall (λ x, move_assign_throws x = false) xs → move_assign_throws z = true →
  ∃ v' y', Erase v p = Raises (v', []) ∧
           models v' (l1 ++ xs ++ y' :: z :: rest') ∧
           size_ v' = size_ v ∧ Capacity v' = Capacity v.
Proof.
  intros Hm Hp Hq Hz.
  destruct (models_slots _ _ Hm) as (rest & Hslots & Hcap).
  destruct (models_inv _ _ Hm) as (Hlen & Hsz & Hmax & Hsize & Hbytes).
  rewrite !length_app in Hsize, Hcap. simpl in Hsize, Hcap.
  rewrite length_app in Hsize, Hcap. simpl in Hsize, Hcap.
  destruct (move_loop_fails (Some <$> l1) ((Some <$> rest') ++ rest) y z xs (p + 1) p
              (length rest')) as [y' Hy']; [by rewrite length_fmap | done | done | done |].
  exists (with_slots v ((Some <$> l1) ++ (Some <$> xs) ++
                        Some y' :: Some z :: (Some <$> rest') ++ rest)), y'.
  split.
  - unfold Erase.
    destruct (Z.leb_spec 0 p); [|lia]. destruct (Z.ltb_spec p (size_ v)); [|lia].
    cbn [assert andb mbind result_bind].
    rewrite Hslots. repeat (rewrite fmap_app || rewrite fmap_cons). flatten_app.
    unfold move.
    replace (Z.to_nat (size_ v - (p + 1))) with (length xs + S (length rest'))%nat by lia.
    by rewrite Hy'.
  - split; [|done]. unfold with_slots.
    eapply (models_intro _ rest).
    + repeat (rewrite fmap_app || rewrite fmap_cons). by flatten_app.
    + repeat first [rewrite length_app | progress simpl]. lia.
    + repeat first [rewrite length_app | progress simpl]. lia.
    + done.
Qed.

(** ** No undefined behaviour *)

Ltac returned H :=
  apply unwind_Returns in H;
  [ | first [ done | by intros [] | intros []; apply bind_Raises_ne
            | intros; apply bind_Raises_ne ] ].

Lemma RawMemory_sized_defined (n : Z) : RawMemory_sized (T:=T) n ≠ Undefined.
Proof. unfold RawMemory_sized. by destruct (Allocate n). Qed.

Lemma RawMemory_index_defined {E'} (m : RawMemory T) (i : Z) :
  RawMemory_index (E:=E') m i ≠ Undefined.
Proof. unfold RawMemory_index. by destruct (i <? capacity_ m). Qed.

Lemma models_alive (v : Vector T) (l : list T) :
  models v l →
  alive_below (Z.to_nat (size_ v)) (slots v) ∧ Z.of_nat (length (slots v)) = Capacity v.
Proof.
  intros Hm. by destruct (well_formed_inv v (ex_intro _ l Hm)) as (_ & ? & ?).
Qed.

Lemma relocation_into_new_block_defined (v : Vector T) (l : list T) (nb : block) :
  models v l → size_ v ≤ Z.of_nat (length nb) →
  unwind (UninitializedMoveOrCopy (slots v) 0 (size_ v) nb 0)
         (λ '(ob, nb), Raises (with_slots v ob, Deallocate nb))
  ≫= (λ '(ob, nb), destroy_n (E:=state T) ob 0 (size_ v)) ≠ Undefined.
Proof.
  intros Hm Hnb. destruct (models_alive _ _ Hm) as [Hlive Hlen].
  destruct (models_inv _ _ Hm) as (_ & Hsz & _).
  apply defined_bind.
  - apply defined_unwind; [|by intros []].
    apply (UninitializedMoveOrCopy_defined (Z.to_nat (size_ v))); done || lia.
  - intros [ob nb2] Humc. returned Humc.
    apply (destroy_n_defined (Z.to_nat (size_ v))); [|lia].
    exact (always_Returns _ _ _ _
             (UninitializedMoveOrCopy_keeps _ (slots v) nb 0 (size_ v) 0 Hlive) Humc).
Qed.

Lemma EmplaceBack_defined (v : Vector T) (l : list T) (args : Args) :
  models v l → EmplaceBack v args ≠ Undefined.
Proof.
  intros Hm. destruct (models_alive _ _ Hm) as [Hlive Hlen].
  destruct (models_inv _ _ Hm) as (_ & Hsz & Hmax & Hsize & Hbytes).
  pose proof PTRDIFF_MAX_eq as HM. pose proof two64_eq as H64.
  unfold EmplaceBack. destruct (Z.ltb_spec (size_ v) (Capacity v)) as [Hlt|Hge].
  - apply defined_bind.
    + apply defined_unwind; [apply construct_at_defined, valid_lt; lia | done].
    + intros b _. apply defined_bind; [apply RawMemory_index_defined | done].
  - assert (Hg : size_ v < grown (size_ v)) by (unfold grown; lia).
    assert (Hgfit : grown (size_ v) * sizeof_T ≤ SIZE_MAX)
      by (apply grown_fits; [lia | by replace (size_ v) with (Capacity v) by lia]).
    rewrite new_capacity_grown by lia. rewrite RawMemory_sized_fits by (done || lia).
    destruct (can_allocate (grown (size_ v) * sizeof_T)); [|done].
    cbn [unwind mbind result_bind buffer_].
    apply defined_bind.
    + apply defined_unwind; [|done].
      apply construct_at_defined, valid_lt. rewrite length_replicate. lia.
    + intros nb Hnb. returned Hnb.
      apply construct_at_Returns in Hnb as (x & _ & ->).
      pose proof (relocation_into_new_block_defined v l
                    (store (replicate (Z.to_nat (grown (size_ v))) None) (size_ v) (Some x))
                    Hm) as Hreloc.
      rewrite length_store, length_replicate in Hreloc. specialize (Hreloc ltac:(lia)).
      destruct (unwind _ _) as [[ob nb2]| | |]; try done.
      cbn [mbind result_bind] in Hreloc |- *.
      apply defined_bind; [done|]. intros ob' _.
      apply defined_bind; [apply RawMemory_index_defined | done].
Qed.

Lemma Reserve_defined (v : Vector T) (l : list T) (n : Z) :
  models v l → 0 ≤ n → n * sizeof_T ≤ SIZE_MAX → Reserve v n ≠ Undefined.
Proof.
  intros Hm Hn Hfit. destruct (models_inv _ _ Hm) as (_ & Hsz & _).
  unfold Reserve. destruct (Z.leb_spec n (Capacity v)); [done|].
  rewrite RawMemory_sized_fits by (done || lia).
  destruct (can_allocate (n * sizeof_T)); [|done].
  cbn [unwind mbind result_bind buffer_].
  pose proof (relocation_into_new_block_defined v l (replicate (Z.to_nat n) None) Hm)
    as Hreloc.
  rewrite length_replicate in Hreloc. specialize (Hreloc ltac:(lia)).
  destruct (unwind _ _) as [[ob nb2]| | |]; try done.
  cbn [mbind result_bind] in Hreloc |- *. by apply defined_bind.
Qed.

Lemma Resize_defined (v : Vector T) (l : list T) (n : Z) :
  models v l → 0 ≤ n → n * sizeof_T ≤ SIZE_MAX → Resize v n ≠ Undefined.
Proof.
  intros Hm Hn Hfit. destruct (models_alive _ _ Hm) as [Hlive Hlen].
  destruct (models_inv _ _ Hm) as (_ & Hsz & Hmax & Hsize & Hbytes).
  pose proof PTRDIFF_MAX_eq as HM. pose proof two64_eq as H64.
  pose proof SIZE_MAX_eq as HS. pose proof sizeof_T_spec as Hsizeof.
  assert (Hwf : well_formed v) by by exists l.
  destruct (well_formed_inv _ Hwf) as (Hb & _).
  unfold Resize. destruct (Z.eqb_spec n (size_ v)); [done|].
  destruct (Z.ltb_spec n (size_ v)).
  - apply defined_bind; [|done]. rewrite wrap_small by lia.
    apply destroy_loop_defined; [lia|].
    intros i Hi. apply (alive_below_deref (Z.to_nat (size_ v))); [done | lia].
  - apply defined_bind; [by apply (Reserve_defined v l)|].
    intros [[v1 leak] []] Hres.
    pose proof (always_Returns _ _ _ _ (Reserve_sound v n Hwf Hn Hfit) Hres) as Hwf1.
    destruct (always_Returns _ _ _ _ (Reserve_always v n Hb ltac:(split; nia)) Hres)
      as (_ & Hc1 & Hs1 & _).
    simpl in Hwf1, Hc1, Hs1. destruct (well_formed_inv _ Hwf1) as (_ & Hlen1 & _).
    apply defined_bind; [|done]. apply defined_unwind; [|done].
    rewrite Hs1, wrap_small by nia.
    apply uninitialized_value_construct_n_defined; lia.
Qed.

Lemma Erase_defined (v : Vector T) (l : list T) (pos : Z) :
  models v l → Erase v pos ≠ Undefined.
Proof.
  intros Hm. destruct (models_alive _ _ Hm) as [Hlive Hlen].
  destruct (models_inv _ _ Hm) as (_ & Hsz & _).
  unfold Erase.
  destruct (Z.leb_spec 0 pos); [|done]. destruct (Z.ltb_spec pos (size_ v)); [|done].
  cbn [assert andb mbind result_bind].
  apply defined_bind.
  - apply defined_unwind; [|done]. unfold move.
    apply (move_loop_defined (Z.to_nat (size_ v))); done || lia.
  - intros b Hmove. returned Hmove.
    pose proof (always_Returns _ _ _ _ (move_keeps _ (slots v) _ _ _ Hlive) Hmove) as Hb.
    apply defined_bind; [|done]. unfold destroy_at.
    by destruct (alive_below_deref _ b (size_ v - 1) Hb ltac:(lia)) as [x ->].
Qed.

Lemma Emplace_defined (v : Vector T) (l : list T) (pos : Z) (args : Args) :
  models v l → pos = size_ v ∨ size_ v < Capacity v → Emplace v pos args ≠ Undefined.
Proof.
  intros Hm Hpath. destruct (models_alive _ _ Hm) as [Hlive Hlen].
  destruct (models_inv _ _ Hm) as (_ & Hsz & Hmax & Hsize & Hbytes).
  pose proof PTRDIFF_MAX_eq as HM. pose proof two64_eq as H64.
  unfold Emplace.
  destruct (Z.leb_spec 0 pos); [|done]. destruct (Z.leb_spec pos (size_ v)); [|done].
  cbn [assert andb mbind result_bind].
  destruct (Z.eqb_spec pos (size_ v)).
  - apply defined_bind; [by apply (EmplaceBack_defined v l) | by intros [[v' leak] r] _].
  - destruct Hpath as [?|Hroom]; [done|].
    destruct (Z.ltb_spec (size_ v) (Capacity v)); [|lia].
    destruct (construct args) as [tmp|]; [|done].
    apply defined_bind.
    { apply defined_unwind; [|done].
      apply (move_construct_at_defined (Z.to_nat (size_ v))); [done | lia |].
      apply valid_lt. lia. }
    intros b1 Hb1. returned Hb1.
    pose proof (always_Returns _ _ _ _
                  (move_construct_at_keeps _ (slots v) _ _ Hlive) Hb1) as Hlive1.
    apply defined_bind.
    { apply defined_unwind; [|done]. unfold move_backward.
      apply (move_backward_loop_defined (Z.to_nat (size_ v))); done || lia. }
    intros b2 Hb2. returned Hb2.
    pose proof (always_Returns _ _ _ _ (move_backward_keeps _ b1 _ _ _ Hlive1) Hb2) as Hlive2.
    apply defined_bind; [apply RawMemory_index_defined|].
    intros i Hi.
    destruct (always_Returns _ _ _ _
                (RawMemory_index_always (λ _ : state T, True) (data_ v) _) Hi) as [-> _].
    apply defined_bind; [|done]. apply defined_unwind; [|done].
    apply (move_assign_from_defined (Z.to_nat (size_ v))); [done|].
    rewrite Z.sub_0_r, wrap_small by lia. lia.
Qed.

Lemma copy_assign_defined (v rhs : Vector T) (l r : list T) :
  models v l → models rhs r → copy_assign v (Another rhs) ≠ Undefined.
Proof.
  intros Hm Hmr. destruct (models_alive _ _ Hm) as [Hlive Hlen].
  destruct (models_alive _ _ Hmr) as [Hrlive Hrlen].
  destruct (models_inv _ _ Hm) as (_ & Hsz & Hmax & Hsize & Hbytes).
  destruct (models_inv _ _ Hmr) as (_ & Hrsz & Hrmax & Hrsize & Hrbytes).
  destruct (models_fits _ _ Hmr) as [Hrfit _].
  pose proof PTRDIFF_MAX_eq as HM. pose proof two64_eq as H64.
  unfold copy_assign. destruct (Z.ltb_spec (Capacity v) (size_ rhs)).
  - apply defined_bind.
    + apply defined_unwind; [|done]. unfold Vector_copy.
      rewrite RawMemory_sized_fits by (done || lia).
      destruct (can_allocate (size_ rhs * sizeof_T)); [|done].
      cbn [unwind mbind result_bind buffer_].
      apply defined_bind; [|done]. apply defined_unwind; [|done].
      apply (uninitialized_copy_n_defined (Z.to_nat (size_ rhs)));
        rewrite ?length_replicate; done || lia.
    + intros v1 _. cbn [Swap RawMemory_Swap]. apply defined_bind; [|done].
      unfold Vector_destroy. apply defined_bind; [|done].
      apply (destroy_n_defined (Z.to_nat (size_ v))); [done | simpl; lia].
  - destruct (Z.ltb_spec (size_ rhs) (size_ v)).
    + apply defined_bind.
      * apply defined_unwind; [|done]. unfold copy.
        apply (copy_loop_defined (Z.to_nat (size_ rhs)) (Z.to_nat (size_ v))); done || lia.
      * intros b Hcopy. returned Hcopy.
        pose proof (always_Returns _ _ _ _ (copy_keeps _ (slots rhs) _ _ _ _ Hlive) Hcopy)
          as Hb.
        apply defined_bind; [|done]. rewrite wrap_small by lia.
        apply destroy_loop_defined; [lia|].
        intros i Hi. apply (alive_below_deref (Z.to_nat (size_ v))); [done | lia].
    + apply defined_bind.
      * apply defined_unwind; [|done]. unfold copy.
        apply (copy_loop_defined (Z.to_nat (size_ rhs)) (Z.to_nat (size_ v))); done || lia.
      * intros b Hcopy. returned Hcopy.
        pose proof (always_Returns _ _ _ _
                      (copy_length (slots rhs) (slots v) _ _ _ _ eq_refl) Hcopy) as Hb.
        cbn beta in Hb.
        apply defined_bind; [|done]. apply defined_unwind; [|done].
        rewrite wrap_small by lia.
        apply (uninitialized_copy_n_defined (Z.to_nat (size_ rhs))); done || lia.
Qed.

(** On a well-formed vector no call has undefined behaviour: [EmplaceBack],
    [PushBack], [Erase], copy assignment, [Emplace] at the end or with spare
    capacity, [PopBack] when there is an element, and [Reserve] and [Resize]
    for a number of slots whose byte count is a [size_t] value.  Every such
    call returns, raises, or stops at an assertion, whichever element
    operations raise.  (What is left out is [Emplace] in the middle of a full
    vector.) *)
Theorem calls_are_defined (v : Vector T) (l : list T) :
  models v l →
  (∀ args, EmplaceBack v args ≠ Undefined ∧ PushBack v args ≠ Undefined) ∧
  (∀ p args, p = size_ v ∨ size_ v < Capacity v →
     Emplace v p args ≠ Undefined ∧ Insert v p args ≠ Undefined) ∧
  (∀ p, Erase v p ≠ Undefined) ∧
  (∀ n, 0 ≤ n → n * sizeof_T ≤ SIZE_MAX →
     Reserve v n ≠ Undefined ∧ Resize v n ≠ Undefined) ∧
  (∀ rhs r, models rhs r → copy_assign v (Another rhs) ≠ Undefined) ∧
  (l ≠ [] → PopBack (E:=state T) v ≠ Undefined).
Proof.
  intros Hm. split; [|split; [|split; [|split; [|split]]]].
  - intros args. pose proof (EmplaceBack_defined v l args Hm) as Hback.
    split; [done|]. unfold PushBack. apply defined_bind; [done | by intros [[v' leak] r] _].
  - intros p args Hpath. by split; apply (Emplace_defined v l).
  - intros p. by apply (Erase_defined v l).
  - intros n Hn Hfit. split; [by apply (Reserve_defined v l) | by apply (Resize_defined v l)].
  - intros rhs r Hmr. by apply (copy_assign_defined v rhs l r).
  - intros Hne. destruct l as [|x l' _] using rev_ind; [done|].
    destruct (PopBack_spec (E:=state T) v l' x Hm) as (v' & Hpop & _). by rewrite Hpop.
Qed.

End Extras.

(** ** The properties on concrete vectors *)

Lemma PopBack_removes_last_witness :
  ∃ v', PopBack (E:=unit) (make [Some 1; Some 2] 2) = Returns (v', [], ()) ∧
        models (elem:=fragile) v' [1].
Proof.
  destruct (PopBack_removes_last (elem:=fragile) (E:=unit) (make [Some 1; Some 2] 2) [1; 2])
    as [_ Hpop]; [solve_models|].
  destruct (Hpop [1] 2 eq_refl) as (v' & Hrun & Hm & _). by exists v'.
Defined.

Lemma index_checks_bounds_witness :
  index (E:=unit) (make [Some 1; Some 2; None] 2) 1 = Returns 1 ∧
  index (E:=unit) (make [Some 1; Some 2; None] 2) 2 = AssertionFailed.
Proof.
  split.
  - apply (index_checks_bounds (elem:=fragile) (make [Some 1; Some 2; None] 2) [1; 2] 1);
      [solve_models | lia | reflexivity].
  - apply (index_checks_bounds (elem:=fragile) (make [Some 1; Some 2; None] 2) [1; 2] 2);
      [solve_models | lia | vm_compute; congruence].
Defined.

Lemma Vector_destroy_releases_witness :
  Vector_destroy (E:=unit) (make [Some 1; Some 2; None] 2) = Returns [].
Proof.
  apply (Vector_destroy_releases (elem:=fragile) (make [Some 1; Some 2; None] 2) [1; 2]);
    [solve_models | repeat constructor].
Defined.

Lemma move_assign_keeps_old_elements_alive_witness :
  ∃ v' rhs',
    move_assign (make [Some 1; Some 2] 2) (Another (make [Some 7] 1)) = (v', Some rhs') ∧
    models (elem:=fragile) v' [7] ∧ size_ rhs' = 0 ∧
    Vector_destroy (E:=unit) rhs' = Returns [1; 2].
Proof.
  destruct (move_assign_keeps_old_elements_alive (elem:=fragile) (E:=unit)
              (make [Some 1; Some 2] 2) (make [Some 7] 1) [1; 2] [7])
    as (v' & rhs' & Hrun & Hm & _ & _ & _ & _ & others & Hleak);
    [solve_models | solve_models |].
  exists v', rhs'. split; [done|]. split; [done|].
  vm_compute in Hrun. injection Hrun as <- <-. split; [done|].
  vm_compute. reflexivity.
Defined.

Lemma RawMemory_sized_allocates_witness :
  RawMemory_sized (elem:=fragile) (heap:=small_heap) 3
  = Returns {| buffer_ := [None; None; None]; capacity_ := 3 |} ∧
  RawMemory_sized (elem:=fragile) (heap:=small_heap) 100 = Raises ().
Proof.
  split.
  - destruct (RawMemory_sized_allocates (elem:=fragile) (heap:=small_heap) 3)
      as (_ & Hfit & _); [vm_compute; split; congruence|].
    apply Hfit; [lia | vm_compute; congruence].
  - destruct (RawMemory_sized_allocates (elem:=fragile) (heap:=small_heap) 100)
      as (_ & Hfit & _); [vm_compute; split; congruence|].
    apply Hfit; [lia | vm_compute; congruence].
Defined.

Lemma read_range_elements_witness :
  read_range (make [Some 1; Some 2; None] 2) 0 2 = [Some 1; Some 2].
Proof.
  apply (read_range_elements (elem:=fragile) (make [Some 1; Some 2; None] 2) [1; 2]).
  solve_models.
Defined.

Lemma Vector_sized_value_initializes_witness :
  (∃ v, Vector_sized (elem:=fragile) (heap:=small_heap) 3 = Returns v) ∧
  ∀ leak, Vector_sized (elem:=brittle) (heap:=small_heap) 3 = Raises leak → leak = [].
Proof.
  split.
  - apply (Vector_sized_value_initializes (elem:=fragile) (heap:=small_heap) 3);
      [lia | vm_compute; congruence |].
    intros _. split; [reflexivity | by exists 0].
  - apply (Vector_sized_value_initializes (elem:=brittle) (heap:=small_heap) 3);
      [lia | vm_compute; congruence].
Defined.

Lemma Vector_copy_copies_witness :
  ∃ v, Vector_copy (elem:=fragile) (heap:=small_heap) (make [Some 1; Some 2; None] 2)
       = Returns v ∧ models (elem:=fragile) v [1; 2] ∧ Capacity v = 2.
Proof.
  destruct (Vector_copy_copies (elem:=fragile) (heap:=small_heap)
              (make [Some 1; Some 2; None] 2) [1; 2]) as (Hiff & Hpost & _);
    [solve_models|].
  destruct (proj2 Hiff) as [v Hv]; [split; [reflexivity | solve_Forall]|].
  destruct (Hpost v Hv) as (Hm & _ & Hc). by exists v.
Defined.

Lemma Emplace_raises_before_relocation_witness :
  EmplaceBack (elem:=fragile) (heap:=small_heap) (make [Some 1; Some 2] 2) (-1)
  = Raises (make [Some 1; Some 2] 2, []) ∧
  Emplace (elem:=fragile) (heap:=small_heap) (make [Some 1; Some 2] 2) 1 (-1)
  = Raises (make [Some 1; Some 2] 2, []).
Proof.
  destruct (Emplace_raises_before_relocation (elem:=fragile) (heap:=small_heap)
              (make [Some 1; Some 2] 2) [1; 2] (-1)) as (Hback & _ & Hat);
    [solve_models | by left |].
  split; [done|]. apply Hat. vm_compute. split; congruence.
Defined.

Lemma Reserve_failure_is_strong_witness :
  Reserve (elem:=fragile) (heap:=small_heap) (make [Some 1; Some 13] 2) 8
  = Raises (make [Some 1; Some 13] 2, []).
Proof.
  apply (Reserve_failure_is_strong (elem:=fragile) (heap:=small_heap)
           (make [Some 1; Some 13] 2) [1; 13] 8);
    [solve_models | vm_compute; congruence | vm_compute; congruence |].
  right. split; [reflexivity|].
  intros Hq. apply Forall_cons in Hq as [_ Hq]. apply Forall_cons in Hq as [Hq _]. done.
Defined.

Lemma EmplaceBack_relocation_raises_witness :
  EmplaceBack (elem:=fragile) (heap:=small_heap) (make [Some 1; Some 13] 2) 5
  = Raises (make [Some 1; Some 13] 2, [5]).
Proof.
  apply (EmplaceBack_relocation_raises (elem:=fragile) (heap:=small_heap)
           (make [Some 1; Some 13] 2) [1; 13] 5 5);
    [solve_models | reflexivity | reflexivity | reflexivity | reflexivity |].
  intros Hq. apply Forall_cons in Hq as [_ Hq]. apply Forall_cons in Hq as [Hq _]. done.
Defined.

Lemma copy_assign_fresh_copy_is_strong_witness :
  copy_assign (elem:=fragile) (heap:=small_heap)
    (make [Some 1] 1) (Another (make [Some 2; Some 13] 2))
  = Raises (make [Some 1] 1, []).
Proof.
  apply (copy_assign_fresh_copy_is_strong (elem:=fragile) (heap:=small_heap)
           (make [Some 1] 1) (make [Some 2; Some 13] 2) [1] [2; 13]);
    [solve_models | solve_models | vm_compute; congruence |].
  right. intros Hq. apply Forall_cons in Hq as [_ Hq]. apply Forall_cons in Hq as [Hq _].
  done.
Defined.

Lemma Resize_resizes_witness :
  (∃ v', Resize (elem:=fragile) (heap:=small_heap) (make [Some 1; Some 2; Some 3] 3) 1
         = Returns (v', [], ()) ∧ models (elem:=fragile) v' [1] ∧ Capacity v' = 3) ∧
  (∃ v' leak, Resize (elem:=fragile) (heap:=small_heap) (make [Some 1; Some 2] 2) 4
              = Returns (v', leak, ()) ∧ models (elem:=fragile) v' [1; 2; 0; 0] ∧
              Capacity v' = 4).
Proof.
  split.
  - destruct (Resize_resizes (elem:=fragile) (heap:=small_heap)
                (make [Some 1; Some 2; Some 3] 3) [1; 2; 3] 1) as [Hiff Hpost];
      [solve_models | lia | vm_compute; congruence |].
    destruct (proj2 Hiff) as [[[v' leak] []] Hrun]; [intros E; vm_compute in E; discriminate|].
    destruct (Hpost v' leak Hrun) as (_ & Hdown & _).
    destruct Hdown as (-> & Hc & Hm); [vm_compute; congruence|]. by exists v'.
  - destruct (Resize_resizes (elem:=fragile) (heap:=small_heap)
                (make [Some 1; Some 2] 2) [1; 2] 4) as [Hiff Hpost];
      [solve_models | lia | vm_compute; congruence |].
    destruct (proj2 Hiff) as [[[v' leak] []] Hrun].
    { intros _. split; [by exists 0|]. intros _. split; [reflexivity | solve_Forall]. }
    destruct (Hpost v' leak Hrun) as (_ & _ & Hup).
    destruct Hup as (Hc & x0 & Hx0 & Hm); [vm_compute; congruence|].
    injection Hx0 as <-. by exists v', leak.
Defined.

Lemma Resize_failures_witness :
  ∃ v' leak, Resize (elem:=brittle) (heap:=small_heap) (make [Some 1; Some 2] 2) 4
             = Raises (v', leak) ∧ models (elem:=brittle) v' [1; 2] ∧
             size_ v' = 2 ∧ Capacity v' = 4.
Proof.
  destruct (Resize_failures (elem:=brittle) (heap:=small_heap)
              (make [Some 1; Some 2] 2) [1; 2] 4) as [_ Hinit];
    [solve_models | vm_compute; congruence | vm_compute; congruence |].
  destruct Hinit as (v' & leak & Hrun & Hm & Hs & Hc);
    [reflexivity | intros _; split; [reflexivity | solve_Forall] |].
  by exists v', leak.
Defined.

Lemma PushBack_PopBack_round_trip_witness :
  ∃ v'', PopBack (E:=unit) (make [Some 1; Some 2; Some 5; None] 3) = Returns (v'', [], ()) ∧
         models (elem:=fragile) v'' [1; 2].
Proof.
  destruct (PushBack_PopBack_round_trip (elem:=fragile) (heap:=small_heap) (E:=unit)
              (make [Some 1; Some 2] 2) (make [Some 1; Some 2; Some 5; None] 3) [1; 2] 5 [])
    as (v'' & Hpop & Hm & _); [solve_models | vm_compute; reflexivity |].
  by exists v''.
Defined.

Lemma Insert_Erase_round_trip_witness :
  ∃ v'', Erase (elem:=fragile) (make [Some 1; Some 99; Some 2; Some 3] 4) 1
         = Returns (v'', [], 1) ∧ models (elem:=fragile) v'' [1; 2; 3].
Proof.
  destruct (Insert_Erase_round_trip (elem:=fragile) (heap:=small_heap)
              (make [Some 1; Some 2; Some 3; None] 3)
              (make [Some 1; Some 99; Some 2; Some 3] 4) [1; 2; 3] 1 99 [] 1)
    as [Hiff Hpost]; [solve_models | vm_compute; split; congruence | vm_compute; reflexivity |].
  destruct (proj2 Hiff) as [[[v'' leak'] r'] Hrun]; [solve_Forall|].
  destruct (Hpost v'' leak' r' Hrun) as (Hm & -> & _).
  exists v''. split; [|done].
  rewrite Hrun. vm_compute in Hrun. by injection Hrun as _ ->.
Defined.

Lemma appends_capacity_witness :
  ∃ trace v, appends (elem:=fragile) (heap:=small_heap) Vector_default [1; 2; 3; 4; 5]
             = Some trace ∧
             trace !! 4%nat = Some v ∧ size_ v = 5 ∧ Capacity v = 8.
Proof.
  destruct (appends (elem:=fragile) (heap:=small_heap) Vector_default [1; 2; 3; 4; 5])
    as [trace|] eqn:Hrun; [|vm_compute in Hrun; discriminate].
  destruct (trace !! 4%nat) as [v|] eqn:Hv;
    [|vm_compute in Hrun; injection Hrun as <-; discriminate].
  destruct (appends_capacity (elem:=fragile) (heap:=small_heap) _ _ Hrun 4%nat v Hv)
    as (Hs & _ & _).
  exists trace, v. split; [done|]. split; [done|]. split; [done|].
  vm_compute in Hrun. injection Hrun as <-. vm_compute in Hv. by injection Hv as <-.
Defined.

Lemma Emplace_in_place_is_not_rolled_back_witness :
  ∃ v' y, Emplace (elem:=brittle) (heap:=small_heap)
            (make [Some 1; Some 2; Some 3; None] 3) 1 7 = Raises (v', []) ∧
          models (elem:=brittle) v' [1; y; 2] ∧ size_ v' = 3 ∧
          deref (slots v') 3 = Some 3.
Proof.
  destruct (Emplace_in_place_is_not_rolled_back (elem:=brittle) (heap:=small_heap) (E:=unit)
              (make [Some 1; Some 2; Some 3; None] 3) [1] [2] 3 7 7 1)
    as (v' & y & Hrun & Hm & Hs & _ & Hlast & _);
    [solve_models | reflexivity | vm_compute; congruence | reflexivity | reflexivity
     | solve_Forall | reflexivity |].
  exists v', y. split; [done|]. split; [done|]. split; [done|]. by rewrite Hs in Hlast.
Defined.

Lemma copy_assign_in_place_is_not_rolled_back_witness :
  ∃ v', copy_assign (elem:=brittle) (heap:=small_heap)
          (make [Some 1; Some 2; Some 3] 3) (Another (make [Some 5; Some 7] 2))
        = Raises (v', []) ∧ models (elem:=brittle) v' [5; 2; 3].
Proof.
  destruct (copy_assign_in_place_is_not_rolled_back (elem:=brittle) (heap:=small_heap)
              (make [Some 1; Some 2; Some 3] 3) (make [Some 5; Some 7] 2)
              [1; 2; 3] [5] 7 [])
    as (v' & Hrun & Hm & _);
    [solve_models | solve_models | vm_compute; congruence | simpl; lia | solve_Forall
     | reflexivity |].
  by exists v'.
Defined.

Lemma Erase_is_not_rolled_back_witness :
  ∃ v' y', Erase (elem:=brittle) (make [Some 1; Some 2; Some 3; Some 7; Some 4] 5) 1
           = Raises (v', []) ∧ models (elem:=brittle) v' [1; 3; y'; 7; 4].
Proof.
  destruct (Erase_is_not_rolled_back (elem:=brittle)
              (make [Some 1; Some 2; Some 3; Some 7; Some 4] 5) [1] [3] [4] 2 7 1)
    as (v' & y' & Hrun & Hm & _);
    [solve_models | reflexivity | solve_Forall | reflexivity |].
  by exists v', y'.
Defined.

Lemma exceptions_keep_the_size_witness :
  ∃ v' leak,
    run (elem:=fragile) (heap:=small_heap) (CallReserve 8) (make [Some 1; Some 13] 2)
    = Raises (v', leak) ∧
    well_formed (elem:=fragile) v' ∧ size_ v' = 2 ∧ Capacity v' = 2.
Proof.
  exists (make [Some 1; Some 13] 2), [].
  assert (Hrun : run (elem:=fragile) (heap:=small_heap) (CallReserve 8)
                   (make [Some 1; Some 13] 2)
                 = Raises (make [Some 1; Some 13] 2, [])) by (vm_compute; reflexivity).
  destruct (exceptions_keep_the_size (elem:=fragile) (heap:=small_heap)
              (make [Some 1; Some 13] 2) (make [Some 1; Some 13] 2) []) as [Hcalls _].
  { exists [1; 13]. solve_models. }
  destruct (Hcalls (CallReserve 8)) as (Hwf & Hs & _ & Hc);
    [vm_compute; split; congruence | done |].
  split; [done|]. split; [done|]. split; [done|]. by apply Hc.
Defined.

Lemma calls_are_defined_witness :
  Erase (elem:=brittle) (make [Some 1; Some 2; Some 7; None] 3) 0 ≠ Undefined ∧
  Emplace (elem:=brittle) (heap:=small_heap) (make [Some 1; Some 2; Some 7; None] 3) 1 5
  ≠ Undefined.
Proof.
  destruct (calls_are_defined (elem:=brittle) (heap:=small_heap)
              (make [Some 1; Some 2; Some 7; None] 3) [1; 2; 7])
    as (_ & Hemplace & Herase & _); [solve_models|].
  split; [apply Herase|]. apply Hemplace. right. vm_compute. reflexivity.
Defined.

End notstd.
